(** * Elastic rate limiter and RED congestion manager (go-algorand, package util)

    A shallow embedding of [ElasticRateLimiter], its capacity queues and
    guards, the background token transfers started by [openReservation] and
    [closeReservation], and of the RED congestion manager's [prune],
    [arrivalRateFor], [shouldDrop] and the body of its [run] loop. *)

From Stdlib Require Import ZArith Lia Sorted.
From Stdlib Require Import Floats.SpecFloat.
From stdpp Require Import base option list gmap fin_maps.

Local Open Scope Z_scope.

(** ** Go values *)

(** Go's [int] and [time.Duration] are 64-bit two's complement integers. *)
Definition int_min : Z := - 2 ^ 63.
Definition int_max : Z := 2 ^ 63 - 1.
Definition is_int (z : Z) : Prop := int_min <= z <= int_max.
Definition wrap_int (z : Z) : Z := (z + 2 ^ 63) mod 2 ^ 64 - 2 ^ 63.

(** [time.Time] as an instant on one clock, in nanoseconds; [t.After(u)] is
    [u < t]. *)
Definition Time : Type := Z.
Definition After (t u : Time) : bool := u <? t.

(** [*metrics.Counter]: [None] is the nil pointer, [Inc] adds one. *)
Definition Counter : Type := option nat.
Definition Inc (c : Counter) : Counter := S <$> c.

(** ** Channels of capacity *)

(** [type capacityQueue chan capacity]: the tokens are empty structs, so a
    channel is its buffer size and the number of tokens buffered.  Channels
    are reference values: they live in a heap and are named by [qref].  A
    channel of size zero has no buffer and passes a token only from a
    waiting sender to a waiting receiver; here nothing passes through it,
    as in the program, where no goroutine ever sends on one (see
    [held_guard_buffered]). *)
Record chan := Chan { qcap : Z; qlen : Z }.
Abbreviation qref := nat (only parsing).
Abbreviation heap := (list chan) (only parsing).

(** [make(chan capacity, n)] panics ([None]) for a negative size. *)
Definition make_chan (n : Z) (h : heap) : option (qref * heap) :=
  if n <? 0 then None else Some (length h, h ++ [Chan n 0]).

(** [case <-q:] of a [select] with a [default]: ready when a token is
    buffered. *)
Definition try_recv (q : qref) (h : heap) : option heap :=
  match h !! q with
  | Some c => if 0 <? qlen c then Some (<[q := Chan (qcap c) (qlen c - 1)]> h) else None
  | None => None
  end.

(** [case q <- capacity{}:] of a [select] with a [default]: ready when the
    buffer has room. *)
Definition try_send (q : qref) (h : heap) : option heap :=
  match h !! q with
  | Some c => if qlen c <? qcap c then Some (<[q := Chan (qcap c) (qlen c + 1)]> h) else None
  | None => None
  end.

(** [q.blockingRelease()] and [q.blockingConsume()]: the same channel
    operations without a [default]; [None] means the caller stays blocked. *)
Definition blockingRelease (q : qref) (h : heap) : option heap := try_send q h.
Definition blockingConsume (q : qref) (h : heap) : option heap := try_recv q h.

Definition tokens (q : qref) (h : heap) : Z := from_option qlen 0 (h !! q).

(** ** Counting tokens *)

Definition sumZ {A : Type} (f : A → Z) (l : list A) : Z := foldr (λ x acc, f x + acc) 0 l.

(** Tokens in every channel ever made, the shared one included. *)
Definition heap_tokens (h : heap) : Z := sumZ qlen h.

(** ** Errors *)

Inductive erl_error :=
  | ErrCouldNotReplace (q : option qref)
      (* "could not replace capacity to channel" *)
  | ErrCouldNotConsume (q : qref)
      (* "could not consume capacity from capacityQueue" (NoCapacity) *)
  | ErrCongestion
      (* "congestionManager prevented client from consuming capacity" *)
  | ErrAlreadyReserved
      (* "client already has a reservation" *)
  | ErrNotEnoughCapacity (remaining requested : Z).
      (* "not enough capacity to reserve for client" *)

(** ** The congestion manager interface *)

Class CongestionManager (ErlClient CM : Type) := {
  cmConsumed : ErlClient -> Time -> CM -> CM;
  cmServed : Time -> CM -> CM;
  cmShouldDrop : ErlClient -> CM -> bool * CM;
}.

(** ** Guards *)

(** [ErlCapacityGuard]: [cq] is the channel the token came from ([None] is
    the nil channel of the zero guard), [gcm] tells whether the guard's [cm]
    pointer is [&erl.cm] or nil.  The [client] field is never assigned. *)
Record ErlCapacityGuard := Guard { cq : option qref; gcm : bool }.
Definition zero_guard : ErlCapacityGuard := Guard None false.

(** A goroutine started by [openReservation] or [closeReservation]: the
    loop [for i := 0; i < n; i++ { from.blockingConsume(); to.blockingRelease() }]
    with its counter, and whether it is between the two calls, carrying a
    token. *)
Record transfer := Transfer { t_from : qref; t_to : qref; t_n : Z; t_i : Z; t_carry : bool }.

Definition transfer_step (t : transfer) (h : heap) : option (transfer * heap) :=
  if t_carry t then
    h' ← blockingRelease (t_to t) h;
    Some (Transfer (t_from t) (t_to t) (t_n t) (t_i t + 1) false, h')
  else if t_i t <? t_n t then
    h' ← blockingConsume (t_from t) h;
    Some (Transfer (t_from t) (t_to t) (t_n t) (t_i t) true, h')
  else None.

Definition finished (t : transfer) : Prop := t_carry t = false ∧ t_n t <= t_i t.

(** Tokens the goroutines hold between a receive and the send after it. *)
Definition carried (r : list transfer) : Z := sumZ (λ t, if t_carry t then 1 else 0) r.

(** Tokens the goroutines have put into [q], and taken out of it. *)
Definition into (q : qref) (r : list transfer) : Z :=
  sumZ (λ t, if decide (t_to t = q) then t_i t else 0) r.
Definition outof (q : qref) (r : list transfer) : Z :=
  sumZ (λ t, if decide (t_from t = q) then t_i t + (if t_carry t then 1 else 0) else 0) r.
Definition openers (q : qref) (r : list transfer) : Z :=
  sumZ (λ t, if decide (t_to t = q) then 1 else 0) r.

(** Guards taken from [q]. *)
Definition guards_on (q : qref) (l : list ErlCapacityGuard) : Z :=
  sumZ (λ g, if decide (cq g = Some q) then 1 else 0) l.

(** A congestion manager that records the calls it receives, in order. *)
Inductive cm_call (ErlClient : Type) :=
  | CallConsumed (c : ErlClient) (t : Time)
  | CallServed (t : Time)
  | CallShouldDrop (c : ErlClient).
Arguments CallConsumed {ErlClient} c t.
Arguments CallServed {ErlClient} t.
Arguments CallShouldDrop {ErlClient} c.

(** [answer] is what [ShouldDrop] replies. *)
Definition recorder (ErlClient : Type) (answer : bool) : CongestionManager ErlClient (list (cm_call ErlClient)) :=
  {| cmConsumed c t log := log ++ [CallConsumed c t];
     cmServed t log := log ++ [CallServed t];
     cmShouldDrop c log := (answer, log ++ [CallShouldDrop c]) |}.

(** What a call does: it returns, it panics, or (first admission only) it
    blocks in [q.blockingConsume()]; [q] is [None] for the nil channel. *)
Inductive outcome (A : Type) :=
  | Returns (a : A)
  | Panics
  | Blocks (q : option qref).
Arguments Returns {A} a.
Arguments Panics {A}.
Arguments Blocks {A} q.

Section Model.
Context {ErlClient : Type} {ErlClient_eq : EqDecision ErlClient} {ErlClient_countable : Countable ErlClient}.
Context {CM : Type} {CM_impl : CongestionManager ErlClient CM}.

(** ** The limiter *)

(** [clientLock] is left out: what is done under it is done in one step
    of the model. *)
Record ElasticRateLimiter := Erl {
  MaxCapacity : Z;
  CapacityPerReservation : Z;
  sharedCapacity : qref;
  capacityByClient : gmap ErlClient qref;
  noCapacityCounter : Counter;
  cm : option CM;
  enableCM : bool;
  congestionControlCounter : Counter;
}.

(** The limiter together with what it shares with its environment: the
    heap of channels, the transfer goroutines, the [OnClose] callbacks
    registered with clients, the guards handed out and not yet released, and
    the callers waiting in [q.blockingConsume()] on their first admission. *)
Record state := State {
  erl : ElasticRateLimiter;
  chans : heap;
  routines : list transfer;
  closers : list ErlClient;
  held : list ErlCapacityGuard;
  parked : list qref;
}.

Definition set_capacityByClient (m : gmap ErlClient qref) (e : ElasticRateLimiter) : ElasticRateLimiter :=
  Erl (MaxCapacity e) (CapacityPerReservation e) (sharedCapacity e) m
      (noCapacityCounter e) (cm e) (enableCM e) (congestionControlCounter e).
Definition set_noCapacityCounter (k : Counter) (e : ElasticRateLimiter) : ElasticRateLimiter :=
  Erl (MaxCapacity e) (CapacityPerReservation e) (sharedCapacity e) (capacityByClient e)
      k (cm e) (enableCM e) (congestionControlCounter e).
Definition set_cm (m : option CM) (e : ElasticRateLimiter) : ElasticRateLimiter :=
  Erl (MaxCapacity e) (CapacityPerReservation e) (sharedCapacity e) (capacityByClient e)
      (noCapacityCounter e) m (enableCM e) (congestionControlCounter e).
Definition set_enableCM (b : bool) (e : ElasticRateLimiter) : ElasticRateLimiter :=
  Erl (MaxCapacity e) (CapacityPerReservation e) (sharedCapacity e) (capacityByClient e)
      (noCapacityCounter e) (cm e) b (congestionControlCounter e).
Definition set_congestionControlCounter (k : Counter) (e : ElasticRateLimiter) : ElasticRateLimiter :=
  Erl (MaxCapacity e) (CapacityPerReservation e) (sharedCapacity e) (capacityByClient e)
      (noCapacityCounter e) (cm e) (enableCM e) k.

Definition set_erl (e : ElasticRateLimiter) (s : state) : state :=
  State e (chans s) (routines s) (closers s) (held s) (parked s).
Definition set_chans (h : heap) (s : state) : state :=
  State (erl s) h (routines s) (closers s) (held s) (parked s).
Definition set_routines (r : list transfer) (s : state) : state :=
  State (erl s) (chans s) r (closers s) (held s) (parked s).
Definition set_closers (l : list ErlClient) (s : state) : state :=
  State (erl s) (chans s) (routines s) l (held s) (parked s).
Definition set_held (l : list ErlCapacityGuard) (s : state) : state :=
  State (erl s) (chans s) (routines s) (closers s) l (parked s).
Definition set_parked (l : list qref) (s : state) : state :=
  State (erl s) (chans s) (routines s) (closers s) (held s) l.

(** [ErlCapacityGuard.Release]. *)
Definition Release (g : ErlCapacityGuard) (h : heap) : option erl_error * heap :=
  match cq g ≫= λ q, try_send q h with
  | Some h' => (None, h')
  | None => (Some (ErrCouldNotReplace (cq g)), h)
  end.

(** [ErlCapacityGuard.Served]: dereferencing the nil [cm] pointer of the
    zero guard panics. *)
Definition Served (g : ErlCapacityGuard) (now : Time) (e : ElasticRateLimiter) : option ElasticRateLimiter :=
  if gcm g then Some (set_cm (cmServed now <$> cm e) e) else None.

(** [capacityQueue.consume]; the guard's [cm] pointer is the argument,
    [&erl.cm] at every call site. *)
Definition consume (q : qref) (h : heap) : (ErlCapacityGuard * option erl_error) * heap :=
  match try_recv q h with
  | Some h' => ((Guard (Some q) true, None), h')
  | None => ((zero_guard, Some (ErrCouldNotConsume q)), h)
  end.

(** The filling loop of [NewElasticRateLimiter]. *)
Fixpoint fill (n : nat) (q : qref) (h : heap) : option heap :=
  match n with
  | O => Some h
  | S n' => h' ← blockingRelease q h; fill n' q h'
  end.

(** [NewElasticRateLimiter]; [None] when [make] panics. *)
Definition NewElasticRateLimiter (maxCapacity reservedCapacity : Z) (m : option CM)
    (nocapCount conmanCount : Counter) : option state :=
  '(q, h) ← make_chan maxCapacity [];
  h' ← fill (Z.to_nat maxCapacity) q h;
  Some (State (Erl maxCapacity reservedCapacity q ∅ nocapCount m false conmanCount)
              h' [] [] [] []).

Definition EnableCongestionControl (s : state) : state :=
  set_erl (set_enableCM true (erl s)) s.
Definition DisableCongestionControl (s : state) : state :=
  set_erl (set_enableCM false (erl s)) s.

(** [openReservation]: the map entry is made under the lock, then the
    goroutine that moves [CapacityPerReservation] tokens from the shared
    channel into the new one is started. *)
Definition openReservation (c : ErlClient) (s : state) : outcome (option qref * option erl_error) * state :=
  let e := erl s in
  match capacityByClient e !! c with
  | Some _ => (Returns (None, Some ErrAlreadyReserved), s)
  | None =>
    let remaining :=
      wrap_int (MaxCapacity e - wrap_int (CapacityPerReservation e * Z.of_nat (size (capacityByClient e)))) in
    if remaining <? CapacityPerReservation e then
      (Returns (None, Some (ErrNotEnoughCapacity remaining (CapacityPerReservation e))), s)
    else
      match make_chan (CapacityPerReservation e) (chans s) with
      | None => (Panics, s)
      | Some (q, h) =>
        (Returns (Some q, None),
         set_routines (routines s ++ [Transfer (sharedCapacity e) q (CapacityPerReservation e) 0 false])
           (set_chans h (set_erl (set_capacityByClient (<[c := q]> (capacityByClient e)) e) s)))
      end
  end.

(** [closeReservation]. *)
Definition closeReservation (c : ErlClient) (s : state) : state :=
  let e := erl s in
  match capacityByClient e !! c with
  | None => s
  | Some q =>
    if decide (q = sharedCapacity e) then s
    else
      set_routines (routines s ++ [Transfer q (sharedCapacity e) (CapacityPerReservation e) 0 false])
        (set_erl (set_capacityByClient (delete c (capacityByClient e)) e) s)
  end.

(** [if erl.cm != nil { erl.cm.Consumed(c, time.Now()) }]. *)
Definition notifyConsumed (c : ErlClient) (now : Time) (e : ElasticRateLimiter) : ElasticRateLimiter :=
  set_cm (cmConsumed c now <$> cm e) e.

(** [erl.cm != nil && enableCM && erl.cm.ShouldDrop(c)], evaluated left to
    right: the manager is asked only when attached and enabled. *)
Definition gate (c : ErlClient) (enable : bool) (e : ElasticRateLimiter) : bool * ElasticRateLimiter :=
  match cm e with
  | Some m =>
    if enable then let '(d, m') := cmShouldDrop c m in (d, set_cm (Some m') e)
    else (false, e)
  | None => (false, e)
  end.

(** [ConsumeCapacity], up to the point where a first admission waits in
    [q.blockingConsume()]; [now] is what [time.Now()] returns. *)
Definition ConsumeCapacity (c : ErlClient) (now : Time) (s : state) : outcome (ErlCapacityGuard * option erl_error) * state :=
  let enable := enableCM (erl s) in
  match capacityByClient (erl s) !! c with
  | None =>
    (* Step 0 *)
    match openReservation c s with
    | (Returns (_, Some err), s1) => (Returns (zero_guard, Some err), s1)
    | (Returns (q, None), s1) => (Blocks q, set_closers (closers s1 ++ [c]) s1)
    | (Panics, s1) => (Panics, s1)
    | (Blocks q, s1) => (Blocks q, s1)
    end
  | Some q =>
    (* Step 1 *)
    match consume q (chans s) with
    | ((cg, None), h) => (Returns (cg, None), set_chans h (set_erl (notifyConsumed c now (erl s)) s))
    | ((_, Some _), _) =>
      (* Step 2 *)
      let '(drop, e1) := gate c enable (erl s) in
      if drop then
        (Returns (zero_guard, Some ErrCongestion),
         set_erl (set_congestionControlCounter (Inc (congestionControlCounter e1)) e1) s)
      else
        (* Step 3 *)
        match consume (sharedCapacity e1) (chans s) with
        | ((_, Some err), _) =>
          (Returns (zero_guard, Some err),
           set_erl (set_noCapacityCounter (Inc (noCapacityCounter e1)) e1) s)
        | ((cg, None), h) => (Returns (cg, None), set_chans h (set_erl (notifyConsumed c now e1) s))
        end
    end
  end.

(** The rest of a first admission, once [q.blockingConsume()] has received
    a token: [return ErlCapacityGuard{cq: q, cm: &erl.cm}, nil].  The
    [fmt.Println(len(q))] before it only prints. *)
Definition ConsumeCapacity_wake (q : option qref) (s : state) : option (ErlCapacityGuard * state) :=
  q' ← q;
  h ← blockingConsume q' (chans s);
  Some (Guard (Some q') true, set_chans h s).

(** ** Interleavings *)

(** What can happen next: a call by a client of the limiter, a waiting
    first admission receiving its token, a guard being used, or a transfer
    goroutine performing its next channel operation.  A guard is released
    once: a release that succeeds takes it from [held]. *)
Inductive label :=
  | DoConsume (c : ErlClient) (now : Time)
      (* ConsumeCapacity(c), up to its return or to where it waits *)
  | DoWake (k : nat)
      (* the k-th waiting first admission receives its token *)
  | DoRelease (k : nat)
      (* Release() of the k-th guard held *)
  | DoServed (k : nat) (now : Time)
      (* Served() of the k-th guard held *)
  | DoOpen (c : ErlClient)
      (* openReservation(c) *)
  | DoClose (c : ErlClient)
      (* closeReservation(c), called as such or as the client's callback *)
  | DoEnable
  | DoDisable
  | DoTransfer (k : nat).
      (* the next channel operation of the k-th goroutine *)

(** [None]: the step is not possible now (a blocked receiver or sender, no
    such guard or goroutine) or the program has panicked. *)
Definition step (l : label) (s : state) : option state :=
  match l with
  | DoConsume c now =>
    match ConsumeCapacity c now s with
    | (Returns (g, None), s') => Some (set_held (held s' ++ [g]) s')
    | (Returns (_, Some _), s') => Some s'
    | (Blocks q, s') => Some (set_parked (parked s' ++ from_option (λ q', [q']) [] q) s')
    | (Panics, _) => None
    end
  | DoWake k =>
    q ← parked s !! k;
    '(g, s') ← ConsumeCapacity_wake (Some q) s;
    Some (set_held (held s' ++ [g]) (set_parked (delete k (parked s')) s'))
  | DoRelease k =>
    g ← held s !! k;
    match Release g (chans s) with
    | (None, h) => Some (set_chans h (set_held (delete k (held s)) s))
    | (Some _, _) => Some s
    end
  | DoServed k now =>
    g ← held s !! k;
    e ← Served g now (erl s);
    Some (set_erl e s)
  | DoOpen c =>
    match openReservation c s with
    | (Returns _, s') => Some s'
    | _ => None
    end
  | DoClose c => Some (closeReservation c s)
  | DoEnable => Some (EnableCongestionControl s)
  | DoDisable => Some (DisableCongestionControl s)
  | DoTransfer k =>
    t ← routines s !! k;
    '(t', h) ← transfer_step t (chans s);
    Some (set_routines (<[k := t']> (routines s)) (set_chans h s))
  end.

Fixpoint exec (ls : list label) (s : state) : option state :=
  match ls with
  | [] => Some s
  | l :: ls' => s' ← step l s; exec ls' s'
  end.

(** ** Calls that overlap *)

(** [ConsumeCapacity] holds the lock only while it reads the map; other
    goroutines run between that read and each of its later steps.  A call
    in progress is the step it is about to take, with its variables. *)
Inductive call :=
  | AtStep0 (c : ErlClient)
  | AtStep1 (c : ErlClient) (q : qref) (enable : bool)
  | AtStep2 (c : ErlClient) (enable : bool)
  | AtStep3 (c : ErlClient).

(** The read of the map and of [enableCM] under the read lock. *)
Definition enter (c : ErlClient) (s : state) : call :=
  match capacityByClient (erl s) !! c with
  | None => AtStep0 c
  | Some q => AtStep1 c q (enableCM (erl s))
  end.

Inductive advanced :=
  | Ends (o : outcome (ErlCapacityGuard * option erl_error)) (s : state)
  | Goes (cl : call) (s : state).

(** One step of a call: Step 0 with [openReservation] and the
    registration of the callback, Step 1 with the take from the
    reservation, Step 2 with the question to the congestion manager,
    Step 3 with the take from the shared channel. *)
Definition advance (cl : call) (now : Time) (s : state) : advanced :=
  match cl with
  | AtStep0 c =>
    match openReservation c s with
    | (Returns (_, Some err), s1) => Ends (Returns (zero_guard, Some err)) s1
    | (Returns (q, None), s1) => Ends (Blocks q) (set_closers (closers s1 ++ [c]) s1)
    | (Panics, s1) => Ends Panics s1
    | (Blocks q, s1) => Ends (Blocks q) s1
    end
  | AtStep1 c q enable =>
    match consume q (chans s) with
    | ((cg, None), h) =>
      Ends (Returns (cg, None)) (set_chans h (set_erl (notifyConsumed c now (erl s)) s))
    | ((_, Some _), _) => Goes (AtStep2 c enable) s
    end
  | AtStep2 c enable =>
    let '(drop, e1) := gate c enable (erl s) in
    if drop then
      Ends (Returns (zero_guard, Some ErrCongestion))
           (set_erl (set_congestionControlCounter (Inc (congestionControlCounter e1)) e1) s)
    else Goes (AtStep3 c) (set_erl e1 s)
  | AtStep3 c =>
    match consume (sharedCapacity (erl s)) (chans s) with
    | ((_, Some err), _) =>
      Ends (Returns (zero_guard, Some err))
           (set_erl (set_noCapacityCounter (Inc (noCapacityCounter (erl s))) (erl s)) s)
    | ((cg, None), h) =>
      Ends (Returns (cg, None)) (set_chans h (set_erl (notifyConsumed c now (erl s)) s))
    end
  end.

(** A call run to its end with nothing in between. *)
Fixpoint complete (n : nat) (cl : call) (now : Time) (s : state)
    : option (outcome (ErlCapacityGuard * option erl_error) * state) :=
  match advance cl now s with
  | Ends o s' => Some (o, s')
  | Goes cl' s' =>
    match n with
    | O => None
    | S n' => complete n' cl' now s'
    end
  end.

(** The limiter with the calls in progress.  Besides the steps of [label],
    a client enters [ConsumeCapacity], or the [k]-th call in progress takes
    its next step. *)
Inductive event :=
  | Atomic (l : label)
  | Enter (c : ErlClient)
  | Advance (k : nat) (now : Time).

Definition react (ev : event) (sc : state * list call) : option (state * list call) :=
  let '(s, calls) := sc in
  match ev with
  | Atomic l => s' ← step l s; Some (s', calls)
  | Enter c => Some (s, calls ++ [enter c s])
  | Advance k now =>
    cl ← calls !! k;
    match advance cl now s with
    | Goes cl' s' => Some (s', <[k := cl']> calls)
    | Ends (Returns (g, None)) s' => Some (set_held (held s' ++ [g]) s', delete k calls)
    | Ends (Returns (_, Some _)) s' => Some (s', delete k calls)
    | Ends (Blocks q) s' =>
      Some (set_parked (parked s' ++ from_option (λ q', [q']) [] q) s', delete k calls)
    | Ends Panics _ => None
    end
  end.

Fixpoint history (evs : list event) (sc : state * list call) : option (state * list call) :=
  match evs with
  | [] => Some sc
  | ev :: evs' => sc' ← react ev sc; history evs' sc'
  end.

(** No transfer goroutine can move: each has finished or waits for a
    token. *)
Definition quiesced (s : state) : Prop :=
  Forall (λ t, transfer_step t (chans s) = None) (routines s).

Definition shared_tokens (s : state) : Z := tokens (sharedCapacity (erl s)) (chans s).

(** Tokens in the reservations of the map. *)
Definition reservation_tokens (s : state) : Z :=
  map_fold (λ _ q acc, tokens q (chans s) + acc) 0 (capacityByClient (erl s)).

(** Guards handed out and not yet released. *)
Definition outstanding (s : state) : Z := Z.of_nat (length (held s)).

(** ** The RED congestion manager *)

(** [float64] is IEEE 754 binary64. *)
Definition float64 : Type := spec_float.
Definition f64_zero : float64 := S754_zero false.
Definition f64_div : float64 → float64 → float64 := SFdiv 53 1024.
Definition f64_eqb : float64 → float64 → bool := SFeqb.
Definition f64_ltb : float64 → float64 → bool := SFltb.
(** The conversion [float64(n)] of an integer, rounding to nearest even. *)
Definition f64_of_int (n : Z) : float64 := binary_normalize 53 1024 n 0 false.

(** [time.Second], in nanoseconds. *)
Definition Second : Z := 1000000000.

(** [math/rand]'s generator and [math.Pow] belong to Go's library. *)
Context {rng : Type} (Float64 : rng → float64 * rng).
Context (Pow : float64 → float64 → float64).

(** The three channels are made with room for 100000 elements.  An [event]
    on [consumed] is its client and time, one on [served] its time (its
    client is never set); a pending [shouldDropQuery] is its client, and
    its reply channel is the answer the loop gives. *)
Record redCongestionManager := Red {
  running : bool;
  window : Z;
  consumed : list (ErlClient * Time);
  served : list Time;
  shouldDropQueries : list ErlClient;
  targetRate : float64;
  targetRateRefreshTicks : Z;
  exp : float64;
  consumedByClient : gmap ErlClient (list Time);
  serves : list Time;
}.

Definition chan_room : Z := 100000.

Definition NewREDCongestionManager (d : Z) (r : Z) : redCongestionManager :=
  Red false d [] [] [] f64_zero r (f64_of_int 4) ∅ [].

(** The [for i, t := range *ts] loop of [prune]: the index of the first
    timestamp after the cutoff. *)
Fixpoint first_after (l : list Time) (cutoff : Time) (i : nat) : option nat :=
  match l with
  | [] => None
  | t :: l' => if After t cutoff then Some i else first_after l' cutoff (S i)
  end.

(** [prune]: the slice the pointer refers to afterwards ([None] for a nil
    pointer) and the returned length. *)
Definition prune (ts : option (list Time)) (cutoff : Time) : option (list Time) * Z :=
  match ts with
  | None => (None, 0)
  | Some l =>
    match first_after l cutoff 0 with
    | Some i => (Some (drop i l), Z.of_nat (length (drop i l)))
    | None => (Some (take 0 l), 0)
    end
  end.

Definition arrivalRateFor (cm : redCongestionManager) (arrivals : option (list Time)) : float64 :=
  match arrivals with
  | Some l => f64_div (f64_of_int (Z.of_nat (length l))) (f64_of_int (window cm ÷ Second))
  | None => f64_zero
  end.

Definition shouldDrop (cm : redCongestionManager) (targetRate : float64) (c : ErlClient)
    (arrivals : option (list Time)) (g : rng) : bool * rng :=
  let clientArrivalRate := arrivalRateFor cm arrivals in
  if f64_eqb clientArrivalRate f64_zero then (false, g)
  else
    let '(r, g') := Float64 g in
    (f64_ltb r (f64_div (Pow clientArrivalRate (exp cm)) (Pow targetRate (exp cm))), g').

(** [Consumed] and [Served] of the manager: a send that is dropped when
    the channel is full. *)
Definition redConsumed (c : ErlClient) (t : Time) (cm : redCongestionManager) : redCongestionManager :=
  if Z.of_nat (length (consumed cm)) <? chan_room then
    Red (running cm) (window cm) (consumed cm ++ [(c, t)]) (served cm) (shouldDropQueries cm)
        (targetRate cm) (targetRateRefreshTicks cm) (exp cm) (consumedByClient cm) (serves cm)
  else cm.

Definition redServed (t : Time) (cm : redCongestionManager) : redCongestionManager :=
  if Z.of_nat (length (served cm)) <? chan_room then
    Red (running cm) (window cm) (consumed cm) (served cm ++ [t]) (shouldDropQueries cm)
        (targetRate cm) (targetRateRefreshTicks cm) (exp cm) (consumedByClient cm) (serves cm)
  else cm.

(** [ShouldDrop] of the manager: the query is sent and the caller waits for
    the reply of the loop ([None]); with the channel full the answer is
    false at once. *)
Definition redShouldDrop (c : ErlClient) (cm : redCongestionManager) : option bool * redCongestionManager :=
  if Z.of_nat (length (shouldDropQueries cm)) <? chan_room then
    (None,
     Red (running cm) (window cm) (consumed cm) (served cm) (shouldDropQueries cm ++ [c])
         (targetRate cm) (targetRateRefreshTicks cm) (exp cm) (consumedByClient cm) (serves cm))
  else (Some false, cm).

(** [Start]: the loop is started unless it runs already. *)
Definition redStart (cm : redCongestionManager) : redCongestionManager :=
  if running cm then cm
  else Red true (window cm) (consumed cm) (served cm) (shouldDropQueries cm)
           (targetRate cm) (targetRateRefreshTicks cm) (exp cm) (consumedByClient cm) (serves cm).

(** The variables of [run]. *)
Record locals := Locals {
  tick : Z;
  l_targetRate : float64;
  l_consumedByClient : gmap ErlClient (list Time);
  l_serves : list Time;
  exit : bool;
}.

(** The case of the [select] that fires. *)
Inductive ready :=
  | RecvConsumed
  | RecvServed
  | RecvQuery
  | RecvDone.

(** [time.Now().Add(-1 * cm.window)]. *)
Definition cutoff_at (cm : redCongestionManager) (now : Time) : Time :=
  now + wrap_int (-1 * window cm).

(** The [for c := range consumedByClient] loop: every key of the map is
    visited once, its list pruned in place, and the key deleted when
    nothing is left. *)
Definition prune_clients (cutoff : Time) (m : gmap ErlClient (list Time)) : gmap ErlClient (list Time) :=
  map_fold (λ c _ acc,
    let '(ts, n) := prune (acc !! c) cutoff in
    if n =? 0 then delete c acc
    else match ts with Some l => <[c := l]> acc | None => acc end) m m.

(** The block under [if tick == 0 || exit]. *)
Definition recompute (cm : redCongestionManager) (now : Time) (l : locals) : locals :=
  let cutoff := cutoff_at cm now in
  let serves1 := default [] (prune (Some (l_serves l)) cutoff).1 in
  let clients1 := prune_clients cutoff (l_consumedByClient l) in
  let targetRate1 :=
    if 0 <? Z.of_nat (size clients1) then
      let serviceRate := f64_div (f64_of_int (Z.of_nat (length serves1))) (f64_of_int (window cm ÷ Second)) in
      f64_div serviceRate (f64_of_int (Z.of_nat (size clients1)))
    else f64_zero in
  Locals (tick l) targetRate1 clients1 serves1 (exit l).

(** The [select] of one iteration: the manager with the received element
    taken off its channel, the variables, and the reply to a query.
    [None]: the chosen case is not ready. *)
Definition receive (cm : redCongestionManager) (r : ready) (now : Time) (l : locals) (g : rng)
    : option (redCongestionManager * locals * option bool * rng) :=
  match r with
  | RecvConsumed =>
    match consumed cm with
    | (c, t) :: rest =>
      Some (Red (running cm) (window cm) rest (served cm) (shouldDropQueries cm)
                (targetRate cm) (targetRateRefreshTicks cm) (exp cm) (consumedByClient cm) (serves cm),
            Locals (tick l) (l_targetRate l)
                   (<[c := default [] (l_consumedByClient l !! c) ++ [t]]> (l_consumedByClient l))
                   (l_serves l) (exit l),
            None, g)
    | [] => None
    end
  | RecvServed =>
    match served cm with
    | t :: rest =>
      Some (Red (running cm) (window cm) (consumed cm) rest (shouldDropQueries cm)
                (targetRate cm) (targetRateRefreshTicks cm) (exp cm) (consumedByClient cm) (serves cm),
            Locals (tick l) (l_targetRate l) (l_consumedByClient l) (l_serves l ++ [t]) (exit l),
            None, g)
    | [] => None
    end
  | RecvQuery =>
    match shouldDropQueries cm with
    | c :: rest =>
      let m := l_consumedByClient l in
      let m1 := match (prune (m !! c) (cutoff_at cm now)).1 with Some ts => <[c := ts]> m | None => m end in
      let '(d, g') := shouldDrop cm (l_targetRate l) c (m1 !! c) g in
      Some (Red (running cm) (window cm) (consumed cm) (served cm) rest
                (targetRate cm) (targetRateRefreshTicks cm) (exp cm) (consumedByClient cm) (serves cm),
            Locals (tick l) (l_targetRate l) m1 (l_serves l) (exit l),
            Some d, g')
    | [] => None
    end
  | RecvDone => Some (cm, Locals (tick l) (l_targetRate l) (l_consumedByClient l) (l_serves l) true, None, g)
  end.

(** One iteration of the loop of [run]; [now] and [now'] are the two
    readings of the clock.  [None]: the case is not ready, or
    [% cm.targetRateRefreshTicks] divides by zero.  When [exit] is set in
    the result the variables have been stored in the manager, [running] is
    false and [run] has returned. *)
Definition run_iteration (cm : redCongestionManager) (r : ready) (now now' : Time) (l : locals) (g : rng)
    : option (redCongestionManager * locals * option bool * rng) :=
  '(cm1, l1, reply, g1) ← receive cm r now l g;
  if targetRateRefreshTicks cm =? 0 then None
  else
    let tick1 := Z.rem (wrap_int (tick l1 + 1)) (targetRateRefreshTicks cm) in
    let l2 := Locals tick1 (l_targetRate l1) (l_consumedByClient l1) (l_serves l1) (exit l1) in
    let l3 := if (tick1 =? 0) || exit l2 then recompute cm now' l2 else l2 in
    if exit l3 then
      Some (Red false (window cm1) (consumed cm1) (served cm1) (shouldDropQueries cm1)
                (l_targetRate l3) (targetRateRefreshTicks cm1) (exp cm1) (l_consumedByClient l3) (l_serves l3),
            l3, reply, g1)
    else Some (cm1, l3, reply, g1).

(** The variables [run] starts with. *)
Definition run_start : locals := Locals 0 f64_zero ∅ [] false.

(** ** Notions of the proofs *)

(** A transfer goroutine runs between the shared channel (the first one
    made) and a reservation, in one direction, and has moved at most [R]
    tokens. *)
Definition wf_transfer (R : Z) (n : nat) (t : transfer) : Prop :=
  t_n t = R ∧ 0 <= t_i t <= R ∧ (t_carry t = true → t_i t < R) ∧
  ((t_from t = 0%nat ∧ (0 < t_to t < n)%nat) ∨ (t_to t = 0%nat ∧ (0 < t_from t < n)%nat)).

(** The invariant, of the map [m], the channels [h], the goroutines [r]
    and the guards held [g]: the shape of the heap, the map as an injection
    into the reservations, the bound on reservations, the total of tokens,
    the balance of every reservation between what its goroutines put in
    and took out, one opening goroutine per reservation, and a closing one
    for every reservation that has left the map. *)
Record InvC (M R : Z) (m : gmap ErlClient qref) (h : heap)
    (r : list transfer) (g : list ErlCapacityGuard) : Prop := {
  ic_shared : ∃ n, h !! 0%nat = Some (Chan M n);
  ic_chan : ∀ q c, h !! q = Some c → 0 <= qlen c <= qcap c ∧ (q ≠ 0%nat → qcap c = R);
  ic_map : ∀ c q, m !! c = Some q → (0 < q < length h)%nat;
  ic_inj : ∀ c1 c2 q, m !! c1 = Some q → m !! c2 = Some q → c1 = c2;
  ic_size : R * Z.of_nat (size m) <= M;
  ic_routines : ∀ t, t ∈ r → wf_transfer R (length h) t;
  ic_held : ∀ x, x ∈ g → ∃ q, cq x = Some q ∧ (q < length h)%nat;
  ic_total : heap_tokens h + Z.of_nat (length g) + carried r = M;
  ic_balance : ∀ q, (0 < q < length h)%nat →
    tokens q h + guards_on q g + outof q r = into q r;
  ic_opener : ∀ q, (0 < q)%nat → openers q r <= 1;
  ic_closed : ∀ q, (0 < q < length h)%nat →
    (∃ c, m !! c = Some q) ∨ (∃ t, t ∈ r ∧ t_from t = q);
}.

Definition Inv (M R : Z) (s : state) : Prop :=
  MaxCapacity (erl s) = M ∧ CapacityPerReservation (erl s) = R ∧
  sharedCapacity (erl s) = 0%nat ∧ is_int M ∧ is_int R ∧
  InvC M R (capacityByClient (erl s)) (chans s) (routines s) (held s).

(** Half-steps a goroutine has made: two for every token moved, one more
    while it carries a token. *)
Definition progress (r : list transfer) : Z :=
  sumZ (λ t, 2 * t_i t + (if t_carry t then 1 else 0)) r.

Definition ends (t : transfer) : qref * qref * Z := (t_from t, t_to t, t_n t).

(** What [prune] keeps: the list from its first timestamp after the cutoff
    on. *)
Fixpoint kept (l : list Time) (cutoff : Time) : list Time :=
  match l with
  | [] => []
  | t :: l' => if After t cutoff then t :: l' else kept l' cutoff
  end.

Definition f64_one : float64 := f64_of_int 1.
Definition f64_leb : float64 → float64 → bool := SFleb.

(** What the loop over the clients leaves of one list: nothing when
    pruning empties it. *)
Definition prune_entry (cutoff : Time) (ts : list Time) : option (list Time) :=
  match kept ts cutoff with
  | [] => None
  | l => Some l
  end.

(** What is known of a call in progress while congestion control has never
    been switched on: the flag it read is off. *)
Definition read_off (cl : call) : Prop :=
  match cl with
  | AtStep1 _ _ enable | AtStep2 _ enable => enable = false
  | _ => True
  end.

End Model.

(** * Signed transactions *)

(** [SignedTxn]: [Sig] is an array of bytes, a byte being a number below
    256; [rest] stands for the other fields. *)
Record SignedTxn (A : Type) := Stxn { Sig : list Z; rest : A }.
Arguments Stxn {A} Sig rest.
Arguments Sig {A} s.
Arguments rest {A} s.

(** [MessUpSigForTesting]: [stxn.Sig[0] ^= 1]; [None] when there is no
    byte to index. *)
Definition MessUpSigForTesting {A : Type} (stxn : SignedTxn A) : option (SignedTxn A) :=
  match Sig stxn with
  | [] => None
  | b :: bs => Some (Stxn (Z.lxor b 1 :: bs) (rest stxn))
  end.

(** * Concrete inputs *)

(** Clients are numbered; the congestion manager is the recorder, whose
    [ShouldDrop] answers false.  The limiter has four tokens and
    reservations of two. *)
Definition demo_manager : CongestionManager nat (list (cm_call nat)) := recorder nat false.

Definition demo_erl (m : gmap nat nat) (log : option (list (cm_call nat))) : ElasticRateLimiter :=
  Erl 4 2 0%nat m (Some 0%nat) log false (Some 0%nat).

Definition demo_s0 : state :=
  State (demo_erl ∅ (Some [])) [Chan 4 4] [] [] [] [].

(** Client 7 is admitted for the first time and its reservation fills;
    two more calls of the client overlap, one takes the second token of
    the reservation and the other one from the shared channel; the first
    guard is released. *)
Definition demo_events : list (event (ErlClient := nat)) :=
  [Enter 7%nat; Advance 0 100;
   Atomic (DoTransfer 0); Atomic (DoTransfer 0); Atomic (DoWake 0);
   Atomic (DoTransfer 0); Atomic (DoTransfer 0);
   Enter 7%nat; Enter 7%nat; Advance 0 101; Advance 0 102; Advance 0 102; Advance 0 102;
   Atomic (DoRelease 0)].

Definition demo_s1 : state :=
  State (demo_erl {[7%nat := 1%nat]} (Some [CallConsumed 7%nat 101; CallConsumed 7%nat 102]))
        [Chan 4 1; Chan 2 1]
        [Transfer 0 1 2 2 false] [7%nat]
        [Guard (Some 1%nat) true; Guard (Some 0%nat) true] [].

(** A second client is admitted: both reservations are taken, and a third
    cannot be opened. *)
Definition demo_s2 : state :=
  State (demo_erl {[7%nat := 1%nat; 8%nat := 2%nat]}
           (Some [CallConsumed 7%nat 101; CallConsumed 7%nat 102]))
        [Chan 4 1; Chan 2 1; Chan 2 0]
        [Transfer 0 1 2 2 false; Transfer 0 2 2 0 false] [7%nat; 8%nat]
        [Guard (Some 1%nat) true; Guard (Some 0%nat) true] [2%nat].

(** Client 7 holds a full reservation and no congestion manager is
    attached. *)
Definition demo_reserved : state :=
  State (demo_erl {[7%nat := 1%nat]} None) [Chan 4 0; Chan 2 2]
        [Transfer 0 1 2 2 false] [7%nat] [Guard (Some 0%nat) true; Guard (Some 0%nat) true] [].

(** Client 7 has used up its reservation; congestion control is enabled
    and the manager does not drop. *)
Definition demo_gated (shared : Z) : state (ErlClient := nat) (CM := list (cm_call nat)) :=
  State (Erl 4 2 0%nat {[7%nat := 1%nat]} (Some 0%nat) (Some []) true (Some 0%nat))
        [Chan 4 shared; Chan 2 0] [Transfer 0 1 2 2 false] [7%nat] [] [].

Definition demo_asked : ElasticRateLimiter (ErlClient := nat) (CM := list (cm_call nat)) :=
  Erl 4 2 0%nat {[7%nat := 1%nat]} (Some 0%nat) (Some [CallShouldDrop 7%nat]) true (Some 0%nat).

(** The first admission of client 7 on the fresh limiter. *)
Definition demo_opened : state :=
  State (demo_erl {[7%nat := 1%nat]} (Some [])) [Chan 4 4; Chan 2 0]
        [Transfer 0 1 2 0 false] [7%nat] [] [].

(** Open and close on the fresh limiter: the opening goroutine has taken
    one token when the reservation is closed. *)
Definition demo_open1 : state :=
  State (demo_erl {[7%nat := 1%nat]} (Some [])) [Chan 4 4; Chan 2 0]
        [Transfer 0 1 2 0 false] [] [] [].

Definition demo_open2 : state :=
  State (demo_erl {[7%nat := 1%nat]} (Some [])) [Chan 4 3; Chan 2 0]
        [Transfer 0 1 2 0 true] [] [] [].

Definition demo_closed : state :=
  State (demo_erl ∅ (Some [])) [Chan 4 4; Chan 2 0]
        [Transfer 0 1 2 2 false; Transfer 1 0 2 2 false] [] [] [].

(** The congestion manager with a window of ten seconds that recomputes
    its target rate on every iteration.  Random draws are read off a
    list, and the power is the fourth, the only exponent the constructor
    sets. *)
Definition demo_Float64 (g : list float64) : float64 * list float64 := (hd f64_zero g, tl g).

Definition demo_Pow (x y : float64) : float64 :=
  SFmul 53 1024 (SFmul 53 1024 x x) (SFmul 53 1024 x x).

Definition f64_half : float64 := f64_div (f64_of_int 1) (f64_of_int 2).

Definition demo_red : redCongestionManager (ErlClient := nat) :=
  NewREDCongestionManager (10 * Second) 1.

(** One iteration that receives a served event, at 20 s on the clock.
    Client 7 was seen at 15 s and 19 s, client 8 at 3 s; two services were
    completed in the window. *)
Definition demo_running : redCongestionManager (ErlClient := nat) :=
  Red true (10 * Second) [] [19 * Second] [] f64_zero 1 (f64_of_int 4) ∅ [].

Definition demo_locals : locals (ErlClient := nat) :=
  Locals 0 f64_zero {[7%nat := [15 * Second; 19 * Second]; 8%nat := [3 * Second]]}
         [2 * Second; 18 * Second] false.

Definition demo_running' : redCongestionManager (ErlClient := nat) :=
  Red true (10 * Second) [] [] [] f64_zero 1 (f64_of_int 4) ∅ [].

Definition demo_locals' : locals (ErlClient := nat) :=
  Locals 0 (f64_div (f64_of_int 2) (f64_of_int 10))
         {[7%nat := [15 * Second; 19 * Second]]} [18 * Second; 19 * Second] false.

(** The goroutine of client 7's reservation has taken a token from the
    shared channel and not yet put it into the reservation, where the
    client waits. *)
Definition demo_carrying : state :=
  State (demo_erl {[7%nat := 1%nat]} (Some [])) [Chan 4 3; Chan 2 0]
        [Transfer 0 1 2 0 true] [7%nat] [] [1%nat].

(** The limiter with four tokens and reservations of none, new and after
    the first call of client 7. *)
Definition demo_z0 : state (ErlClient := nat) (CM := list (cm_call nat)) :=
  State (Erl 4 0 0%nat ∅ (Some 0%nat) (Some []) false (Some 0%nat)) [Chan 4 4] [] [] [] [].

Definition demo_z1 : state (ErlClient := nat) (CM := list (cm_call nat)) :=
  State (Erl 4 0 0%nat {[7%nat := 1%nat]} (Some 0%nat) (Some []) false (Some 0%nat))
        [Chan 4 4; Chan 0 0] [Transfer 0 1 0 0 false] [7%nat] [] [1%nat].

(** A query of client 9, which the loop has not seen, is pending. *)
Definition demo_querying : redCongestionManager (ErlClient := nat) :=
  Red true (10 * Second) [] [] [9%nat] f64_zero 1 (f64_of_int 4) ∅ [].

(** A manager with a window of half a second. *)
Definition demo_short : redCongestionManager (ErlClient := nat) :=
  NewREDCongestionManager 500000000 1.

(** A signed transaction with a signature of three bytes. *)
Definition demo_stxn : SignedTxn unit := Stxn [254; 7; 9] tt.

Section Facts.
Context {ErlClient : Type} {ErlClient_eq : EqDecision ErlClient} {ErlClient_countable : Countable ErlClient}.
Context {CM : Type} {CM_impl : CongestionManager ErlClient CM}.
Context {rng : Type} (Float64 : rng → float64 * rng).
Context (Pow : float64 → float64 → float64).

(** The facts are about the limiter of these clients and this manager. *)
Local Abbreviation ElasticRateLimiter := (@ElasticRateLimiter ErlClient ErlClient_eq ErlClient_countable CM).
Local Abbreviation state := (@state ErlClient ErlClient_eq ErlClient_countable CM).
Local Abbreviation label := (@label ErlClient).
Local Abbreviation call := (@call ErlClient).
Local Abbreviation event := (@event ErlClient).
Local Abbreviation InvC := (@InvC ErlClient ErlClient_eq ErlClient_countable).
Local Abbreviation redCongestionManager := (@redCongestionManager ErlClient ErlClient_eq ErlClient_countable).
Local Abbreviation locals := (@locals ErlClient ErlClient_eq ErlClient_countable).
Local Abbreviation NewElasticRateLimiter := (@NewElasticRateLimiter ErlClient ErlClient_eq ErlClient_countable CM).
Local Abbreviation shouldDrop := (@shouldDrop ErlClient ErlClient_eq ErlClient_countable rng Float64 Pow).
Local Abbreviation run_iteration := (@run_iteration ErlClient ErlClient_eq ErlClient_countable rng Float64 Pow).
Local Abbreviation receive := (@receive ErlClient ErlClient_eq ErlClient_countable rng Float64 Pow).

(** * Properties *)

(** ** Sums over lists *)

Lemma sumZ_app {A : Type} (f : A → Z) (l1 l2 : list A) :
  sumZ f (l1 ++ l2) = sumZ f l1 + sumZ f l2.
Proof. induction l1 as [|x l1 IH]; simpl; [done | rewrite IH; lia]. Qed.

Lemma sumZ_insert {A : Type} (f : A → Z) (l : list A) (k : nat) (x y : A) :
  l !! k = Some x → sumZ f (<[k := y]> l) = sumZ f l - f x + f y.
Proof.
  revert k. induction l as [|a l IH]; intros [|k] Hk; simplify_eq/=; [lia |].
  rewrite (IH k Hk). lia.
Qed.

Lemma sumZ_delete {A : Type} (f : A → Z) (l : list A) (k : nat) (x : A) :
  l !! k = Some x → sumZ f (delete k l) = sumZ f l - f x.
Proof.
  revert k. induction l as [|a l IH]; intros [|k] Hk; simplify_eq/=; [lia |].
  rewrite (IH k Hk). lia.
Qed.

Lemma sumZ_nonneg {A : Type} (f : A → Z) (l : list A) :
  (∀ x, x ∈ l → 0 <= f x) → 0 <= sumZ f l.
Proof.
  induction l as [|a l IH]; intros Hf; simpl; [lia |].
  pose proof (Hf a (list_elem_of_here _ _)).
  assert (0 <= sumZ f l) by (apply IH; intros; apply Hf; by apply list_elem_of_further).
  lia.
Qed.

Lemma sumZ_elem_le {A : Type} (f : A → Z) (l : list A) (x : A) :
  (∀ y, y ∈ l → 0 <= f y) → x ∈ l → f x <= sumZ f l.
Proof.
  intros Hf Hx. apply list_elem_of_lookup in Hx as [k Hk].
  pose proof (sumZ_delete f l k x Hk) as Hd.
  assert (0 <= sumZ f (delete k l)); [| lia].
  apply sumZ_nonneg. intros y Hy. apply Hf. by eapply list_elem_of_delete_inv.
Qed.

Lemma sumZ_ext {A : Type} (f g : A → Z) (l : list A) :
  (∀ x, x ∈ l → f x = g x) → sumZ f l = sumZ g l.
Proof.
  induction l as [|a l IH]; intros Hfg; simpl; [done |].
  rewrite (Hfg a (list_elem_of_here _ _)), IH; [done |].
  intros; apply Hfg; by apply list_elem_of_further.
Qed.

Lemma sumZ_zero {A : Type} (f : A → Z) (l : list A) :
  (∀ x, x ∈ l → f x = 0) → sumZ f l = 0.
Proof.
  induction l as [|a l IH]; intros Hf; simpl; [done |].
  rewrite (Hf a (list_elem_of_here _ _)), IH; [done |].
  intros; apply Hf; by apply list_elem_of_further.
Qed.

Lemma sumZ_zero_inv {A : Type} (f : A → Z) (l : list A) (x : A) :
  (∀ y, y ∈ l → 0 <= f y) → sumZ f l <= 0 → x ∈ l → f x = 0.
Proof.
  intros Hf Hs Hx. pose proof (sumZ_elem_le f l x Hf Hx). pose proof (Hf x Hx). lia.
Qed.

Lemma elem_of_list_insert_inv {A : Type} (l : list A) (k : nat) (x y : A) :
  y ∈ <[k := x]> l → y = x ∨ y ∈ l.
Proof.
  intros [j Hj]%list_elem_of_lookup. rewrite list_lookup_insert in Hj.
  case_decide; simplify_eq; [by left | right]. by eapply list_elem_of_lookup_2.
Qed.

(** ** Channel operations *)

Lemma try_recv_Some (q : qref) (h h' : heap) :
  try_recv q h = Some h' →
  ∃ c, h !! q = Some c ∧ 0 < qlen c ∧ h' = <[q := Chan (qcap c) (qlen c - 1)]> h.
Proof.
  unfold try_recv. destruct (h !! q) as [c|]; [| done].
  destruct (0 <? qlen c) eqn:E; [| done]. intros [= <-]. exists c. split_and!; [done | lia | done].
Qed.

Lemma try_send_Some (q : qref) (h h' : heap) :
  try_send q h = Some h' →
  ∃ c, h !! q = Some c ∧ qlen c < qcap c ∧ h' = <[q := Chan (qcap c) (qlen c + 1)]> h.
Proof.
  unfold try_send. destruct (h !! q) as [c|]; [| done].
  destruct (qlen c <? qcap c) eqn:E; [| done]. intros [= <-]. exists c. split_and!; [done | lia | done].
Qed.

Lemma try_send_ready (q : qref) (h : heap) (c : chan) :
  h !! q = Some c → qlen c < qcap c → is_Some (try_send q h).
Proof.
  intros Hq Hc. unfold try_send. rewrite Hq.
  destruct (qlen c <? qcap c) eqn:E; [eauto | lia].
Qed.

Lemma try_recv_ready (q : qref) (h : heap) (c : chan) :
  h !! q = Some c → 0 < qlen c → is_Some (try_recv q h).
Proof.
  intros Hq Hc. unfold try_recv. rewrite Hq.
  destruct (0 <? qlen c) eqn:E; [eauto | lia].
Qed.

Lemma tokens_lookup (q : qref) (h : heap) (c : chan) :
  h !! q = Some c → tokens q h = qlen c.
Proof. unfold tokens. by intros ->. Qed.

Lemma tokens_insert (q q' : qref) (h : heap) (c c' : chan) :
  h !! q' = Some c →
  tokens q (<[q' := c']> h) = if decide (q' = q) then qlen c' else tokens q h.
Proof.
  intros Hq'. unfold tokens. rewrite list_lookup_insert.
  apply lookup_lt_Some in Hq'.
  destruct (decide (q' = q)) as [->|Hne].
  - by rewrite decide_True.
  - rewrite decide_False; [done | by intros [? ?]].
Qed.

Lemma tokens_snoc (q : qref) (h : heap) (c : chan) :
  (q < length h)%nat → tokens q (h ++ [c]) = tokens q h.
Proof. intros Hq. unfold tokens. by rewrite lookup_app_l. Qed.

Lemma tokens_snoc_new (h : heap) (c : chan) : tokens (length h) (h ++ [c]) = qlen c.
Proof. unfold tokens. by rewrite list_lookup_middle. Qed.

Lemma heap_tokens_insert (q : qref) (h : heap) (c c' : chan) :
  h !! q = Some c → heap_tokens (<[q := c']> h) = heap_tokens h - qlen c + qlen c'.
Proof. apply sumZ_insert. Qed.

Lemma fill_spec (n : nat) (M k : Z) :
  k + Z.of_nat n <= M → fill n 0%nat [Chan M k] = Some [Chan M (k + Z.of_nat n)].
Proof.
  revert k. induction n as [|n IH]; intros k Hk; simpl.
  - do 3 f_equal. lia.
  - unfold blockingRelease, try_send. simpl.
    destruct (k <? M) eqn:E; [| lia]. simpl. rewrite IH by lia. do 3 f_equal. lia.
Qed.

(** ** The invariant of the limiter *)

Lemma InvC_init (M R : Z) : 0 <= M → InvC M R ∅ [Chan M M] [] [].
Proof.
  intros HM. split; simpl.
  - eauto.
  - intros [|[|q]] c Hc; simplify_eq/=. split; [lia | done].
  - intros c q Hc. by rewrite lookup_empty in Hc.
  - intros c1 c2 q Hc. by rewrite lookup_empty in Hc.
  - rewrite map_size_empty. lia.
  - intros t Ht. by apply elem_of_nil in Ht.
  - intros x Hx. by apply elem_of_nil in Hx.
  - unfold heap_tokens, carried. simpl. lia.
  - lia.
  - intros q _. unfold openers. simpl. lia.
  - lia.
Qed.

Lemma InvC_take (M R : Z) (m : gmap ErlClient qref) (h h' : heap) (r : list transfer)
    (g : list ErlCapacityGuard) (q : qref) (b : bool) :
  InvC M R m h r g → try_recv q h = Some h' → InvC M R m h' r (g ++ [Guard (Some q) b]).
Proof.
  intros [Hsh Hch Hmap Hinj Hsz Hrt Hheld Htot Hbal Hop Hcl] (c & Hq & Hpos & ->)%try_recv_Some.
  pose proof (lookup_lt_Some _ _ _ Hq) as Hlt.
  split; rewrite ?length_insert.
  - destruct Hsh as [n Hn]. rewrite list_lookup_insert. case_decide as Hd; [| eauto].
    destruct Hd as [-> _]. rewrite Hq in Hn. injection Hn as ->. simpl. eauto.
  - intros q' c'. rewrite list_lookup_insert. case_decide as Hd; [| apply Hch].
    destruct Hd as [<- _]. intros [= <-]. simpl. destruct (Hch q c Hq). split; [lia | done].
  - done.
  - done.
  - done.
  - done.
  - intros x [Hx | ->%list_elem_of_singleton]%elem_of_app; [auto |]. simpl. eauto.
  - rewrite (heap_tokens_insert _ _ c) by done. rewrite length_app. simpl. lia.
  - intros q' Hq'. rewrite (tokens_insert _ _ _ c) by done.
    unfold guards_on. rewrite sumZ_app. simpl. fold (guards_on q' g).
    specialize (Hbal q' Hq'). case_decide; subst.
    + rewrite decide_True by done. rewrite (tokens_lookup _ _ _ Hq) in Hbal. simpl. lia.
    + rewrite decide_False by congruence. lia.
  - done.
  - done.
Qed.

Lemma InvC_release (M R : Z) (m : gmap ErlClient qref) (h h' : heap) (r : list transfer)
    (g : list ErlCapacityGuard) (k : nat) (x : ErlCapacityGuard) (q : qref) :
  InvC M R m h r g → g !! k = Some x → cq x = Some q → try_send q h = Some h' →
  InvC M R m h' r (delete k g).
Proof.
  intros [Hsh Hch Hmap Hinj Hsz Hrt Hheld Htot Hbal Hop Hcl] Hk Hx (c & Hq & Hroom & ->)%try_send_Some.
  pose proof (lookup_lt_Some _ _ _ Hq) as Hlt.
  split; rewrite ?length_insert.
  - destruct Hsh as [n Hn]. rewrite list_lookup_insert. case_decide as Hd; [| eauto].
    destruct Hd as [-> _]. rewrite Hq in Hn. injection Hn as ->. simpl. eauto.
  - intros q' c'. rewrite list_lookup_insert. case_decide as Hd; [| apply Hch].
    destruct Hd as [<- _]. intros [= <-]. simpl. destruct (Hch q c Hq). split; [lia | done].
  - done.
  - done.
  - done.
  - done.
  - intros y Hy%list_elem_of_delete_inv. auto.
  - rewrite (heap_tokens_insert _ _ c) by done.
    rewrite length_delete by eauto. apply lookup_lt_Some in Hk. simpl. lia.
  - intros q' Hq'. rewrite (tokens_insert _ _ _ c) by done.
    unfold guards_on. rewrite (sumZ_delete _ _ _ _ Hk). fold (guards_on q' g).
    specialize (Hbal q' Hq'). rewrite Hx. case_decide; subst.
    + rewrite decide_True by done. rewrite (tokens_lookup _ _ _ Hq) in Hbal. simpl. lia.
    + rewrite decide_False by congruence. lia.
  - done.
  - done.
Qed.

Lemma InvC_transfer (M R : Z) (m : gmap ErlClient qref) (h h' : heap) (r : list transfer)
    (g : list ErlCapacityGuard) (k : nat) (t t' : transfer) :
  InvC M R m h r g → r !! k = Some t → transfer_step t h = Some (t', h') →
  InvC M R m h' (<[k := t']> r) g.
Proof.
  intros [Hsh Hch Hmap Hinj Hsz Hrt Hheld Htot Hbal Hop Hcl] Hk Hstep.
  pose proof (Hrt t (list_elem_of_lookup_2 _ _ _ Hk)) as (Hn & Hi & Hc & Hends).
  assert (∃ q c c', h !! q = Some c ∧ h' = <[q := c']> h ∧ qcap c' = qcap c ∧
    t_from t' = t_from t ∧ t_to t' = t_to t ∧ t_n t' = t_n t ∧
    ((t_carry t = true ∧ q = t_to t ∧ qlen c < qcap c ∧ qlen c' = qlen c + 1 ∧
      t_i t' = t_i t + 1 ∧ t_carry t' = false) ∨
     (t_carry t = false ∧ q = t_from t ∧ 0 < qlen c ∧ qlen c' = qlen c - 1 ∧
      t_i t' = t_i t ∧ t_carry t' = true ∧ t_i t < t_n t))) as
    (q & c & c' & Hq & -> & Hcap & Hfrom & Hto & Hn' & Hcase).
  { unfold transfer_step in Hstep. destruct (t_carry t) eqn:Ecarry.
    - unfold blockingRelease in Hstep.
      destruct (try_send (t_to t) h) as [h1|] eqn:Es; simplify_eq/=.
      apply try_send_Some in Es as (c & Hq & Hroom & ->).
      exists (t_to t), c, (Chan (qcap c) (qlen c + 1)). simpl. split_and!; try done. left. done.
    - destruct (t_i t <? t_n t) eqn:Ei; [| done]. unfold blockingConsume in Hstep.
      destruct (try_recv (t_from t) h) as [h1|] eqn:Es; simplify_eq/=.
      apply try_recv_Some in Es as (c & Hq & Hpos & ->).
      exists (t_from t), c, (Chan (qcap c) (qlen c - 1)). simpl. split_and!; try done.
      right. split_and!; try done. lia. }
  clear Hstep. pose proof (lookup_lt_Some _ _ _ Hq) as Hlt.
  destruct (Hch q c Hq) as [Hlen HcapR].
  split; rewrite ?length_insert.
  - destruct Hsh as [n Hn0]. rewrite list_lookup_insert. case_decide as Hd; [| eauto].
    destruct Hd as [-> _]. rewrite Hq in Hn0. injection Hn0 as ->.
    destruct c' as [cap' len']. simpl in *. subst. eauto.
  - intros q' c0. rewrite list_lookup_insert. case_decide as Hd; [| apply Hch].
    destruct Hd as [<- _]. intros [= <-]. rewrite Hcap.
    split; [| done]. destruct Hcase as [Hs | Hs]; lia.
  - done.
  - done.
  - done.
  - intros x [-> | Hx]%elem_of_list_insert_inv; [| auto].
    unfold wf_transfer. rewrite Hfrom, Hto, Hn'.
    destruct Hcase as [(Hcarry & ? & ? & ? & -> & ->) | (? & ? & ? & ? & -> & -> & ?)].
    + specialize (Hc Hcarry). split_and!; [done | lia | lia | done | done].
    + split_and!; [done | lia | lia | intros _; lia | done].
  - done.
  - rewrite (heap_tokens_insert _ _ c) by done.
    unfold carried. rewrite (sumZ_insert _ _ _ t) by done. fold (carried r).
    destruct Hcase as [(-> & ? & ? & -> & ? & ->) | (-> & ? & ? & -> & ? & -> & ?)]; lia.
  - intros q' Hq'. rewrite (tokens_insert _ _ _ c) by done.
    unfold outof, into. rewrite !(sumZ_insert _ _ _ t) by done.
    fold (outof q' r) (into q' r). specialize (Hbal q' Hq').
    rewrite Hfrom, Hto.
    destruct Hcase as [(-> & -> & ? & -> & -> & ->) | (-> & -> & ? & -> & -> & -> & ?)].
    + repeat case_decide; subst; rewrite ?(tokens_lookup _ _ _ Hq) in Hbal; lia.
    + repeat case_decide; subst; rewrite ?(tokens_lookup _ _ _ Hq) in Hbal; lia.
  - intros q' Hq'. unfold openers. rewrite (sumZ_insert _ _ _ t) by done.
    fold (openers q' r). rewrite Hto. specialize (Hop q' Hq'). lia.
  - intros q' Hq'. destruct (Hcl q' Hq') as [? | (t0 & Ht0 & Hf0)]; [by left | right].
    apply list_elem_of_lookup in Ht0 as [j Hj].
    destruct (decide (j = k)) as [-> | Hne].
    + exists t'. split; [apply list_elem_of_insert; by eapply lookup_lt_Some | congruence].
    + exists t0. split; [| done]. apply list_elem_of_lookup. exists j.
      by rewrite list_lookup_insert_ne.
Qed.

Lemma wf_transfer_mono (R : Z) (n n' : nat) (t : transfer) :
  (n ≤ n')%nat → wf_transfer R n t → wf_transfer R n' t.
Proof. unfold wf_transfer. intros Hn (? & ? & ? & Hends). split_and!; try done; lia. Qed.

Lemma InvC_open (M R : Z) (m : gmap ErlClient qref) (h : heap) (r : list transfer)
    (g : list ErlCapacityGuard) (c : ErlClient) :
  InvC M R m h r g → m !! c = None → R * (Z.of_nat (size m) + 1) <= M → 0 <= R →
  InvC M R (<[c := length h]> m) (h ++ [Chan R 0])
       (r ++ [Transfer 0%nat (length h) R 0 false]) g.
Proof.
  intros [Hsh Hch Hmap Hinj Hsz Hrt Hheld Htot Hbal Hop Hcl] Hc Hroom HR.
  assert (0 < length h)%nat as Hpos by (destruct Hsh as [n Hn]; by apply lookup_lt_Some in Hn).
  assert (∀ q', (length h ≤ q')%nat → guards_on q' g = 0) as Hg0.
  { intros q' Hq'. apply sumZ_zero. intros x Hx. destruct (Hheld x Hx) as (q0 & Hq0 & ?).
    rewrite Hq0. rewrite decide_False; [done | intros [= ->]; lia]. }
  assert (∀ q', (length h ≤ q')%nat → outof q' r = 0 ∧ into q' r = 0 ∧ openers q' r = 0) as Hr0.
  { intros q' Hq'. split_and!; apply sumZ_zero; intros t Ht;
      destruct (Hrt t Ht) as (_ & _ & _ & Hends);
      (rewrite decide_False; [done | lia]). }
  split; rewrite ?length_app; simpl.
  - destruct Hsh as [n Hn]. exists n. by rewrite lookup_app_l.
  - intros q' c' [[? Hq'] | [-> <-]]%lookup_snoc_Some; [by apply Hch |]. simpl. split; [lia | done].
  - intros c' q'. rewrite lookup_insert. case_decide; [intros [= <-]; lia |].
    intros Hq'%Hmap. lia.
  - intros c1 c2 q'. rewrite !lookup_insert.
    repeat case_decide; subst; try done.
    + intros [= <-] Hq'%Hmap. lia.
    + intros Hq'%Hmap [= <-]. lia.
    + apply Hinj.
  - rewrite map_size_insert_None by done. lia.
  - intros t [Ht | ->%list_elem_of_singleton]%elem_of_app.
    + eapply wf_transfer_mono; [| by apply Hrt]. lia.
    + unfold wf_transfer. simpl. split_and!; try done; lia.
  - intros x Hx. destruct (Hheld x Hx) as (q0 & ? & ?). exists q0. split; [done | lia].
  - unfold heap_tokens, carried in *. rewrite !sumZ_app. simpl. lia.
  - intros q' Hq'. unfold outof, into. rewrite !sumZ_app. simpl.
    fold (outof q' r) (into q' r).
    rewrite (decide_False (P := 0%nat = q')) by lia.
    destruct (decide (q' = length h)) as [-> | Hne].
    + rewrite tokens_snoc_new, decide_True by done. simpl.
      rewrite Hg0 by lia. destruct (Hr0 (length h)) as (-> & -> & _); lia.
    + rewrite tokens_snoc by lia. rewrite decide_False by done.
      specialize (Hbal q'). lia.
  - intros q' Hq'. unfold openers. rewrite sumZ_app. simpl. fold (openers q' r).
    case_decide; [| specialize (Hop q' Hq'); lia].
    subst. destruct (Hr0 (length h)) as (_ & _ & ->); lia.
  - intros q' Hq'. destruct (decide (q' = length h)) as [-> | Hne].
    + left. exists c. by rewrite lookup_insert_eq.
    + destruct (Hcl q') as [[c' Hc'] | (t & Ht & ?)]; [lia | |].
      * left. exists c'. rewrite lookup_insert_ne; [done | congruence].
      * right. exists t. split; [| done]. apply elem_of_app. by left.
Qed.

Lemma InvC_close (M R : Z) (m : gmap ErlClient qref) (h : heap) (r : list transfer)
    (g : list ErlCapacityGuard) (c : ErlClient) (q : qref) :
  InvC M R m h r g → m !! c = Some q →
  InvC M R (delete c m) h (r ++ [Transfer q 0%nat R 0 false]) g.
Proof.
  intros [Hsh Hch Hmap Hinj Hsz Hrt Hheld Htot Hbal Hop Hcl] Hc.
  pose proof (Hmap c q Hc) as Hq.
  assert (0 <= R) as HR.
  { destruct (lookup_lt_is_Some_2 h q) as [x Hx]; [lia |].
    destruct (Hch q x Hx) as [? Hcap]. rewrite <- Hcap by lia. lia. }
  split.
  - done.
  - done.
  - intros c' q'. rewrite lookup_delete. case_decide; [done | apply Hmap].
  - intros c1 c2 q'. rewrite !lookup_delete. repeat case_decide; try done. apply Hinj.
  - rewrite map_size_delete_Some by eauto.
    assert (size m ≠ 0)%nat by (eapply map_size_ne_0_lookup_2; eauto). nia.
  - intros t [Ht | ->%list_elem_of_singleton]%elem_of_app; [by apply Hrt |].
    unfold wf_transfer. simpl. split_and!; try done; lia.
  - done.
  - unfold carried in *. rewrite sumZ_app. simpl. lia.
  - intros q' Hq'. unfold outof, into. rewrite !sumZ_app. simpl.
    fold (outof q' r) (into q' r). specialize (Hbal q' Hq').
    rewrite (decide_False (P := 0%nat = q')) by lia. case_decide; lia.
  - intros q' Hq'. unfold openers. rewrite sumZ_app. simpl. fold (openers q' r).
    rewrite decide_False by lia. specialize (Hop q' Hq'). lia.
  - intros q' Hq'. destruct (Hcl q' Hq') as [[c' Hc'] | (t & Ht & ?)].
    + destruct (decide (c' = c)) as [-> | Hne].
      * right. exists (Transfer q 0%nat R 0 false). split; [| simpl; congruence].
        apply elem_of_app. right. by apply list_elem_of_singleton.
      * left. exists c'. by rewrite lookup_delete_ne.
    + right. exists t. split; [| done]. apply elem_of_app. by left.
Qed.

Lemma wrap_int_small (z : Z) : is_int z → wrap_int z = z.
Proof.
  unfold is_int, int_min, int_max, wrap_int. intros Hz.
  rewrite Z.mod_small; lia.
Qed.

Lemma InvC_R_nonneg (M R : Z) (m : gmap ErlClient qref) (h : heap) (r : list transfer)
    (g : list ErlCapacityGuard) :
  InvC M R m h r g → size m ≠ 0%nat → 0 <= R.
Proof.
  intros HI [c [q Hc]]%map_size_ne_0_lookup_1.
  pose proof (ic_map _ _ _ _ _ _ HI c q Hc) as Hq.
  destruct (lookup_lt_is_Some_2 h q) as [x Hx]; [lia |].
  destruct (ic_chan _ _ _ _ _ _ HI q x Hx) as [? Hcap]. rewrite <- Hcap by lia. lia.
Qed.

Lemma InvC_M_nonneg (M R : Z) (m : gmap ErlClient qref) (h : heap) (r : list transfer)
    (g : list ErlCapacityGuard) :
  InvC M R m h r g → 0 <= M.
Proof.
  intros HI. destruct (ic_shared _ _ _ _ _ _ HI) as [n Hn].
  destruct (ic_chan _ _ _ _ _ _ HI _ _ Hn) as [? _]. simpl in *. lia.
Qed.

(** The subtraction and the product of [openReservation] do not wrap. *)
Lemma remaining_exact (M R : Z) (s : state) :
  Inv M R s →
  wrap_int (MaxCapacity (erl s) -
    wrap_int (CapacityPerReservation (erl s) * Z.of_nat (size (capacityByClient (erl s)))))
  = M - R * Z.of_nat (size (capacityByClient (erl s))).
Proof.
  intros (-> & -> & _ & HM & HR & HI).
  pose proof (ic_size _ _ _ _ _ _ HI) as Hsz.
  pose proof (InvC_M_nonneg _ _ _ _ _ _ HI) as HM0.
  assert (0 <= R * Z.of_nat (size (capacityByClient (erl s)))) as Hprod.
  { destruct (decide (size (capacityByClient (erl s)) = 0%nat)) as [-> | Hn]; [lia |].
    pose proof (InvC_R_nonneg _ _ _ _ _ _ HI Hn). nia. }
  unfold is_int, int_min, int_max in *.
  rewrite (wrap_int_small (_ * _)) by (unfold is_int, int_min, int_max; lia).
  rewrite wrap_int_small by (unfold is_int, int_min, int_max; lia). done.
Qed.

(** What [openReservation] does in a state of the invariant. *)
Lemma openReservation_cases (M R : Z) (c : ErlClient) (s : state) :
  Inv M R s →
  (∃ err, openReservation c s = (Returns (None, Some err), s) ∧
     (is_Some (capacityByClient (erl s) !! c) ∨
      M - R * Z.of_nat (size (capacityByClient (erl s))) < R)) ∨
  (openReservation c s = (Panics, s) ∧ R < 0) ∨
  (capacityByClient (erl s) !! c = None ∧
   R * (Z.of_nat (size (capacityByClient (erl s))) + 1) <= M ∧ 0 <= R ∧
   openReservation c s =
     (Returns (Some (length (chans s)), None),
      set_routines (routines s ++ [Transfer 0%nat (length (chans s)) R 0 false])
        (set_chans (chans s ++ [Chan R 0])
           (set_erl (set_capacityByClient (<[c := length (chans s)]> (capacityByClient (erl s))) (erl s)) s)))).
Proof.
  intros HInv. pose proof (remaining_exact M R s HInv) as Hrem.
  destruct HInv as (HM & HR & Hsh & _ & _ & HI).
  unfold openReservation. rewrite Hrem. clear Hrem.
  destruct (capacityByClient (erl s) !! c) as [q|] eqn:Hc.
  { left. eexists. split; [done |]. left. eauto. }
  rewrite HR, Hsh.
  destruct (_ <? R) eqn:Hlt.
  { left. eexists. split; [done |]. right. lia. }
  unfold make_chan. destruct (R <? 0) eqn:Hneg.
  { right. left. split; [done | lia]. }
  right. right. split_and!; [done | lia | lia | done].
Qed.

Lemma gate_fields (c : ErlClient) (b d : bool) (e e1 : ElasticRateLimiter) :
  gate c b e = (d, e1) →
  MaxCapacity e1 = MaxCapacity e ∧ CapacityPerReservation e1 = CapacityPerReservation e ∧
  sharedCapacity e1 = sharedCapacity e ∧ capacityByClient e1 = capacityByClient e ∧
  noCapacityCounter e1 = noCapacityCounter e ∧ enableCM e1 = enableCM e ∧
  congestionControlCounter e1 = congestionControlCounter e.
Proof.
  unfold gate. destruct (cm e) as [m|]; [destruct b; [destruct (cmShouldDrop c m) |] |];
    intros [= <- <-]; done.
Qed.

(** [ConsumeCapacity] keeps the invariant, whichever way it ends; a guard
    it returns is counted as handed out. *)
Lemma ConsumeCapacity_Inv (M R : Z) (c : ErlClient) (now : Time) (s s' : state)
    (o : outcome (ErlCapacityGuard * option erl_error)) :
  Inv M R s → ConsumeCapacity c now s = (o, s') →
  match o with
  | Returns (g, None) => Inv M R (set_held (held s' ++ [g]) s')
  | _ => Inv M R s'
  end.
Proof.
  intros HInv. unfold ConsumeCapacity.
  destruct (capacityByClient (erl s) !! c) as [q|] eqn:Hc.
  - pose proof HInv as (HM & HR & Hsh & HiM & HiR & HI).
    unfold consume. destruct (try_recv q (chans s)) as [h'|] eqn:Hq.
    { intros [= <- <-]. unfold Inv. simpl. split_and!; try done.
      eapply InvC_take; eauto. }
    destruct (gate c (enableCM (erl s)) (erl s)) as [d e1] eqn:Hg.
    apply gate_fields in Hg as (HM1 & HR1 & Hsh1 & Hmap1 & _).
    destruct d.
    { intros [= <- <-]. unfold Inv. simpl. rewrite HM1, HR1, Hsh1, Hmap1. done. }
    rewrite Hsh1.
    destruct (try_recv (sharedCapacity (erl s)) (chans s)) as [h'|] eqn:Hq'.
    + intros [= <- <-]. unfold Inv. simpl. rewrite HM1, HR1, Hsh1, Hmap1.
      split_and!; try done. eapply InvC_take; eauto.
    + intros [= <- <-]. unfold Inv. simpl. rewrite HM1, HR1, Hsh1, Hmap1. done.
  - destruct (openReservation_cases M R c s HInv) as
      [(err & -> & _) | [[-> _] | (_ & Hroom & HR0 & ->)]].
    + intros [= <- <-]. done.
    + intros [= <- <-]. done.
    + intros [= <- <-]. destruct HInv as (HM & HR & Hsh & HiM & HiR & HI).
      unfold Inv. simpl. split_and!; try done. by apply InvC_open.
Qed.

Lemma step_Inv (M R : Z) (l : label) (s s' : state) :
  Inv M R s → step l s = Some s' → Inv M R s'.
Proof.
  intros HInv. destruct l as [c now | k | k | k now | c | c | | | k]; simpl.
  - destruct (ConsumeCapacity c now s) as [o s1] eqn:Hcc.
    pose proof (ConsumeCapacity_Inv M R c now s s1 o HInv Hcc) as H1.
    destruct o as [[g [err|]] | | q]; intros [= <-]; done.
  - destruct (parked s !! k) as [q|] eqn:Hk; simpl; [| done].
    unfold blockingConsume. destruct (try_recv q (chans s)) as [h'|] eqn:Hq; simpl; [| done].
    intros [= <-]. destruct HInv as (HM & HR & Hsh & HiM & HiR & HI).
    unfold Inv. simpl. split_and!; try done. eapply InvC_take; eauto.
  - destruct (held s !! k) as [g|] eqn:Hk; simpl; [| done].
    unfold Release. destruct (cq g) as [q|] eqn:Hg; simpl.
    + destruct (try_send q (chans s)) as [h'|] eqn:Hq; intros [= <-]; [| done].
      destruct HInv as (HM & HR & Hsh & HiM & HiR & HI).
      unfold Inv. simpl. split_and!; try done. eapply InvC_release; eauto.
    + intros [= <-]. done.
  - destruct (held s !! k) as [g|] eqn:Hk; simpl; [| done].
    unfold Served. destruct (gcm g); simpl; [| done]. intros [= <-]. done.
  - destruct (openReservation_cases M R c s HInv) as
      [(err & -> & _) | [[-> _] | (Hnone & Hroom & HR0 & ->)]]; [| done |].
    + intros [= <-]. done.
    + intros [= <-]. destruct HInv as (HM & HR & Hsh & HiM & HiR & HI).
      unfold Inv. simpl. split_and!; try done. by apply InvC_open.
  - intros [= <-]. unfold closeReservation.
    destruct (capacityByClient (erl s) !! c) as [q|] eqn:Hc; [| done].
    case_decide; [done |].
    destruct HInv as (HM & HR & Hsh & HiM & HiR & HI).
    unfold Inv. simpl. rewrite Hsh, HR. split_and!; try done. by apply InvC_close.
  - intros [= <-]. done.
  - intros [= <-]. done.
  - destruct (routines s !! k) as [t|] eqn:Hk; simpl; [| done].
    destruct (transfer_step t (chans s)) as [[t' h']|] eqn:Ht; simpl; [| done].
    intros [= <-]. destruct HInv as (HM & HR & Hsh & HiM & HiR & HI).
    unfold Inv. simpl. split_and!; try done. eapply InvC_transfer; eauto.
Qed.

Lemma exec_Inv (M R : Z) (ls : list label) (s s' : state) :
  Inv M R s → exec ls s = Some s' → Inv M R s'.
Proof.
  revert s. induction ls as [|l ls IH]; intros s HInv; simpl.
  - by intros [= <-].
  - destruct (step l s) as [s1|] eqn:Hs; simpl; [| done].
    apply IH. by eapply step_Inv.
Qed.

Lemma NewElasticRateLimiter_Some (M R : Z) (m : option CM) (k1 k2 : Counter) (s : state) :
  NewElasticRateLimiter M R m k1 k2 = Some s →
  0 <= M ∧ s = State (Erl M R 0%nat ∅ k1 m false k2) [Chan M M] [] [] [] [].
Proof.
  unfold NewElasticRateLimiter, make_chan. destruct (M <? 0) eqn:HM; [done |].
  simpl. rewrite (fill_spec _ M 0) by lia. simpl. intros [= <-].
  split; [lia |]. do 3 f_equal. lia.
Qed.

Lemma NewElasticRateLimiter_Inv (M R : Z) (m : option CM) (k1 k2 : Counter) (s : state) :
  is_int M → is_int R → NewElasticRateLimiter M R m k1 k2 = Some s → Inv M R s.
Proof.
  intros HiM HiR [HM ->]%NewElasticRateLimiter_Some.
  unfold Inv. simpl. split_and!; try done. by apply InvC_init.
Qed.

(** [ConsumeCapacity] is its steps taken one after the other. *)
Lemma complete_ConsumeCapacity (c : ErlClient) (now : Time) (s : state) :
  complete 2 (enter c s) now s = Some (ConsumeCapacity c now s).
Proof.
  unfold enter, ConsumeCapacity.
  destruct (capacityByClient (erl s) !! c) as [q|]; simpl.
  - destruct (consume q (chans s)) as [[cg [err|]] h]; simpl; [| done].
    destruct (gate c (enableCM (erl s)) (erl s)) as [[] e1]; simpl; [done |].
    destruct (consume (sharedCapacity e1) (chans s)) as [[cg' [err'|]] h']; done.
  - destruct (openReservation c s) as [[[q [err|]] | | q] s1]; done.
Qed.

Lemma advance_Inv (M R : Z) (cl : call) (now : Time) (s : state) :
  Inv M R s →
  match advance cl now s with
  | Ends (Returns (g, None)) s' => Inv M R (set_held (held s' ++ [g]) s')
  | Ends _ s' => Inv M R s'
  | Goes _ s' => Inv M R s'
  end.
Proof.
  intros HInv. pose proof HInv as (HM & HR & Hsh & HiM & HiR & HI).
  destruct cl as [c | c q enable | c enable | c]; simpl.
  - destruct (openReservation_cases M R c s HInv) as
      [(err & -> & _) | [[-> _] | (Hnone & Hroom & HR0 & ->)]]; [done | done |].
    unfold Inv. simpl. split_and!; try done. by apply InvC_open.
  - unfold consume. destruct (try_recv q (chans s)) as [h'|] eqn:Hq; [| done].
    unfold Inv. simpl. split_and!; try done. eapply InvC_take; eauto.
  - destruct (gate c enable (erl s)) as [d e1] eqn:Hg.
    apply gate_fields in Hg as (HM1 & HR1 & Hsh1 & Hmap1 & _).
    destruct d; unfold Inv; simpl; rewrite HM1, HR1, Hsh1, Hmap1; done.
  - unfold consume. destruct (try_recv (sharedCapacity (erl s)) (chans s)) as [h'|] eqn:Hq; [| done].
    unfold Inv. simpl. split_and!; try done. eapply InvC_take; eauto.
Qed.

Lemma react_Inv (M R : Z) (ev : event) (s s' : state) (calls calls' : list call) :
  Inv M R s → react ev (s, calls) = Some (s', calls') → Inv M R s'.
Proof.
  intros HInv. destruct ev as [l | c | k now]; simpl.
  - destruct (step l s) as [s1|] eqn:Hs; simpl; [| done]. intros [= <- _]. by eapply step_Inv.
  - by intros [= <- _].
  - destruct (calls !! k) as [cl|]; simpl; [| done].
    pose proof (advance_Inv M R cl now s HInv) as Hadv.
    destruct (advance cl now s) as [[[g [err|]] | | q] s1 | cl' s1];
      intros ?; by simplify_eq.
Qed.

Lemma history_Inv (M R : Z) (evs : list event) (sc sc' : state * list call) :
  Inv M R sc.1 → history evs sc = Some sc' → Inv M R sc'.1.
Proof.
  revert sc. induction evs as [|ev evs IH]; intros [s calls] HInv; cbn [history].
  - by intros [= <-].
  - destruct (react ev (s, calls)) as [[s1 calls1]|] eqn:Hs; [| done].
    cbn [mbind option_bind]. apply IH. simpl. by eapply react_Inv.
Qed.

(** ** Consequences of the invariant *)

Lemma openers_zero_into (q : qref) (r : list transfer) :
  openers q r <= 0 → into q r = 0.
Proof.
  intros Hop. apply sumZ_zero. intros t Ht. case_decide as Hq; [| done]. exfalso.
  pose proof (sumZ_zero_inv (λ t, if decide (t_to t = q) then 1 else 0) r t) as Hz.
  simpl in Hz. rewrite decide_True in Hz by done.
  enough (1 = 0) by lia. apply Hz; [| done | done].
  intros y _. case_decide; lia.
Qed.

Lemma into_unique (q : qref) (r : list transfer) (t : transfer) :
  openers q r <= 1 → t ∈ r → t_to t = q → into q r = t_i t.
Proof.
  intros Hop [k Hk]%list_elem_of_lookup Hq.
  pose proof (sumZ_delete (λ t, if decide (t_to t = q) then 1 else 0) r k t Hk) as H1.
  pose proof (sumZ_delete (λ t, if decide (t_to t = q) then t_i t else 0) r k t Hk) as H2.
  simpl in H1, H2. rewrite decide_True in H1, H2 by done.
  fold (openers q (delete k r)) (openers q r) in H1.
  fold (into q (delete k r)) (into q r) in H2.
  rewrite openers_zero_into in H2 by lia. lia.
Qed.

Lemma into_le (R : Z) (n : nat) (q : qref) (r : list transfer) :
  0 <= R → (∀ t, t ∈ r → wf_transfer R n t) → openers q r <= 1 → into q r <= R.
Proof.
  intros HR Hwf Hop.
  destruct (decide (Exists (λ t, t_to t = q) r)) as [Hex | Hno].
  - apply Exists_exists in Hex as (t & Ht & Hq).
    rewrite (into_unique q r t) by done. destruct (Hwf t Ht) as (_ & ? & _). lia.
  - unfold into. rewrite sumZ_zero; [done |]. intros t Ht.
    case_decide; [| done]. exfalso. apply Hno, Exists_exists. eauto.
Qed.

Lemma outof_nonneg (R : Z) (n : nat) (q : qref) (r : list transfer) :
  (∀ t, t ∈ r → wf_transfer R n t) → 0 <= outof q r.
Proof.
  intros Hwf. apply sumZ_nonneg. intros t Ht. destruct (Hwf t Ht) as (_ & ? & _).
  case_decide; [| lia]. destruct (t_carry t); lia.
Qed.

Lemma guards_on_nonneg (q : qref) (g : list ErlCapacityGuard) : 0 <= guards_on q g.
Proof. apply sumZ_nonneg. intros x _. case_decide; lia. Qed.

Lemma heap_tokens_ge (M R : Z) (m : gmap ErlClient qref) (h : heap) (r : list transfer)
    (g : list ErlCapacityGuard) (q : qref) (c : chan) :
  InvC M R m h r g → h !! q = Some c → qlen c <= heap_tokens h.
Proof.
  intros HI Hq. apply (sumZ_elem_le qlen); [| by eapply list_elem_of_lookup_2].
  intros y [j Hj]%list_elem_of_lookup. destruct (ic_chan _ _ _ _ _ _ HI j y Hj). lia.
Qed.

(** A goroutine that carries a token is never blocked: the channel it
    sends to has room. *)
Lemma carrying_can_send (M R : Z) (s : state) (t : transfer) :
  Inv M R s → t ∈ routines s → t_carry t = true → is_Some (transfer_step t (chans s)).
Proof.
  intros (HM & HR & Hsh & _ & _ & HI) Ht Hcarry.
  destruct (ic_routines _ _ _ _ _ _ HI t Ht) as (Hn & Hi & Hlt & Hends).
  specialize (Hlt Hcarry).
  enough (is_Some (try_send (t_to t) (chans s))) as [h' Hh'].
  { unfold transfer_step, blockingRelease. rewrite Hcarry, Hh'. simpl. eauto. }
  destruct Hends as [[Hfrom Hto] | [Hto Hfrom]].
  - destruct (lookup_lt_is_Some_2 (chans s) (t_to t)) as [c Hc]; [lia |].
    apply (try_send_ready _ _ c Hc).
    destruct (ic_chan _ _ _ _ _ _ HI _ _ Hc) as [? Hcap]. rewrite Hcap by lia.
    pose proof (ic_balance _ _ _ _ _ _ HI (t_to t) Hto) as Hbal.
    rewrite (tokens_lookup _ _ _ Hc) in Hbal.
    rewrite (into_unique _ _ t) in Hbal; [| apply (ic_opener _ _ _ _ _ _ HI); lia | done | done].
    pose proof (guards_on_nonneg (t_to t) (held s)).
    pose proof (outof_nonneg R _ (t_to t) _ (ic_routines _ _ _ _ _ _ HI)). lia.
  - destruct (ic_shared _ _ _ _ _ _ HI) as [n Hn0]. rewrite Hto.
    apply (try_send_ready _ _ _ Hn0). simpl.
    pose proof (heap_tokens_ge _ _ _ _ _ _ _ _ HI Hn0) as Hge. simpl in Hge.
    pose proof (ic_total _ _ _ _ _ _ HI) as Htot.
    assert (1 <= carried (routines s)); [| lia].
    pose proof (sumZ_elem_le (λ t, if t_carry t then 1 else 0) (routines s) t) as Hle.
    simpl in Hle. rewrite Hcarry in Hle. apply Hle; [| done].
    intros y _. destruct (t_carry y); lia.
Qed.

Lemma quiesced_elem (s : state) (t : transfer) :
  quiesced s → t ∈ routines s → transfer_step t (chans s) = None.
Proof. unfold quiesced. rewrite Forall_forall. auto. Qed.

Lemma quiesced_carried (M R : Z) (s : state) :
  Inv M R s → quiesced s → carried (routines s) = 0.
Proof.
  intros HInv Hq. apply sumZ_zero. intros t Ht.
  destruct (t_carry t) eqn:Hcarry; [| done].
  destruct (carrying_can_send M R s t HInv Ht Hcarry) as [x Hx].
  rewrite (quiesced_elem s t Hq Ht) in Hx. done.
Qed.

(** A reservation that has left the map is empty once its goroutines can
    move no more. *)
Lemma quiesced_closed_empty (M R : Z) (s : state) (q : qref) :
  Inv M R s → quiesced s → (0 < q < length (chans s))%nat →
  (∀ c, capacityByClient (erl s) !! c ≠ Some q) → tokens q (chans s) = 0.
Proof.
  intros HInv Hqu Hq Hno. pose proof HInv as (HM & HR & Hsh & _ & _ & HI).
  destruct (ic_closed _ _ _ _ _ _ HI q Hq) as [[c Hc] | (t & Ht & Hfrom)]; [by destruct (Hno c) |].
  destruct (lookup_lt_is_Some_2 (chans s) q) as [x Hx]; [lia |].
  destruct (ic_chan _ _ _ _ _ _ HI _ _ Hx) as [Hlen Hcap].
  rewrite (tokens_lookup _ _ _ Hx).
  destruct (t_carry t) eqn:Hcarry.
  { destruct (carrying_can_send M R s t HInv Ht Hcarry) as [y Hy].
    rewrite (quiesced_elem s t Hqu Ht) in Hy. done. }
  pose proof (quiesced_elem s t Hqu Ht) as Hstep. unfold transfer_step in Hstep. rewrite Hcarry in Hstep.
  destruct (t_i t <? t_n t) eqn:Hi.
  - unfold blockingConsume, try_recv in Hstep. rewrite Hfrom, Hx in Hstep.
    destruct (0 <? qlen x) eqn:Hpos; [done | lia].
  - destruct (ic_routines _ _ _ _ _ _ HI t Ht) as (Hn & Hbound & _).
    pose proof (ic_balance _ _ _ _ _ _ HI q Hq) as Hbal.
    rewrite (tokens_lookup _ _ _ Hx) in Hbal.
    pose proof (guards_on_nonneg q (held s)).
    assert (0 <= R) by lia.
    pose proof (into_le R _ q _ ltac:(done) (ic_routines _ _ _ _ _ _ HI)
                  (ic_opener _ _ _ _ _ _ HI q ltac:(lia))).
    assert (t_i t <= outof q (routines s)); [| lia].
    pose proof (sumZ_elem_le
      (λ t, if decide (t_from t = q) then t_i t + (if t_carry t then 1 else 0) else 0)
      (routines s) t) as Hle.
    simpl in Hle. rewrite decide_True, Hcarry in Hle by done.
    fold (outof q (routines s)) in Hle.
    enough (t_i t + 0 <= outof q (routines s)) by lia. apply Hle; [| done].
    intros y Hy. destruct (ic_routines _ _ _ _ _ _ HI y Hy) as (_ & ? & _).
    case_decide; [| lia]. destruct (t_carry y); lia.
Qed.

Lemma sumZ_perm {A : Type} (f : A → Z) (l1 l2 : list A) :
  l1 ≡ₚ l2 → sumZ f l1 = sumZ f l2.
Proof. induction 1; simpl; lia. Qed.

Lemma heap_tokens_seq (h : heap) :
  heap_tokens h = sumZ (λ q, tokens q h) (seq 0 (length h)).
Proof.
  induction h as [|c h IH] using rev_ind; [done |].
  unfold heap_tokens in *. rewrite length_app, sumZ_app. simpl.
  rewrite Nat.add_1_r, seq_S, sumZ_app. simpl.
  rewrite tokens_snoc_new, IH. f_equal.
  apply sumZ_ext. intros q Hq%elem_of_seq. rewrite tokens_snoc; [done | lia].
Qed.

(** Summing over the values of an injective map is summing over any
    duplicate-free list that holds them, when the rest counts for nothing. *)
Lemma map_fold_sum (f : qref → Z) (m : gmap ErlClient qref) (l : list qref) :
  NoDup l →
  (∀ c q, m !! c = Some q → q ∈ l) →
  (∀ c1 c2 q, m !! c1 = Some q → m !! c2 = Some q → c1 = c2) →
  (∀ q, q ∈ l → (∀ c, m !! c ≠ Some q) → f q = 0) →
  map_fold (λ _ q acc, f q + acc) 0 m = sumZ f l.
Proof.
  revert l. induction m as [|c q m Hc IH] using map_ind; intros l Hnd Hin Hinj Hzero.
  - rewrite map_fold_empty. symmetry. apply sumZ_zero. intros q Hq.
    apply Hzero; [done |]. intros c. by rewrite lookup_empty.
  - rewrite map_fold_insert_L; [| intros; lia | done].
    assert (q ∈ l) as Hq by (apply (Hin c); by rewrite lookup_insert_eq).
    apply elem_of_Permutation in Hq as [l' Hl'].
    rewrite (sumZ_perm f _ _ Hl'). simpl. f_equal.
    rewrite Hl' in Hnd. apply NoDup_cons in Hnd as [Hq' Hnd'].
    assert (∀ c', m !! c' ≠ Some q) as Hfresh.
    { intros c' Hc'. assert (c' = c); [| congruence].
      apply (Hinj c' c q); [| by rewrite lookup_insert_eq].
      rewrite lookup_insert_ne; [done | congruence]. }
    apply IH; [done | | |].
    + intros c' q' Hc'. assert (q' ∈ q :: l') as Hmem.
      { rewrite <- Hl'. apply (Hin c'). rewrite lookup_insert_ne; [done | congruence]. }
      apply elem_of_cons in Hmem as [-> | ?]; [by destruct (Hfresh c') | done].
    + intros c1 c2 q' H1 H2. apply (Hinj c1 c2 q').
      * rewrite lookup_insert_ne; [done | congruence].
      * rewrite lookup_insert_ne; [done | congruence].
    + intros q' Hq'' Hno. apply Hzero.
      * rewrite Hl'. by apply list_elem_of_further.
      * intros c'. rewrite lookup_insert. case_decide; [| apply Hno].
        intros [= ->]. done.
Qed.

(** Once the goroutines can move no more, the tokens outside the shared
    channel are those of the reservations in the map. *)
Lemma quiesced_reservation_tokens (M R : Z) (s : state) :
  Inv M R s → quiesced s →
  heap_tokens (chans s) = shared_tokens s + reservation_tokens s.
Proof.
  intros HInv Hqu. pose proof HInv as (HM & HR & Hsh & _ & _ & HI).
  rewrite heap_tokens_seq. unfold shared_tokens, reservation_tokens. rewrite Hsh.
  destruct (ic_shared _ _ _ _ _ _ HI) as [n Hn]. pose proof (lookup_lt_Some _ _ _ Hn) as Hlen.
  destruct (length (chans s)) as [|k] eqn:Hk; [lia |]. simpl. f_equal.
  symmetry. apply map_fold_sum.
  - apply NoDup_seq.
  - intros c q Hq%(ic_map _ _ _ _ _ _ HI). apply elem_of_seq. lia.
  - apply (ic_inj _ _ _ _ _ _ HI).
  - intros q Hq%elem_of_seq Hno. apply (quiesced_closed_empty M R); [done | done | lia | done].
Qed.

(** Releasing a guard that is held never finds its channel full. *)
Lemma Release_succeeds (M R : Z) (s : state) (g : ErlCapacityGuard) :
  Inv M R s → g ∈ held s → ∃ h', Release g (chans s) = (None, h').
Proof.
  intros (HM & HR & Hsh & _ & _ & HI) Hg.
  destruct (ic_held _ _ _ _ _ _ HI g Hg) as (q & Hq & Hlt).
  destruct (lookup_lt_is_Some_2 (chans s) q) as [c Hc]; [lia |].
  enough (is_Some (try_send q (chans s))) as [h' Hh'].
  { exists h'. unfold Release. rewrite Hq. simpl. by rewrite Hh'. }
  apply (try_send_ready _ _ c Hc).
  destruct (ic_chan _ _ _ _ _ _ HI _ _ Hc) as [? Hcap].
  pose proof (sumZ_elem_le (λ g, if decide (cq g = Some q) then 1 else 0) (held s) g) as Hle.
  simpl in Hle. rewrite decide_True in Hle by done. fold (guards_on q (held s)) in Hle.
  assert (1 <= guards_on q (held s)) as Hone.
  { apply Hle; [| done]. intros y _. case_decide; lia. }
  destruct (decide (q = 0%nat)) as [-> | Hne].
  - destruct (ic_shared _ _ _ _ _ _ HI) as [n Hn]. rewrite Hn in Hc. injection Hc as <-. simpl.
    pose proof (heap_tokens_ge _ _ _ _ _ _ _ _ HI Hn) as Hge. simpl in Hge.
    pose proof (ic_total _ _ _ _ _ _ HI) as Htot.
    assert (0 <= carried (routines s)).
    { apply sumZ_nonneg. intros t _. destruct (t_carry t); lia. }
    assert (0 < length (held s))%nat; [| lia].
    apply list_elem_of_lookup in Hg as [k Hk]. apply lookup_lt_Some in Hk. lia.
  - rewrite Hcap by done.
    pose proof (ic_balance _ _ _ _ _ _ HI q ltac:(lia)) as Hbal.
    rewrite (tokens_lookup _ _ _ Hc) in Hbal.
    assert (0 <= R) by lia.
    pose proof (into_le R _ q _ ltac:(done) (ic_routines _ _ _ _ _ _ HI)
                  (ic_opener _ _ _ _ _ _ HI q ltac:(lia))).
    pose proof (outof_nonneg R _ q _ (ic_routines _ _ _ _ _ _ HI)). lia.
Qed.

(** A guard that is held was taken from a channel with a buffer. *)
Lemma held_guard_buffered (M R : Z) (s : state) (g : ErlCapacityGuard) (q : qref) (c : chan) :
  Inv M R s → g ∈ held s → cq g = Some q → chans s !! q = Some c → 0 < qcap c.
Proof.
  intros HInv Hg Hq Hc. destruct (Release_succeeds M R s g HInv Hg) as [h' Hrel].
  unfold Release in Hrel. rewrite Hq in Hrel. simpl in Hrel.
  destruct (try_send q (chans s)) as [h1|] eqn:Hsend; [| done].
  apply try_send_Some in Hsend as (c' & Hc' & Hroom & _). simplify_eq.
  destruct HInv as (_ & _ & _ & _ & _ & HI).
  destruct (ic_chan _ _ _ _ _ _ HI _ _ Hc). lia.
Qed.

(** ** The limiter's claims *)

(** C1 (token conservation).  Start from a freshly constructed limiter and
    let clients and goroutines take any sequence of steps: calls of
    [ConsumeCapacity], whole or step by step among the others, first
    admissions receiving their token, releases of guards that are held,
    [openReservation], [closeReservation], toggles of congestion control,
    and channel operations of the transfer goroutines.  Whenever the
    goroutines have quiesced, the tokens in the shared channel plus the
    tokens in the reservations of the map plus the guards handed out and
    not released make [MaxCapacity]; the same holds counting every channel
    ever made. *)
Theorem token_conservation (M R : Z) (m : option CM) (k1 k2 : Counter)
    (evs : list event) (s0 s : state) (calls : list call) :
  is_int M → is_int R →
  NewElasticRateLimiter M R m k1 k2 = Some s0 →
  history evs (s0, []) = Some (s, calls) →
  quiesced s →
  shared_tokens s + reservation_tokens s + outstanding s = MaxCapacity (erl s) ∧
  MaxCapacity (erl s) = M ∧
  heap_tokens (chans s) + outstanding s = M.
Proof.
  intros HiM HiR Hnew Hhist Hqu.
  assert (Inv M R s) as HInv.
  { apply (history_Inv M R evs (s0, []) (s, calls)); [| done].
    by eapply NewElasticRateLimiter_Inv. }
  pose proof (quiesced_reservation_tokens M R s HInv Hqu) as Hsum.
  pose proof (quiesced_carried M R s HInv Hqu) as Hcar.
  destruct HInv as (HM & _ & _ & _ & _ & HI).
  pose proof (ic_total _ _ _ _ _ _ HI) as Htot.
  unfold outstanding. rewrite HM. lia.
Qed.

(** C3 (overprovisioning bound).  In every state reached from a freshly
    constructed limiter, by calls whole or step by step,
    [CapacityPerReservation] times the number of
    entries of the map is at most [MaxCapacity]; there [openReservation]
    returns an error and leaves the state as it is whenever
    [CapacityPerReservation] exceeds [MaxCapacity] minus
    [CapacityPerReservation] times the number of entries; and
    [closeReservation] leaves a map that is contained in the one before. *)
Theorem overprovisioning_bound (M R : Z) (m : option CM) (k1 k2 : Counter)
    (evs : list event) (s0 s : state) (calls : list call) (c : ErlClient) :
  is_int M → is_int R →
  NewElasticRateLimiter M R m k1 k2 = Some s0 →
  history evs (s0, []) = Some (s, calls) →
  CapacityPerReservation (erl s) * Z.of_nat (size (capacityByClient (erl s))) <= MaxCapacity (erl s) ∧
  (MaxCapacity (erl s) -
     CapacityPerReservation (erl s) * Z.of_nat (size (capacityByClient (erl s)))
   < CapacityPerReservation (erl s) →
   ∃ err, openReservation c s = (Returns (None, Some err), s)) ∧
  capacityByClient (erl (closeReservation c s)) ⊆ capacityByClient (erl s).
Proof.
  intros HiM HiR Hnew Hhist.
  assert (Inv M R s) as HInv.
  { apply (history_Inv M R evs (s0, []) (s, calls)); [| done].
    by eapply NewElasticRateLimiter_Inv. }
  pose proof HInv as (HM & HR & _ & _ & _ & HI).
  pose proof (ic_size _ _ _ _ _ _ HI) as Hsz.
  split_and!.
  - rewrite HM, HR. done.
  - rewrite HM, HR. intros Hfull.
    destruct (openReservation_cases M R c s HInv) as
      [(err & Hopen & _) | [[_ Hneg] | (_ & Hroom & _ & _)]]; [eauto | | lia].
    exfalso. destruct (decide (size (capacityByClient (erl s)) = 0%nat)) as [Hz | Hnz].
    + pose proof (InvC_M_nonneg _ _ _ _ _ _ HI). rewrite Hz in Hfull. lia.
    + pose proof (InvC_R_nonneg _ _ _ _ _ _ HI Hnz). lia.
  - unfold closeReservation.
    destruct (capacityByClient (erl s) !! c) as [q|]; [| done].
    case_decide; [done |]. simpl. apply delete_subseteq.
Qed.

(** A take from an existing reservation that holds a token succeeds,
    whether or not a congestion manager is attached. *)
Lemma reserved_take (c : ErlClient) (now : Time) (s : state) (q : qref) :
  capacityByClient (erl s) !! c = Some q → 0 < tokens q (chans s) →
  ∃ h', try_recv q (chans s) = Some h' ∧
    tokens q h' = tokens q (chans s) - 1 ∧
    ConsumeCapacity c now s =
      (Returns (Guard (Some q) true, None),
       set_chans h' (set_erl (notifyConsumed c now (erl s)) s)).
Proof.
  intros Hc Hq. unfold tokens in Hq.
  destruct (chans s !! q) as [x|] eqn:Hx; simpl in Hq; [| lia].
  destruct (try_recv_ready _ _ _ Hx Hq) as [h' Hh']. exists h'. split; [done |].
  split.
  - apply try_recv_Some in Hh' as (x' & Hx' & _ & ->). simplify_eq.
    rewrite (tokens_insert _ _ _ x) by done. rewrite decide_True by done.
    by rewrite (tokens_lookup _ _ _ Hx).
  - unfold ConsumeCapacity, consume. by rewrite Hc, Hh'.
Qed.

(** C2 (reservation isolation).  When no congestion manager is attached, a
    client whose reservation holds at least one token is admitted: the
    call returns a guard on that reservation and no error, whatever the
    other reservations and the shared channel hold. *)
Theorem reservation_isolation (c : ErlClient) (now : Time) (s : state) (q : qref) :
  cm (erl s) = None →
  capacityByClient (erl s) !! c = Some q →
  0 < tokens q (chans s) →
  ∃ g s', ConsumeCapacity c now s = (Returns (g, None), s') ∧ cq g = Some q ∧
    tokens q (chans s') = tokens q (chans s) - 1.
Proof.
  intros _ Hc Hq. destruct (reserved_take c now s q Hc Hq) as (h' & _ & Htok & Hcc).
  eexists _, _. split; [exact Hcc |]. simpl. done.
Qed.

(** C7 (shared pool).  Let the client have a reservation that is empty and
    let the congestion gate not drop.  If the shared channel is empty too,
    [ConsumeCapacity] returns the zero guard and the error of the shared
    channel's [consume], adds one to [noCapacityCounter] and leaves every
    channel as it was.  If the shared channel holds a token, the call takes
    it, returns a guard that refers to the shared channel and no error, and
    the congestion manager (when one is attached) receives
    [Consumed(c, now)] after the gate's question. *)
Theorem shared_pool_fallback (c : ErlClient) (now : Time) (s : state) (q : qref)
    (e1 : ElasticRateLimiter) :
  capacityByClient (erl s) !! c = Some q →
  tokens q (chans s) = 0 →
  gate c (enableCM (erl s)) (erl s) = (false, e1) →
  (tokens (sharedCapacity (erl s)) (chans s) = 0 →
   ∃ s', ConsumeCapacity c now s =
           (Returns (zero_guard, Some (ErrCouldNotConsume (sharedCapacity (erl s)))), s') ∧
     chans s' = chans s ∧
     noCapacityCounter (erl s') = Inc (noCapacityCounter (erl s)) ∧
     capacityByClient (erl s') = capacityByClient (erl s) ∧
     cm (erl s') = cm e1) ∧
  (0 < tokens (sharedCapacity (erl s)) (chans s) →
   ∃ s', ConsumeCapacity c now s =
           (Returns (Guard (Some (sharedCapacity (erl s))) true, None), s') ∧
     tokens (sharedCapacity (erl s)) (chans s') = tokens (sharedCapacity (erl s)) (chans s) - 1 ∧
     (∀ q', q' ≠ sharedCapacity (erl s) → tokens q' (chans s') = tokens q' (chans s)) ∧
     noCapacityCounter (erl s') = noCapacityCounter (erl s) ∧
     cm (erl s') = cmConsumed c now <$> cm e1).
Proof.
  intros Hc Hq Hgate.
  assert (∀ q0, tokens q0 (chans s) = 0 → try_recv q0 (chans s) = None) as Hempty.
  { intros q0 Hz. unfold tokens in Hz. unfold try_recv.
    destruct (chans s !! q0) as [x|]; simpl in *; [| done].
    destruct (0 <? qlen x) eqn:E; [lia | done]. }
  pose proof (gate_fields _ _ _ _ _ Hgate) as (HM1 & HR1 & Hsh1 & Hmap1 & Hnc1 & _).
  split.
  - intros Hsh. eexists. split_and!.
    + unfold ConsumeCapacity, consume. rewrite Hc, (Hempty q Hq), Hgate, Hsh1.
      rewrite (Hempty _ Hsh). reflexivity.
    + done.
    + simpl. by rewrite Hnc1.
    + simpl. done.
    + done.
  - intros Hsh. unfold tokens in Hsh.
    destruct (chans s !! sharedCapacity (erl s)) as [x|] eqn:Hx; simpl in Hsh; [| lia].
    destruct (try_recv_ready _ _ _ Hx Hsh) as [h' Hh']. eexists. split_and!.
    + unfold ConsumeCapacity, consume. rewrite Hc, (Hempty q Hq), Hgate, Hsh1, Hh'.
      reflexivity.
    + simpl. apply try_recv_Some in Hh' as (x' & Hx' & _ & ->). simplify_eq.
      rewrite (tokens_insert _ _ _ x) by done. rewrite decide_True by done.
      by rewrite (tokens_lookup _ _ _ Hx).
    + intros q' Hq'. simpl. apply try_recv_Some in Hh' as (x' & Hx' & _ & ->).
      rewrite (tokens_insert _ _ _ x') by done. by rewrite decide_False.
    + simpl. done.
    + done.
Qed.

(** C10 (first admission).  For a client without a reservation,
    [ConsumeCapacity] never calls the congestion manager: however the call
    ends, the manager is as before.  When the reservation can be opened the
    call registers [closeReservation] with the client and waits for a
    token in the new channel; receiving it returns a guard on that channel,
    again without a call of the manager.  For a client with a reservation,
    a take from it is followed by [Consumed(c, now)]. *)
Theorem first_admission_not_notified (c : ErlClient) (now : Time) (s s' : state)
    (o : outcome (ErlCapacityGuard * option erl_error)) :
  capacityByClient (erl s) !! c = None →
  ConsumeCapacity c now s = (o, s') →
  cm (erl s') = cm (erl s) ∧
  (∀ g, o ≠ Returns (g, None)) ∧
  (∀ q, o = Blocks q →
     q = Some (length (chans s)) ∧
     capacityByClient (erl s') !! c = q ∧
     closers s' = closers s ++ [c] ∧
     ∀ (s1 : state) (g : ErlCapacityGuard) (s2 : state), cm (erl s1) = cm (erl s') →
       ConsumeCapacity_wake q s1 = Some (g, s2) →
       g = Guard q true ∧ cm (erl s2) = cm (erl s) ∧
       tokens (length (chans s)) (chans s2) = tokens (length (chans s)) (chans s1) - 1) ∧
  (∀ c' q', capacityByClient (erl s) !! c' = Some q' → 0 < tokens q' (chans s) →
     ∃ g s1, ConsumeCapacity c' now s = (Returns (g, None), s1) ∧
       cm (erl s1) = cmConsumed c' now <$> cm (erl s)).
Proof.
  intros Hc Hcc. unfold ConsumeCapacity in Hcc. rewrite Hc in Hcc.
  assert (cm (erl (openReservation c s).2) = cm (erl s) ∧
          ((∃ r, (openReservation c s).1 = Returns (None, Some r) ∧ (openReservation c s).2 = s) ∨
           (openReservation c s).1 = Panics ∨
           ((openReservation c s).1 = Returns (Some (length (chans s)), None) ∧
            capacityByClient (erl (openReservation c s).2) !! c = Some (length (chans s)) ∧
            closers (openReservation c s).2 = closers s))) as [Hcm Hopen].
  { unfold openReservation. rewrite Hc.
    destruct (_ <? CapacityPerReservation (erl s)); [split; [done | left; eauto] |].
    unfold make_chan. destruct (CapacityPerReservation (erl s) <? 0); simpl.
    - split; [done | right; left; done].
    - split; [done |]. right. right. split_and!; [done | | done].
      by rewrite lookup_insert_eq. }
  destruct (openReservation c s) as [o1 s1]. simpl in *.
  split_and!.
  - destruct Hopen as [(r & -> & ->) | [-> | (-> & _)]]; by simplify_eq/=.
  - intros g. destruct Hopen as [(r & -> & ->) | [-> | (-> & _)]]; by simplify_eq/=.
  - intros q ->. destruct Hopen as [(r & -> & ->) | [-> | (-> & Hmap & Hcl)]]; simplify_eq/=.
    split_and!; [done | done | by rewrite Hcl |].
    intros s1' g s2 Hcm1 Hwake. unfold ConsumeCapacity_wake, blockingConsume in Hwake. simpl in Hwake.
    destruct (try_recv (length (chans s)) (chans s1')) as [h'|] eqn:Hh'; simplify_eq/=.
    split_and!; [done | congruence |].
    apply try_recv_Some in Hh' as (x & Hx & _ & ->).
    rewrite (tokens_insert _ _ _ x) by done. rewrite decide_True by done.
    by rewrite (tokens_lookup _ _ _ Hx).
  - intros c' q' Hc' Hq'. destruct (reserved_take c' now s q' Hc' Hq') as (h' & _ & _ & ->).
    eexists _, _. split; [done |]. done.
Qed.

(** ** Runs of the transfer goroutines *)

Lemma transfer_step_shape (t t' : transfer) (h h' : heap) :
  transfer_step t h = Some (t', h') →
  ends t' = ends t ∧
  2 * t_i t' + (if t_carry t' then 1 else 0) = 2 * t_i t + (if t_carry t then 1 else 0) + 1.
Proof.
  unfold transfer_step, ends. destruct (t_carry t) eqn:Hcarry.
  - destruct (blockingRelease (t_to t) h); simpl; [| done]. intros [= <- <-]. simpl. split; [done | lia].
  - destruct (t_i t <? t_n t); [| done].
    destruct (blockingConsume (t_from t) h); simpl; [| done]. intros [= <- <-]. simpl. split; [done | lia].
Qed.

Lemma step_transfer_shape (k : nat) (s s' : state) :
  step (DoTransfer k) s = Some s' →
  erl s' = erl s ∧ held s' = held s ∧
  ends <$> routines s' = ends <$> routines s ∧
  progress (routines s') = progress (routines s) + 1.
Proof.
  simpl. destruct (routines s !! k) as [t|] eqn:Hk; simpl; [| done].
  destruct (transfer_step t (chans s)) as [[t' h']|] eqn:Ht; simpl; [| done].
  intros [= <-]. simpl. apply transfer_step_shape in Ht as [Hends Hprog].
  split_and!; [done | done | |].
  - rewrite list_fmap_insert, Hends. apply list_insert_id. by rewrite list_lookup_fmap, Hk.
  - unfold progress. rewrite (sumZ_insert _ _ _ t) by done. lia.
Qed.

Lemma exec_transfer_shape (ks : list nat) (s s' : state) :
  exec (DoTransfer <$> ks) s = Some s' →
  erl s' = erl s ∧ held s' = held s ∧
  ends <$> routines s' = ends <$> routines s ∧
  progress (routines s') = progress (routines s) + Z.of_nat (length ks).
Proof.
  revert s. induction ks as [|k ks IH]; intros s.
  - intros [= <-]. split_and!; try done. simpl. lia.
  - rewrite fmap_cons. cbn [exec]. destruct (step (DoTransfer k) s) as [s1|] eqn:Hs; [| done].
    cbn [mbind option_bind]. intros Hrest.
    apply step_transfer_shape in Hs as (He & Hh & Hr & Hp).
    apply IH in Hrest as (He' & Hh' & Hr' & Hp').
    split_and!; [congruence | congruence | congruence |].
    rewrite Hp', Hp. simpl length. lia.
Qed.

Lemma progress_bound (R : Z) (n : nat) (r : list transfer) :
  (∀ t, t ∈ r → wf_transfer R n t) → progress r <= 2 * R * Z.of_nat (length r).
Proof.
  induction r as [|t r IH]; intros Hwf; simpl; [unfold progress; simpl; lia |].
  assert (progress r <= 2 * R * Z.of_nat (length r)) as Hr.
  { apply IH. intros x Hx. apply Hwf. by apply list_elem_of_further. }
  destruct (Hwf t (list_elem_of_here _ _)) as (_ & Hi & Hc & _).
  unfold progress in *. simpl.
  destruct (t_carry t); [specialize (Hc eq_refl) |]; lia.
Qed.

(** Either no goroutine can move, or one of them can take a step. *)
Lemma quiesced_or_step (s : state) :
  quiesced s ∨ ∃ k s', step (DoTransfer k) s = Some s'.
Proof.
  unfold quiesced.
  destruct (decide (Forall (λ t, transfer_step t (chans s) = None) (routines s)))
    as [Hall | Hex]; [by left | right].
  apply not_Forall_Exists in Hex; [| apply _].
  apply Exists_exists in Hex as (t & [k Hk]%list_elem_of_lookup & Hstep).
  destruct (transfer_step t (chans s)) as [[t' h']|] eqn:Ht; [| done].
  exists k. eexists. simpl. rewrite Hk. simpl. rewrite Ht. simpl. done.
Qed.

(** Left to themselves the goroutines come to rest: from a state of the
    invariant some run of theirs ends with none able to move. *)
Lemma transfers_terminate (M R : Z) (s : state) :
  Inv M R s → ∃ ks s', exec (DoTransfer <$> ks) s = Some s' ∧ quiesced s'.
Proof.
  intros HInv.
  remember (Z.to_nat (2 * R * Z.of_nat (length (routines s)) - progress (routines s))) as fuel eqn:Hf.
  revert s HInv Hf. induction fuel as [fuel IH] using lt_wf_ind. intros s HInv Hf.
  destruct (quiesced_or_step s) as [Hq | (k & s1 & Hs)].
  { exists [], s. done. }
  pose proof (step_Inv M R _ _ _ HInv Hs) as HInv1.
  pose proof (step_transfer_shape _ _ _ Hs) as (_ & _ & Hends & Hprog).
  assert (length (routines s1) = length (routines s)) as Hlen.
  { by rewrite <- (length_fmap ends (routines s1)), Hends, length_fmap. }
  pose proof (progress_bound R _ _
    (ic_routines _ _ _ _ _ _ (proj2 (proj2 (proj2 (proj2 (proj2 HInv1))))))) as Hb.
  destruct (IH (Z.to_nat (2 * R * Z.of_nat (length (routines s1)) - progress (routines s1))))
    with (s := s1) as (ks & s' & Hrun & Hq); [| done | done |].
  { rewrite Hlen in *. lia. }
  exists (k :: ks), s'. split; [| done]. rewrite fmap_cons. cbn [exec]. rewrite Hs. done.
Qed.

(** C8 (open and close).  On a freshly constructed limiter call
    [openReservation] for a client and later [closeReservation] for the
    same client, with nothing in between or after but steps of the transfer
    goroutines.  The goroutines make at most [4 * CapacityPerReservation]
    channel operations, they can always run on until none can move, and
    when none can move the shared channel holds [MaxCapacity] tokens again
    and every goroutine has finished; if the reservation was opened, the
    two goroutines have each moved [CapacityPerReservation] tokens, one
    receive and one send per token, and the closed reservation is empty. *)
Theorem open_close_round_trip (M R : Z) (m : option CM) (k1 k2 : Counter) (c : ErlClient)
    (s0 s1 s2 s3 : state) (res : option qref * option erl_error) (ks1 ks2 : list nat) :
  is_int M → is_int R →
  NewElasticRateLimiter M R m k1 k2 = Some s0 →
  openReservation c s0 = (Returns res, s1) →
  exec (DoTransfer <$> ks1) s1 = Some s2 →
  exec (DoTransfer <$> ks2) (closeReservation c s2) = Some s3 →
  Z.of_nat (length ks1 + length ks2) <= 4 * R ∧
  (∃ ks3 s4, exec (DoTransfer <$> ks3) s3 = Some s4 ∧ quiesced s4) ∧
  (quiesced s3 →
   shared_tokens s3 = M ∧
   Forall finished (routines s3) ∧
   (res.2 = None →
    ∃ q, res.1 = Some q ∧
      routines s3 = [Transfer 0%nat q R R false; Transfer q 0%nat R R false] ∧
      tokens q (chans s3) = 0 ∧
      Z.of_nat (length ks1 + length ks2) = 4 * R)).
Proof.
  intros HiM HiR Hnew Hopen Hrun1 Hrun2.
  pose proof (NewElasticRateLimiter_Inv M R m k1 k2 s0 HiM HiR Hnew) as HInv0.
  apply NewElasticRateLimiter_Some in Hnew as [HM0 ->].
  destruct (openReservation_cases M R c _ HInv0) as
    [(err & Hop & Hwhy) | [[Hop _] | (_ & Hroom & HR0 & Hop)]];
    rewrite Hop in Hopen; simplify_eq/=.
  - (* the reservation could not be opened: nothing moves *)
    destruct Hwhy as [[? Hwhy] | Hwhy]; [by rewrite lookup_empty in Hwhy |].
    rewrite map_size_empty in Hwhy.
    pose proof (exec_transfer_shape _ _ _ Hrun1) as (He1 & _ & Hr1 & Hp1). simpl in *.
    apply fmap_nil_inv in Hr1. rewrite Hr1 in Hp1. unfold progress in Hp1. simpl in Hp1.
    assert (ks1 = []) as -> by (destruct ks1; [done | simpl in Hp1; lia]).
    simpl in Hrun1. simplify_eq. unfold closeReservation in Hrun2. simpl in Hrun2.
    rewrite lookup_empty in Hrun2.
    pose proof (exec_transfer_shape _ _ _ Hrun2) as (He2 & _ & Hr2 & Hp2). simpl in *.
    apply fmap_nil_inv in Hr2. rewrite Hr2 in Hp2. unfold progress in Hp2. simpl in Hp2.
    assert (ks2 = []) as -> by (destruct ks2; [done | simpl in Hp2; lia]).
    simpl in Hrun2. simplify_eq. split_and!.
    + simpl. lia.
    + exists []. eexists. split; [done | by constructor].
    + intros _. split_and!; [done | by constructor | done].
  - (* the reservation was opened *)
    set (q := 1%nat) in *.
    assert (Inv M R s2) as HInv2.
    { eapply exec_Inv; [| exact Hrun1].
      eapply (step_Inv M R (DoOpen c)); [exact HInv0 |]. simpl. by rewrite Hop. }
    pose proof (exec_transfer_shape _ _ _ Hrun1) as (He1 & Hh1 & Hr1 & Hp1). simpl in *.
    assert (capacityByClient (erl s2) !! c = Some q) as Hc2.
    { rewrite He1. simpl. by rewrite lookup_insert_eq. }
    assert (closeReservation c s2 =
      set_routines (routines s2 ++ [Transfer q 0%nat R 0 false])
        (set_erl (set_capacityByClient (delete c (capacityByClient (erl s2))) (erl s2)) s2)) as Hclose.
    { unfold closeReservation. rewrite Hc2, He1. simpl. done. }
    assert (Inv M R s3) as HInv3.
    { eapply exec_Inv; [| exact Hrun2]. by eapply (step_Inv M R (DoClose c)). }
    pose proof (exec_transfer_shape _ _ _ Hrun2) as (He3 & Hh3 & Hr3 & Hp3).
    rewrite Hclose in He3, Hh3, Hr3, Hp3. simpl in He3, Hh3, Hr3, Hp3.
    rewrite fmap_app, Hr1 in Hr3. simpl in Hr3.
    unfold progress in Hp3, Hp1. rewrite sumZ_app in Hp3. simpl in Hp3, Hp1.
    fold (progress (routines s2)) in Hp3, Hp1. fold (progress (routines s3)) in Hp3.
    destruct (routines s3) as [|t1 [|t2 [|? ?]]] eqn:Hrs; try done.
    simpl in Hr3, Hp3. injection Hr3 as Ef1 Eo1 En1 Ef2 Eo2 En2.
    pose proof HInv3 as (_ & _ & Hsh3 & _ & _ & HI3).
    assert (capacityByClient (erl s3) = ∅) as Hmap3.
    { rewrite He3, He1. simpl. by rewrite delete_insert_eq, delete_empty. }
    pose proof (ic_routines _ _ _ _ _ _ HI3) as Hwf. rewrite Hrs in Hwf.
    destruct (Hwf t1 ltac:(by apply list_elem_of_here)) as (Hn1 & Hi1 & Hc1 & He1').
    destruct (Hwf t2 ltac:(by apply list_elem_of_further, list_elem_of_here))
      as (Hn2 & Hi2 & Hc2' & He2').
    destruct t1 as [f1 o1 n1 i1 y1], t2 as [f2 o2 n2 i2 y2]. simpl in *.
    clear Hn1 Hn2. subst f1 o1 n1 f2 o2 n2.
    assert (0 < q < length (chans s3))%nat as Hlen3 by (unfold q in *; lia).
    clear He1' He2'.
    split_and!.
    + unfold progress in Hp1, Hp3. simpl in Hp3. rewrite Nat2Z.inj_add.
      destruct y1; [specialize (Hc1 eq_refl) |]; (destruct y2; [specialize (Hc2' eq_refl) |]); lia.
    + by eapply transfers_terminate.
    + intros Hqu.
      pose proof (quiesced_reservation_tokens M R s3 HInv3 Hqu) as Hsum.
      pose proof (quiesced_carried M R s3 HInv3 Hqu) as Hcar.
      pose proof (ic_total _ _ _ _ _ _ HI3) as Htot.
      unfold reservation_tokens in Hsum. rewrite Hmap3, map_fold_empty in Hsum.
      rewrite Hh3, Hh1 in Htot. simpl in Htot.
      rewrite Hrs in Hcar, Htot. unfold carried in Hcar, Htot. simpl in Hcar, Htot.
      assert (y1 = false ∧ y2 = false) as [-> ->] by (destruct y1, y2; split; (done || lia)).
      assert (shared_tokens s3 = M) as HshM by lia.
      assert (tokens q (chans s3) = 0) as Hq0.
      { apply (quiesced_closed_empty M R); [done | done | done |].
        intros c'. rewrite Hmap3. by rewrite lookup_empty. }
      assert (i1 = R) as ->.
      { pose proof (quiesced_elem s3 _ Hqu
          ltac:(rewrite Hrs; apply list_elem_of_here)) as Hstep.
        unfold transfer_step in Hstep. simpl in Hstep.
        destruct (i1 <? R) eqn:Hlt; [| lia]. exfalso.
        unfold blockingConsume, try_recv in Hstep.
        destruct (ic_shared _ _ _ _ _ _ HI3) as [n Hn]. rewrite Hn in Hstep. simpl in Hstep.
        unfold shared_tokens in HshM. rewrite Hsh3, (tokens_lookup _ _ _ Hn) in HshM.
        simpl in HshM. destruct (0 <? n) eqn:Hpos; [done |].
        rewrite map_size_empty in Hroom. lia. }
      assert (i2 = R) as ->.
      { pose proof (ic_balance _ _ _ _ _ _ HI3 q Hlen3) as Hbal.
        rewrite Hq0, Hh3, Hh1, Hrs in Hbal. unfold guards_on, outof, into in Hbal.
        simpl in Hbal. lia. }
      split_and!; [done | | ].
      * repeat constructor; simpl; lia.
      * intros _. exists q. split_and!; [done | done | done |].
        unfold progress in Hp1, Hp3. simpl in Hp3. lia.
Qed.

(** ** The congestion manager's claims *)

Lemma first_after_kept (l : list Time) (cutoff : Time) (i : nat) :
  match first_after l cutoff i with
  | Some j => (i ≤ j)%nat ∧ drop (j - i) l = kept l cutoff
  | None => kept l cutoff = []
  end.
Proof.
  revert i. induction l as [|t l IH]; intros i; simpl; [done |].
  destruct (After t cutoff).
  - split; [lia |]. by rewrite Nat.sub_diag.
  - specialize (IH (S i)). destruct (first_after l cutoff (S i)) as [j|]; [| done].
    destruct IH as [Hle Hdrop]. split; [lia |].
    replace (j - i)%nat with (S (j - S i)) by lia. done.
Qed.

Lemma prune_kept (l : list Time) (cutoff : Time) :
  prune (Some l) cutoff = (Some (kept l cutoff), Z.of_nat (length (kept l cutoff))).
Proof.
  unfold prune. pose proof (first_after_kept l cutoff 0) as Hk.
  destruct (first_after l cutoff 0) as [j|].
  - destruct Hk as [_ Hk]. rewrite Nat.sub_0_r in Hk. by rewrite Hk.
  - rewrite Hk. by rewrite take_0.
Qed.

Lemma kept_suffix (l : list Time) (cutoff : Time) :
  ∃ pre, l = pre ++ kept l cutoff ∧ Forall (λ t, t <= cutoff) pre.
Proof.
  induction l as [|t l (pre & Hl & Hpre)]; simpl.
  - exists []. done.
  - unfold After. destruct (cutoff <? t) eqn:Ht.
    + exists []. done.
    + exists (t :: pre). split; [simpl; congruence |]. constructor; [lia | done].
Qed.

Lemma kept_sorted (l : list Time) (cutoff : Time) :
  Sorted Z.le l → kept l cutoff = filter (λ t, cutoff < t) l.
Proof.
  intros Hs%Sorted_StronglySorted; [| intros x y z; lia].
  induction Hs as [|t l Hs IH Hall]; simpl; [done |].
  unfold After. destruct (cutoff <? t) eqn:Ht.
  - rewrite filter_cons_True by lia. f_equal.
    symmetry. clear IH Hs. induction Hall as [|x l Hx Hall IH]; [done |].
    rewrite filter_cons_True by lia. by rewrite IH.
  - rewrite filter_cons_False by lia. done.
Qed.

(** C9 (prune).  For timestamps in non-decreasing order, [prune] leaves the
    list equal to its elements after the cutoff, which are a suffix of it
    behind elements that are not after the cutoff, and returns how many
    there are; for a nil pointer it returns 0. *)
Theorem prune_postcondition (l : list Time) (cutoff : Time) :
  Sorted Z.le l →
  prune (Some l) cutoff =
    (Some (filter (λ t, cutoff < t) l), Z.of_nat (length (filter (λ t, cutoff < t) l))) ∧
  (∃ pre, l = pre ++ filter (λ t, cutoff < t) l ∧ Forall (λ t, t <= cutoff) pre) ∧
  prune None cutoff = (None, 0).
Proof.
  intros Hs. rewrite prune_kept, (kept_sorted l cutoff Hs). split_and!; [done | | done].
  rewrite <- (kept_sorted l cutoff Hs). apply kept_suffix.
Qed.

(** The conversion of an integer other than zero is a finite number other
    than zero, or an infinity: rounding to 53 bits shifts a mantissa by
    fewer bits than it has. *)
Lemma shr_1_pos (r : shr_record) (m : positive) :
  shr_m r = Z.pos m → 1 < Z.pos (digits2_pos m) →
  ∃ m', shr_m (shr_1 r) = Z.pos m' ∧ Z.pos (digits2_pos m') = Z.pos (digits2_pos m) - 1.
Proof.
  destruct r as [x b1 b2]. simpl. intros -> Hd.
  destruct m as [p | p |]; simpl in *; [exists p | exists p | lia]; split; first [done | lia].
Qed.

Lemma shr_iter_pos (n : positive) (r : shr_record) (m : positive) :
  shr_m r = Z.pos m → Z.pos n < Z.pos (digits2_pos m) →
  ∃ m', shr_m (SpecFloat.iter_pos shr_1 n r) = Z.pos m' ∧
    Z.pos (digits2_pos m') = Z.pos (digits2_pos m) - Z.pos n.
Proof.
  revert r m. induction n as [n IH | n IH |]; intros r m Hr Hn; cbn [SpecFloat.iter_pos].
  - destruct (shr_1_pos r m Hr) as (m1 & H1 & D1); [lia |].
    destruct (IH _ m1 H1) as (m2 & H2 & D2); [lia |].
    destruct (IH _ m2 H2) as (m3 & H3 & D3); [lia |].
    exists m3. split; [done | lia].
  - destruct (IH _ m Hr) as (m2 & H2 & D2); [lia |].
    destruct (IH _ m2 H2) as (m3 & H3 & D3); [lia |].
    exists m3. split; [done | lia].
  - destruct (shr_1_pos r m Hr) as (m1 & H1 & D1); [lia |]. exists m1. split; [done | lia].
Qed.

Lemma shr_fexp_pos (m : positive) (e : Z) (l : location) :
  -1074 <= e →
  ∃ m', shr_m (shr_fexp 53 1024 (Z.pos m) e l).1 = Z.pos m' ∧
        -1074 <= (shr_fexp 53 1024 (Z.pos m) e l).2.
Proof.
  intros He. unfold shr_fexp, shr, fexp, emin. cbn [Zdigits2].
  assert (shr_m (shr_record_of_loc (Z.pos m) l) = Z.pos m) as Hm by (by destruct l as [|[]]).
  destruct (Z.max (Z.pos (digits2_pos m) + e - 53) (3 - 1024 - 53) - e) as [|n|n] eqn:Hn; cbn [fst snd].
  - by exists m.
  - destruct (shr_iter_pos n _ m Hm) as (m' & H' & _); [lia |]. exists m'. split; [done | lia].
  - by exists m.
Qed.

Lemma binary_round_aux_pos (s : bool) (m : positive) (e : Z) (l : location) :
  -1074 <= e →
  (∃ m' e', binary_round_aux 53 1024 s (Z.pos m) e l = S754_finite s m' e') ∨
  binary_round_aux 53 1024 s (Z.pos m) e l = S754_infinity s.
Proof.
  intros He. unfold binary_round_aux.
  destruct (shr_fexp_pos m e l He) as (m1 & H1 & He1).
  destruct (shr_fexp 53 1024 (Z.pos m) e l) as [r1 e1]. cbn [fst snd] in H1, He1.
  assert (∃ m2, round_nearest_even (shr_m r1) (loc_of_shr_record r1) = Z.pos m2) as [m2 ->].
  { rewrite H1. unfold round_nearest_even.
    destruct (loc_of_shr_record r1) as [|[]].
    - by exists m1.
    - destruct (Z.even (Z.pos m1)); [by exists m1 | by exists (m1 + 1)%positive].
    - by exists m1.
    - by exists (m1 + 1)%positive. }
  destruct (shr_fexp_pos m2 e1 loc_Exact He1) as (m3 & H3 & _).
  destruct (shr_fexp 53 1024 (Z.pos m2) e1 loc_Exact) as [r3 e3]. cbn [fst snd] in H3.
  rewrite H3. destruct (e3 <=? 1024 - 53); [left; by exists m3, e3 | by right].
Qed.

Lemma f64_of_int_nonzero (n : Z) :
  n ≠ 0 →
  ∃ s, (∃ m e, f64_of_int n = S754_finite s m e) ∨ f64_of_int n = S754_infinity s.
Proof.
  intros Hn. unfold f64_of_int, binary_normalize.
  assert (∀ s p, (∃ m e, binary_round 53 1024 s p 0 = S754_finite s m e) ∨
                 binary_round 53 1024 s p 0 = S754_infinity s) as Hround.
  { intros s p. unfold binary_round, shl_align, fexp, emin.
    destruct (Z.max (Z.pos (digits2_pos p) + 0 - 53) (3 - 1024 - 53) - 0) as [|d|d] eqn:Hd;
      apply binary_round_aux_pos; lia. }
  destruct n as [|p|p]; [done | exists false | exists true]; apply Hround.
Qed.

Lemma f64_zero_div (n : Z) :
  n ≠ 0 → f64_eqb (f64_div (f64_of_int 0) (f64_of_int n)) f64_zero = true.
Proof.
  intros Hn. destruct (f64_of_int_nonzero n Hn) as [s [(m & e & ->) | ->]]; by destruct s.
Qed.

(** C4 (drop formula).  The arrival rate of a client is zero for a nil
    list, and for a list the number of its timestamps divided by the whole
    seconds of the window.  [shouldDrop] answers false, without drawing a
    random number, when that rate compares equal to zero, as it does for a
    nil list and, the window having at least one whole second, for an
    empty list; otherwise it draws [r] and answers whether the rate raised
    to [exp] divided by the target rate raised to [exp] is greater than
    [r]. *)
Theorem drop_formula (cm : redCongestionManager) (targetRate : float64) (c : ErlClient)
    (l : list Time) (g : rng) :
  arrivalRateFor cm None = f64_zero ∧
  arrivalRateFor cm (Some l) =
    f64_div (f64_of_int (Z.of_nat (length l))) (f64_of_int (window cm ÷ Second)) ∧
  shouldDrop cm targetRate c None g = (false, g) ∧
  shouldDrop cm targetRate c (Some l) g =
    (let client_rate :=
       f64_div (f64_of_int (Z.of_nat (length l))) (f64_of_int (window cm ÷ Second)) in
     if f64_eqb client_rate f64_zero then (false, g)
     else (f64_ltb (Float64 g).1
             (f64_div (Pow client_rate (exp cm)) (Pow targetRate (exp cm))),
           (Float64 g).2)) ∧
  (window cm ÷ Second ≠ 0 → shouldDrop cm targetRate c (Some []) g = (false, g)).
Proof.
  split_and!; [done | done | done | |].
  - unfold shouldDrop, arrivalRateFor. cbv zeta.
    destruct (f64_eqb _ f64_zero); [done |]. by destruct (Float64 g).
  - intros Hw. unfold shouldDrop, arrivalRateFor. cbn [length].
    change (Z.of_nat 0) with 0. by rewrite (f64_zero_div _ Hw).
Qed.

Lemma f64_pos_not_zero (x : float64) : f64_ltb f64_zero x = true → f64_eqb x f64_zero = false.
Proof. destruct x as [s | s | | s m e]; try done; destruct s; done. Qed.

(** A positive number divided by [+0] is [+Inf]. *)
Lemma f64_div_pos_zero (x : float64) :
  f64_ltb f64_zero x = true → f64_div x f64_zero = S754_infinity false.
Proof. destruct x as [s | s | | s m e]; try done; destruct s; done. Qed.

Lemma f64_lt_one_lt_inf (r : float64) :
  f64_ltb r f64_one = true → f64_ltb r (S754_infinity false) = true.
Proof. destruct r as [s | s | | s m e]; try done; destruct s; done. Qed.

(** C5 (zero target).  Let the arrival rate of the client's list be greater
    than zero and the target rate be zero.  Given of [math.Pow] that zero
    raised to [exp] is zero and that the arrival rate raised to [exp] is
    greater than zero, [shouldDrop] answers true for every draw [r] below
    one. *)
Theorem zero_target_always_drops (cm : redCongestionManager) (c : ErlClient)
    (arrivals : option (list Time)) (g : rng) :
  f64_ltb f64_zero (arrivalRateFor cm arrivals) = true →
  Pow f64_zero (exp cm) = f64_zero →
  f64_ltb f64_zero (Pow (arrivalRateFor cm arrivals) (exp cm)) = true →
  f64_leb f64_zero (Float64 g).1 = true →
  f64_ltb (Float64 g).1 f64_one = true →
  shouldDrop cm f64_zero c arrivals g = (true, (Float64 g).2).
Proof.
  intros Hrate Hpow0 Hpow _ Hr. unfold shouldDrop.
  rewrite (f64_pos_not_zero _ Hrate), Hpow0.
  destruct (Float64 g) as [r g']. simpl in *.
  by rewrite (f64_div_pos_zero _ Hpow), (f64_lt_one_lt_inf _ Hr).
Qed.

Lemma prune_clients_omap (cutoff : Time) (m : gmap ErlClient (list Time)) :
  prune_clients cutoff m = omap (prune_entry cutoff) m.
Proof.
  apply map_eq. intros k. rewrite lookup_omap. unfold prune_clients.
  pose proof (map_fold_weak_ind
    (λ (r m' : gmap ErlClient (list Time)),
       ∀ k, r !! k = match m' !! k with
                     | Some _ => m !! k ≫= prune_entry cutoff
                     | None => m !! k
                     end)
    (λ c (_ : list Time) acc,
      let '(ts, n) := prune (acc !! c) cutoff in
      if n =? 0 then delete c acc
      else match ts with Some l => <[c := l]> acc | None => acc end) m) as Hind.
  simpl in Hind. rewrite Hind.
  - destruct (m !! k); done.
  - intros j. by rewrite lookup_empty.
  - clear k. intros i x m' r Hi Hr k.
    pose proof (Hr i) as Hri. rewrite Hi in Hri. rewrite Hri.
    destruct (m !! i) as [ts|] eqn:Hmi.
    + rewrite prune_kept. unfold prune_entry at 1.
      destruct (kept ts cutoff) as [|t l] eqn:Hk; simpl.
      * rewrite lookup_delete, lookup_insert. case_decide; subst.
        -- rewrite Hmi. simpl. unfold prune_entry. by rewrite Hk.
        -- apply Hr.
      * rewrite !lookup_insert. case_decide; subst.
        -- rewrite Hmi. simpl. unfold prune_entry. by rewrite Hk.
        -- apply Hr.
    + simpl. rewrite lookup_delete, lookup_insert. case_decide; subst.
      * by rewrite Hmi.
      * apply Hr.
Qed.

(** C6 (target rate).  In an iteration of [run] that ends with the tick
    counter at zero or with [exit] set, the served list and every client's
    list have been pruned to the window, the clients left without a
    timestamp are gone from the map, and the target rate is zero when no
    client remains and otherwise the number of served timestamps divided by
    the whole seconds of the window, divided by the number of clients. *)
Theorem target_rate_recomputation (cm cm' : redCongestionManager) (r : ready)
    (now now' : Time) (l l' : locals) (reply : option bool) (g g' : rng) :
  run_iteration cm r now now' l g = Some (cm', l', reply, g') →
  tick l' = 0 ∨ exit l' = true →
  ∃ cm1 l1,
    receive cm r now l g = Some (cm1, l1, reply, g') ∧
    l_serves l' = kept (l_serves l1) (cutoff_at cm now') ∧
    l_consumedByClient l' = omap (prune_entry (cutoff_at cm now')) (l_consumedByClient l1) ∧
    l_targetRate l' =
      if decide (size (l_consumedByClient l') = 0%nat) then f64_zero
      else f64_div
             (f64_div (f64_of_int (Z.of_nat (length (l_serves l'))))
                      (f64_of_int (window cm ÷ Second)))
             (f64_of_int (Z.of_nat (size (l_consumedByClient l')))).
Proof.
  unfold run_iteration. intros Hrun Hwrap.
  destruct (receive cm r now l g) as [[[[cm1 l1] reply1] g1]|]; simpl in Hrun; [| done].
  destruct (targetRateRefreshTicks cm =? 0); [done |].
  set (tick1 := Z.rem (wrap_int (tick l1 + 1)) (targetRateRefreshTicks cm)) in *.
  set (l2 := Locals tick1 (l_targetRate l1) (l_consumedByClient l1) (l_serves l1) (exit l1)) in *.
  match type of Hrun with
  | (if exit ?x then _ else _) = _ => set (l3 := x) in *
  end.
  assert (l' = l3 ∧ reply1 = reply ∧ g1 = g') as (-> & -> & ->).
  { destruct (exit l3); by simplify_eq. }
  clear Hrun. exists cm1, l1. split; [done |].
  assert ((tick1 =? 0) || exit l1 = true) as Hcond.
  { destruct ((tick1 =? 0) || exit l1) eqn:Hc; [done |]. subst l3.
    apply orb_false_iff in Hc as [Ht He]. simpl in Hwrap. destruct Hwrap; [lia | congruence]. }
  subst l3. rewrite Hcond. clear Hwrap.
  unfold recompute. rewrite prune_kept, prune_clients_omap.
  cbn [fst default l_serves l_consumedByClient l_targetRate from_option]. subst l2. cbn [l_serves l_consumedByClient].
  split_and!; [done | done |].
  case_decide as Hsz.
  - by rewrite Hsz.
  - destruct (0 <? Z.of_nat (size _)) eqn:Hpos; [done | lia].
Qed.

(** ** More about the limiter *)

Lemma reachable_Inv (M R : Z) (m : option CM) (k1 k2 : Counter)
    (evs : list event) (s0 s : state) (calls : list call) :
  is_int M → is_int R →
  NewElasticRateLimiter M R m k1 k2 = Some s0 →
  history evs (s0, []) = Some (s, calls) →
  Inv M R s.
Proof.
  intros HiM HiR Hnew Hhist.
  apply (history_Inv M R evs (s0, []) (s, calls)); [| done].
  by eapply NewElasticRateLimiter_Inv.
Qed.

Lemma carried_nonneg (r : list transfer) : 0 <= carried r.
Proof. apply sumZ_nonneg. intros t _. destruct (t_carry t); lia. Qed.

Lemma guards_on_le_length (q : qref) (g : list ErlCapacityGuard) :
  guards_on q g <= Z.of_nat (length g).
Proof.
  induction g as [|x g IH]; simpl; [done |].
  unfold guards_on in *. simpl. case_decide; lia.
Qed.

(** X1.  At every moment, quiesced or not, the tokens in all channels, the
    guards handed out and the tokens the goroutines carry between two
    channels make [MaxCapacity]; so never more than [MaxCapacity] guards
    are out. *)
Theorem tokens_accounted (M R : Z) (m : option CM) (k1 k2 : Counter)
    (evs : list event) (s0 s : state) (calls : list call) :
  is_int M → is_int R →
  NewElasticRateLimiter M R m k1 k2 = Some s0 →
  history evs (s0, []) = Some (s, calls) →
  heap_tokens (chans s) + outstanding s + carried (routines s) = M ∧
  0 <= heap_tokens (chans s) ∧
  outstanding s <= M ∧
  carried (routines s) <= M.
Proof.
  intros HiM HiR Hnew Hhist.
  destruct (reachable_Inv M R m k1 k2 evs s0 s calls HiM HiR Hnew Hhist)
    as (_ & _ & _ & _ & _ & HI).
  pose proof (ic_total _ _ _ _ _ _ HI) as Htot.
  pose proof (carried_nonneg (routines s)).
  assert (0 <= heap_tokens (chans s)).
  { apply sumZ_nonneg. intros c [q Hq]%list_elem_of_lookup.
    destruct (ic_chan _ _ _ _ _ _ HI q c Hq). lia. }
  unfold outstanding. lia.
Qed.

(** X2.  No channel is overdrawn: the tokens in a channel plus the guards
    taken from it never exceed its size, [MaxCapacity] for the shared
    channel and [CapacityPerReservation] for a reservation. *)
Theorem channel_never_overdrawn (M R : Z) (m : option CM) (k1 k2 : Counter)
    (evs : list event) (s0 s : state) (calls : list call) (q : qref) (c : chan) :
  is_int M → is_int R →
  NewElasticRateLimiter M R m k1 k2 = Some s0 →
  history evs (s0, []) = Some (s, calls) →
  chans s !! q = Some c →
  0 <= qlen c ∧
  qlen c + guards_on q (held s) <= qcap c ∧
  qcap c = (if decide (q = sharedCapacity (erl s)) then M else R).
Proof.
  intros HiM HiR Hnew Hhist Hc.
  destruct (reachable_Inv M R m k1 k2 evs s0 s calls HiM HiR Hnew Hhist)
    as (_ & _ & Hsh & _ & _ & HI).
  destruct (ic_chan _ _ _ _ _ _ HI q c Hc) as [Hlen Hcap]. rewrite Hsh.
  split; [lia |]. case_decide as Hq.
  - subst q. destruct (ic_shared _ _ _ _ _ _ HI) as [n Hn].
    rewrite Hc in Hn. injection Hn as ->. simpl.
    split; [| done].
    pose proof (heap_tokens_ge _ _ _ _ _ _ _ _ HI Hc) as Hge. simpl in Hge.
    pose proof (ic_total _ _ _ _ _ _ HI).
    pose proof (carried_nonneg (routines s)).
    pose proof (guards_on_le_length 0%nat (held s)). lia.
  - split; [| by apply Hcap].
    rewrite Hcap by done.
    pose proof (lookup_lt_Some _ _ _ Hc).
    pose proof (ic_balance _ _ _ _ _ _ HI q ltac:(lia)) as Hbal.
    rewrite (tokens_lookup _ _ _ Hc) in Hbal.
    assert (0 <= R) by (rewrite <- Hcap by done; lia).
    pose proof (into_le R _ q _ ltac:(done) (ic_routines _ _ _ _ _ _ HI)
                  (ic_opener _ _ _ _ _ _ HI q ltac:(lia))).
    pose proof (outof_nonneg R _ q _ (ic_routines _ _ _ _ _ _ HI)). lia.
Qed.

(** X3.  [Release] of a guard that is held never returns its error: the
    channel of the guard has room, and takes the token back. *)
Theorem release_never_fails (M R : Z) (m : option CM) (k1 k2 : Counter)
    (evs : list event) (s0 s : state) (calls : list call) (g : ErlCapacityGuard) :
  is_int M → is_int R →
  NewElasticRateLimiter M R m k1 k2 = Some s0 →
  history evs (s0, []) = Some (s, calls) →
  g ∈ held s →
  ∃ q h', cq g = Some q ∧ Release g (chans s) = (None, h') ∧
    tokens q h' = tokens q (chans s) + 1 ∧
    ∀ q', q' ≠ q → tokens q' h' = tokens q' (chans s).
Proof.
  intros HiM HiR Hnew Hhist Hg.
  pose proof (reachable_Inv M R m k1 k2 evs s0 s calls HiM HiR Hnew Hhist) as HInv.
  destruct (Release_succeeds M R s g HInv Hg) as [h' Hrel].
  destruct HInv as (_ & _ & _ & _ & _ & HI).
  destruct (ic_held _ _ _ _ _ _ HI g Hg) as (q & Hq & _).
  exists q, h'. split; [done |]. split; [done |].
  unfold Release in Hrel. rewrite Hq in Hrel. simpl in Hrel.
  destruct (try_send q (chans s)) as [h1|] eqn:Hsend; [| done]. simplify_eq.
  apply try_send_Some in Hsend as (c & Hc & _ & ->). split.
  - rewrite (tokens_insert _ _ _ c) by done. rewrite decide_True by done.
    by rewrite (tokens_lookup _ _ _ Hc).
  - intros q' Hq'. rewrite (tokens_insert _ _ _ c) by done. by rewrite decide_False.
Qed.

Lemma try_recv_None_iff (q : qref) (h : heap) :
  try_recv q h = None ↔ tokens q h <= 0.
Proof.
  unfold try_recv, tokens. destruct (h !! q) as [c|]; simpl; [| done].
  destruct (0 <? qlen c) eqn:E; split; (done || lia).
Qed.

Lemma recv_send_restores (q : qref) (h h' : heap) :
  try_recv q h = Some h' →
  (∀ c, h !! q = Some c → qlen c <= qcap c) →
  try_send q h' = Some h.
Proof.
  intros (c & Hc & Hpos & ->)%try_recv_Some Hwf. specialize (Hwf c Hc).
  pose proof (lookup_lt_Some _ _ _ Hc) as Hlt.
  unfold try_send. rewrite list_lookup_insert_eq by done. simpl.
  destruct (qlen c - 1 <? qcap c) eqn:E; [| lia]. f_equal.
  rewrite list_insert_insert_eq. replace (qlen c - 1 + 1) with (qlen c) by lia.
  apply list_insert_id. by destruct c.
Qed.

(** X4.  Taking and giving back: when [ConsumeCapacity] returns a guard,
    or a waiting first admission receives its token, an immediate
    [Release] of that guard succeeds and leaves every channel as it was
    before the take. *)
Theorem consume_release_round_trip (M R : Z) (m : option CM) (k1 k2 : Counter)
    (evs : list event) (s0 s : state) (calls : list call) :
  is_int M → is_int R →
  NewElasticRateLimiter M R m k1 k2 = Some s0 →
  history evs (s0, []) = Some (s, calls) →
  (∀ c now g s', ConsumeCapacity c now s = (Returns (g, None), s') →
     Release g (chans s') = (None, chans s)) ∧
  (∀ q g s', ConsumeCapacity_wake q s = Some (g, s') →
     Release g (chans s') = (None, chans s)).
Proof.
  intros HiM HiR Hnew Hhist.
  destruct (reachable_Inv M R m k1 k2 evs s0 s calls HiM HiR Hnew Hhist)
    as (_ & _ & _ & _ & _ & HI).
  assert (∀ q h', try_recv q (chans s) = Some h' →
            Release (Guard (Some q) true) h' = (None, chans s)) as Hback.
  { intros q h' Hq. unfold Release. simpl.
    rewrite (recv_send_restores q (chans s) h' Hq); [done |].
    intros c Hc. destruct (ic_chan _ _ _ _ _ _ HI q c Hc). lia. }
  split.
  - intros c now g s'. unfold ConsumeCapacity.
    destruct (capacityByClient (erl s) !! c) as [q|].
    + unfold consume. destruct (try_recv q (chans s)) as [h'|] eqn:Hq.
      { intros [= <- <-]. simpl. by apply Hback. }
      destruct (gate c (enableCM (erl s)) (erl s)) as [[] e1]; [done |].
      destruct (try_recv (sharedCapacity e1) (chans s)) as [h'|] eqn:Hq'; [| done].
      intros [= <- <-]. simpl. by apply Hback.
    + destruct (openReservation c s) as [[[q [err|]] | | q] s1]; done.
  - intros q g s'. unfold ConsumeCapacity_wake, blockingConsume.
    destruct q as [q|]; simpl; [| done].
    destruct (try_recv q (chans s)) as [h'|] eqn:Hq; simpl; [| done].
    intros [= <- <-]. simpl. by apply Hback.
Qed.

(** X5.  A goroutine that is between its receive and its send is never
    blocked: its next step is the send, which completes the move of one
    token. *)
Theorem carrying_never_blocked (M R : Z) (m : option CM) (k1 k2 : Counter)
    (evs : list event) (s0 s : state) (calls : list call) (t : transfer) :
  is_int M → is_int R →
  NewElasticRateLimiter M R m k1 k2 = Some s0 →
  history evs (s0, []) = Some (s, calls) →
  t ∈ routines s → t_carry t = true →
  ∃ t' h', transfer_step t (chans s) = Some (t', h') ∧
    t_carry t' = false ∧ t_i t' = t_i t + 1 ∧ t_i t' <= t_n t' ∧
    tokens (t_to t) h' = tokens (t_to t) (chans s) + 1.
Proof.
  intros HiM HiR Hnew Hhist Ht Hcarry.
  pose proof (reachable_Inv M R m k1 k2 evs s0 s calls HiM HiR Hnew Hhist) as HInv.
  destruct (carrying_can_send M R s t HInv Ht Hcarry) as [[t' h'] Hstep].
  exists t', h'. split; [done |].
  destruct HInv as (_ & _ & _ & _ & _ & HI).
  destruct (ic_routines _ _ _ _ _ _ HI t Ht) as (Hn & _ & Hlt & _). specialize (Hlt Hcarry).
  unfold transfer_step, blockingRelease in Hstep. rewrite Hcarry in Hstep.
  destruct (try_send (t_to t) (chans s)) as [h1|] eqn:Hsend; simplify_eq/=.
  split_and!; [done | done | lia |].
  apply try_send_Some in Hsend as (c & Hc & _ & ->).
  rewrite (tokens_insert _ _ _ c) by done. rewrite decide_True by done.
  by rewrite (tokens_lookup _ _ _ Hc).
Qed.

(** X6.  An admission that fails takes nothing: with an error
    [ConsumeCapacity] returns the zero guard and leaves the channels, the
    goroutines, the map and the registered callbacks as they were.  The
    zero guard is of no use: its [Release] returns the error, and its
    [Served] dereferences a nil pointer. *)
Theorem failed_admission_takes_nothing (c : ErlClient) (now now' : Time) (s s' : state)
    (g : ErlCapacityGuard) (err : erl_error) :
  ConsumeCapacity c now s = (Returns (g, Some err), s') →
  g = zero_guard ∧
  chans s' = chans s ∧ routines s' = routines s ∧
  capacityByClient (erl s') = capacityByClient (erl s) ∧
  closers s' = closers s ∧
  Release g (chans s') = (Some (ErrCouldNotReplace None), chans s') ∧
  Served g now' (erl s') = None.
Proof.
  unfold ConsumeCapacity.
  destruct (capacityByClient (erl s) !! c) as [q|] eqn:Hc.
  - unfold consume. destruct (try_recv q (chans s)) as [h'|]; [done |].
    destruct (gate c (enableCM (erl s)) (erl s)) as [d e1] eqn:Hg.
    apply gate_fields in Hg as (_ & _ & _ & Hmap & _).
    destruct d.
    + intros [= <- <- <-]. by rewrite <- Hmap.
    + destruct (try_recv (sharedCapacity e1) (chans s)) as [h'|]; [done |].
      intros [= <- <- <-]. by rewrite <- Hmap.
  - unfold openReservation. rewrite Hc.
    destruct (_ <? CapacityPerReservation (erl s)).
    + intros [= <- <- <-]. done.
    + destruct (make_chan (CapacityPerReservation (erl s)) (chans s)) as [[q h]|]; done.
Qed.

(** X7.  When [ConsumeCapacity] refuses for congestion: exactly when the
    client has a reservation with no token in it, a manager is attached,
    congestion control is on and the manager says drop.  The shared
    channel is not looked at, and but for the manager's state and the
    congestion counter nothing changes. *)
Theorem congestion_drop_characterised (c : ErlClient) (now : Time) (s s' : state)
    (g : ErlCapacityGuard) :
  ConsumeCapacity c now s = (Returns (g, Some ErrCongestion), s') ↔
  ∃ q m, capacityByClient (erl s) !! c = Some q ∧ tokens q (chans s) <= 0 ∧
    cm (erl s) = Some m ∧ enableCM (erl s) = true ∧ (cmShouldDrop c m).1 = true ∧
    g = zero_guard ∧
    s' = set_erl (set_congestionControlCounter (Inc (congestionControlCounter (erl s)))
                    (set_cm (Some (cmShouldDrop c m).2) (erl s))) s.
Proof.
  unfold ConsumeCapacity. split.
  - destruct (capacityByClient (erl s) !! c) as [q|] eqn:Hc.
    + unfold consume. destruct (try_recv q (chans s)) as [h'|] eqn:Hq; [done |].
      apply try_recv_None_iff in Hq. unfold gate.
      destruct (cm (erl s)) as [m|] eqn:Hm.
      * destruct (enableCM (erl s)) eqn:He.
        -- destruct (cmShouldDrop c m) as [d m'] eqn:Hd. destruct d.
           ++ intros [= <- <-]. exists q, m. by rewrite Hd.
           ++ simpl. destruct (try_recv (sharedCapacity (erl s)) (chans s)); done.
        -- destruct (try_recv (sharedCapacity (erl s)) (chans s)); done.
      * destruct (try_recv (sharedCapacity (erl s)) (chans s)); done.
    + unfold openReservation. rewrite Hc.
      destruct (_ <? CapacityPerReservation (erl s)); [done |].
      destruct (make_chan (CapacityPerReservation (erl s)) (chans s)) as [[q h]|]; done.
  - intros (q & m & Hc & Hq & Hm & He & Hd & -> & ->).
    rewrite Hc. unfold consume. apply try_recv_None_iff in Hq. rewrite Hq.
    unfold gate. rewrite Hm, He. destruct (cmShouldDrop c m) as [d m']. simpl in Hd.
    by subst d.
Qed.

Lemma gate_off (c : ErlClient) (e : ElasticRateLimiter) : gate c false e = (false, e).
Proof. unfold gate. by destruct (cm e). Qed.

Lemma ConsumeCapacity_off (c : ErlClient) (now : Time) (s s' : state)
    (o : outcome (ErlCapacityGuard * option erl_error)) :
  enableCM (erl s) = false → ConsumeCapacity c now s = (o, s') →
  enableCM (erl s') = false ∧
  congestionControlCounter (erl s') = congestionControlCounter (erl s) ∧
  ∀ g, o ≠ Returns (g, Some ErrCongestion).
Proof.
  intros He. unfold ConsumeCapacity. rewrite He.
  destruct (capacityByClient (erl s) !! c) as [q|] eqn:Hc.
  - unfold consume. destruct (try_recv q (chans s)) as [h'|].
    { intros [= <- <-]. done. }
    rewrite gate_off.
    destruct (try_recv (sharedCapacity (erl s)) (chans s)) as [h'|];
      intros [= <- <-]; done.
  - unfold openReservation. rewrite Hc.
    destruct (_ <? CapacityPerReservation (erl s)).
    { intros [= <- <-]. done. }
    destruct (make_chan (CapacityPerReservation (erl s)) (chans s)) as [[q h]|];
      intros [= <- <-]; done.
Qed.

Lemma step_off (l : label) (s s' : state) :
  l ≠ DoEnable → enableCM (erl s) = false → step l s = Some s' →
  enableCM (erl s') = false ∧
  congestionControlCounter (erl s') = congestionControlCounter (erl s).
Proof.
  intros Hl He. destruct l as [c now | k | k | k now | c | c | | | k]; simpl.
  - destruct (ConsumeCapacity c now s) as [o s1] eqn:Hcc.
    destruct (ConsumeCapacity_off c now s s1 o He Hcc) as (? & ? & _).
    destruct o as [[g [err|]] | | q]; intros ?; by simplify_eq.
  - destruct (parked s !! k) as [q|]; simpl; [| done].
    unfold blockingConsume. destruct (try_recv q (chans s)); simpl; [| done].
    by intros [= <-].
  - destruct (held s !! k) as [g|]; simpl; [| done].
    destruct (Release g (chans s)) as [[err|] h]; by intros [= <-].
  - destruct (held s !! k) as [g|]; simpl; [| done].
    unfold Served. destruct (gcm g); simpl; [| done]. by intros [= <-].
  - unfold openReservation. destruct (capacityByClient (erl s) !! c).
    { by intros [= <-]. }
    destruct (_ <? CapacityPerReservation (erl s)).
    { by intros [= <-]. }
    destruct (make_chan (CapacityPerReservation (erl s)) (chans s)) as [[q h]|];
      [| done]. by intros [= <-].
  - unfold closeReservation. destruct (capacityByClient (erl s) !! c) as [q|].
    + destruct (decide (q = sharedCapacity (erl s))); by intros [= <-].
    + by intros [= <-].
  - done.
  - by intros [= <-].
  - destruct (routines s !! k) as [t|]; simpl; [| done].
    destruct (transfer_step t (chans s)) as [[t' h]|]; simpl; [| done].
    by intros [= <-].
Qed.

Lemma advance_off (cl : call) (now : Time) (s : state) :
  enableCM (erl s) = false → read_off cl →
  match advance cl now s with
  | Ends o s' =>
    enableCM (erl s') = false ∧
    congestionControlCounter (erl s') = congestionControlCounter (erl s) ∧
    ∀ g, o ≠ Returns (g, Some ErrCongestion)
  | Goes cl' s' =>
    enableCM (erl s') = false ∧
    congestionControlCounter (erl s') = congestionControlCounter (erl s) ∧
    read_off cl'
  end.
Proof.
  intros He Hcl. destruct cl as [c | c q e | c e | c]; simpl in *.
  - unfold openReservation. destruct (capacityByClient (erl s) !! c); [done |].
    destruct (_ <? CapacityPerReservation (erl s)); [done |].
    destruct (make_chan (CapacityPerReservation (erl s)) (chans s)) as [[q h]|]; done.
  - unfold consume. destruct (try_recv q (chans s)); done.
  - subst e. by rewrite gate_off.
  - unfold consume. destruct (try_recv (sharedCapacity (erl s)) (chans s)); done.
Qed.

Lemma history_off (evs : list event) (s s' : state) (calls calls' : list call) :
  Atomic DoEnable ∉ evs → enableCM (erl s) = false → Forall read_off calls →
  history evs (s, calls) = Some (s', calls') →
  enableCM (erl s') = false ∧
  congestionControlCounter (erl s') = congestionControlCounter (erl s) ∧
  Forall read_off calls'.
Proof.
  revert s calls. induction evs as [|ev evs IH]; intros s calls Hno He Hcalls; cbn [history].
  - by intros [= <- <-].
  - apply not_elem_of_cons in Hno as [Hev Hno].
    destruct (react ev (s, calls)) as [[s1 calls1]|] eqn:Hs; [| done].
    cbn [mbind option_bind]. intros Hh.
    assert (enableCM (erl s1) = false ∧
            congestionControlCounter (erl s1) = congestionControlCounter (erl s) ∧
            Forall read_off calls1) as (He1 & Hk1 & Hcalls1).
    { destruct ev as [l | c | k now]; simpl in Hs.
      - destruct (step l s) as [s2|] eqn:Hst; simplify_eq/=.
        destruct (step_off l s s1) as [? ?]; [congruence | done | done |]. done.
      - injection Hs as <- <-. split_and!; [done | done |].
        apply Forall_app. split; [done |]. apply Forall_singleton.
        unfold enter. destruct (capacityByClient (erl s) !! c); simpl; done.
      - destruct (calls !! k) as [cl|] eqn:Hk; simpl in Hs; [| done].
        assert (read_off cl) as Hcl.
        { rewrite Forall_forall in Hcalls. apply Hcalls. by eapply list_elem_of_lookup_2. }
        pose proof (advance_off cl now s He Hcl) as Hadv.
        destruct (advance cl now s) as [[[g [err|]] | | q] s2 | cl' s2];
          simplify_eq/=; destruct Hadv as (? & ? & ?);
          (split_and!; [done | done |]);
          try (by apply Forall_delete).
        by apply Forall_insert. }
    destruct (IH s1 calls1 Hno He1 Hcalls1 Hh) as (? & ? & ?).
    split_and!; [done | congruence | done].
Qed.

(** X8.  Congestion control is off until it is switched on: in a run
    without [EnableCongestionControl] the flag stays off, the congestion
    counter is never incremented, and no [ConsumeCapacity], started now
    or in progress, refuses for congestion. *)
Theorem congestion_control_off_by_default (M R : Z) (m : option CM) (k1 k2 : Counter)
    (evs : list event) (s0 s : state) (calls : list call) :
  NewElasticRateLimiter M R m k1 k2 = Some s0 →
  history evs (s0, []) = Some (s, calls) →
  Atomic DoEnable ∉ evs →
  enableCM (erl s) = false ∧ congestionControlCounter (erl s) = k2 ∧
  (∀ c now g s', ConsumeCapacity c now s ≠ (Returns (g, Some ErrCongestion), s')) ∧
  (∀ k cl now g s', calls !! k = Some cl →
     advance cl now s ≠ Ends (Returns (g, Some ErrCongestion)) s').
Proof.
  intros [_ ->]%NewElasticRateLimiter_Some Hhist Hno.
  destruct (λ He0, history_off evs _ s [] calls Hno He0 (Forall_nil_2 _) Hhist)
    as (He & Hk & Hcalls); [done |].
  split_and!; [done | done | |].
  - intros c now g s' Hcc.
    destruct (ConsumeCapacity_off c now s s' _ He Hcc) as (_ & _ & Hne). by apply (Hne g).
  - intros k cl now g s' Hcl Hadv.
    assert (read_off cl) as Hro.
    { rewrite Forall_forall in Hcalls. apply Hcalls. by eapply list_elem_of_lookup_2. }
    pose proof (advance_off cl now s He Hro) as H'. rewrite Hadv in H'.
    destruct H' as (_ & _ & Hne). by apply (Hne g).
Qed.

(** X9.  [closeReservation] can be called again: the second call of the
    same client changes nothing.  No call of it touches a channel, a guard
    or the flag, and for a client without a reservation it does nothing. *)
Theorem closeReservation_idempotent (c : ErlClient) (s : state) :
  closeReservation c (closeReservation c s) = closeReservation c s ∧
  chans (closeReservation c s) = chans s ∧
  held (closeReservation c s) = held s ∧
  cm (erl (closeReservation c s)) = cm (erl s) ∧
  (capacityByClient (erl s) !! c = None → closeReservation c s = s) ∧
  (∀ c', c' ≠ c →
     capacityByClient (erl (closeReservation c s)) !! c' = capacityByClient (erl s) !! c').
Proof.
  destruct (capacityByClient (erl s) !! c) as [q|] eqn:Hc.
  - destruct (decide (q = sharedCapacity (erl s))) as [Hq | Hq].
    + assert (closeReservation c s = s) as E.
      { unfold closeReservation. by rewrite Hc, decide_True. }
      rewrite !E. split_and!; done.
    + assert (closeReservation c s =
        set_routines (routines s ++
            [Transfer q (sharedCapacity (erl s)) (CapacityPerReservation (erl s)) 0 false])
          (set_erl (set_capacityByClient (delete c (capacityByClient (erl s))) (erl s)) s)) as E.
      { unfold closeReservation. by rewrite Hc, decide_False. }
      rewrite !E. split_and!; try done.
      * unfold closeReservation. simpl. by rewrite lookup_delete_eq.
      * intros c' Hne. simpl. by rewrite lookup_delete_ne.
  - assert (closeReservation c s = s) as E.
    { unfold closeReservation. by rewrite Hc. }
    rewrite !E. split_and!; done.
Qed.

(** X10.  The guard clause [q == erl.sharedCapacity] of [closeReservation]
    never fires: the map sends clients to channels of their own, of size
    [CapacityPerReservation], none of them the shared one.  So closing a
    client with a reservation always removes its entry and starts the
    goroutine that drains it. *)
Theorem reservations_are_private (M R : Z) (m : option CM) (k1 k2 : Counter)
    (evs : list event) (s0 s : state) (calls : list call) (c : ErlClient) (q : qref) :
  is_int M → is_int R →
  NewElasticRateLimiter M R m k1 k2 = Some s0 →
  history evs (s0, []) = Some (s, calls) →
  capacityByClient (erl s) !! c = Some q →
  q ≠ sharedCapacity (erl s) ∧
  (∃ n, chans s !! q = Some (Chan R n)) ∧
  (∀ c', capacityByClient (erl s) !! c' = Some q → c' = c) ∧
  capacityByClient (erl (closeReservation c s)) !! c = None ∧
  routines (closeReservation c s) =
    routines s ++ [Transfer q (sharedCapacity (erl s)) R 0 false].
Proof.
  intros HiM HiR Hnew Hhist Hc.
  destruct (reachable_Inv M R m k1 k2 evs s0 s calls HiM HiR Hnew Hhist)
    as (_ & HR & Hsh & _ & _ & HI).
  pose proof (ic_map _ _ _ _ _ _ HI c q Hc) as Hq.
  assert (q ≠ sharedCapacity (erl s)) as Hne by (rewrite Hsh; lia).
  split_and!.
  - done.
  - destruct (lookup_lt_is_Some_2 (chans s) q) as [[cap n] Hn]; [lia |].
    destruct (ic_chan _ _ _ _ _ _ HI q _ Hn) as [_ Hcap]. simpl in Hcap.
    exists n. rewrite Hn, Hcap by lia. done.
  - intros c' Hc'. by apply (ic_inj _ _ _ _ _ _ HI c' c q).
  - unfold closeReservation. rewrite Hc, decide_False by done. simpl.
    by rewrite lookup_delete_eq.
  - unfold closeReservation. rewrite Hc, decide_False by done. simpl. by rewrite HR.
Qed.

(** X11.  A first admission on a new limiter: the caller waits, and cannot
    go on before the goroutine of its reservation has moved a token;
    once the goroutine has taken one token from the shared channel and
    put it into the reservation, the caller receives it and holds a guard
    on its reservation.  The congestion manager hears nothing of it. *)
Theorem first_admission_completes (M R : Z) (m : option CM) (k1 k2 : Counter)
    (c : ErlClient) (now : Time) (s0 : state) :
  is_int M → 1 <= R <= M →
  NewElasticRateLimiter M R m k1 k2 = Some s0 →
  exec [DoConsume c now; DoWake 0] s0 = None ∧
  exec [DoConsume c now; DoTransfer 0; DoWake 0] s0 = None ∧
  exec [DoConsume c now; DoTransfer 0; DoTransfer 0; DoWake 0] s0 =
    Some (State (Erl M R 0%nat {[c := 1%nat]} k1 m false k2)
            [Chan M (M - 1); Chan R 0] [Transfer 0 1 R 1 false] [c]
            [Guard (Some 1%nat) true] []).
Proof.
  intros HiM HR [_ ->]%NewElasticRateLimiter_Some.
  assert (step (DoConsume c now) (State (Erl M R 0%nat ∅ k1 m false k2) [Chan M M] [] [] [] [])
          = Some (State (Erl M R 0%nat {[c := 1%nat]} k1 m false k2)
                    [Chan M M; Chan R 0] [Transfer 0 1 R 0 false] [c] [] [1%nat])) as E.
  { unfold step, ConsumeCapacity, openReservation. simpl.
    rewrite lookup_empty, map_size_empty, Z.mul_0_r.
    rewrite (wrap_int_small 0) by (unfold is_int, int_min, int_max; lia).
    rewrite Z.sub_0_r, wrap_int_small by done.
    destruct (M <? R) eqn:E1; [lia |]. unfold make_chan.
    destruct (R <? 0) eqn:E2; [lia |]. simpl. by rewrite insert_empty. }
  assert ((0 <? R) = true) as E1 by lia. assert ((0 <? M) = true) as E2 by lia.
  cbn [exec]. rewrite E. cbn [mbind option_bind].
  split_and!.
  - done.
  - simpl. unfold transfer_step, blockingConsume, try_recv. simpl.
    by rewrite E1, E2.
  - simpl. unfold transfer_step, ConsumeCapacity_wake, blockingConsume, blockingRelease,
      try_recv, try_send.
    repeat (rewrite ?E1, ?E2; simpl). done.
Qed.

(** X12.  With [reservedCapacity] zero no first admission ever returns.
    Every client not yet in the map gets a reservation without a buffer
    and waits on it, and in no later state can a caller waiting on a
    reservation go on. *)
Theorem zero_reservation_never_admits (M : Z) (m : option CM) (k1 k2 : Counter)
    (evs : list event) (s0 s : state) (calls : list call) :
  is_int M →
  NewElasticRateLimiter M 0 m k1 k2 = Some s0 →
  history evs (s0, []) = Some (s, calls) →
  (∀ c now, capacityByClient (erl s) !! c = None →
     ∃ s', ConsumeCapacity c now s = (Blocks (Some (length (chans s))), s') ∧
           length (chans s) ≠ sharedCapacity (erl s) ∧
           capacityByClient (erl s') !! c = Some (length (chans s))) ∧
  (∀ q, q ≠ sharedCapacity (erl s) → ConsumeCapacity_wake (Some q) s = None).
Proof.
  intros HiM Hnew Hhist.
  assert (is_int 0) as Hi0 by (unfold is_int, int_min, int_max; lia).
  pose proof (reachable_Inv M 0 m k1 k2 evs s0 s calls HiM Hi0 Hnew Hhist) as HInv.
  split.
  - intros c now Hc.
    destruct (openReservation_cases M 0 c s HInv)
      as [(err & _ & [[x Hx] | Hlt]) | [[_ Hneg] | (_ & _ & _ & Hopen)]].
    + congruence.
    + destruct HInv as (_ & _ & _ & _ & _ & HI).
      pose proof (InvC_M_nonneg _ _ _ _ _ _ HI). lia.
    + lia.
    + unfold ConsumeCapacity. rewrite Hc, Hopen. eexists. split; [done |].
      destruct HInv as (_ & _ & Hsh & _ & _ & HI). rewrite Hsh.
      destruct (ic_shared _ _ _ _ _ _ HI) as [n Hn].
      apply lookup_lt_Some in Hn. split; [lia |]. simpl. by rewrite lookup_insert_eq.
  - intros q Hq. destruct HInv as (_ & _ & Hsh & _ & _ & HI).
    unfold ConsumeCapacity_wake, blockingConsume, try_recv. simpl.
    destruct (chans s !! q) as [ch|] eqn:Hch; [| done].
    destruct (ic_chan _ _ _ _ _ _ HI q ch Hch) as [Hlen Hcap].
    rewrite Hsh in Hq. specialize (Hcap Hq).
    destruct (0 <? qlen ch) eqn:E; [lia | done].
Qed.

(** The guards handed out carry the pointer to the limiter's manager. *)
Lemma ConsumeCapacity_guard (c : ErlClient) (now : Time) (s s' : state)
    (o : outcome (ErlCapacityGuard * option erl_error)) :
  ConsumeCapacity c now s = (o, s') →
  held s' = held s ∧ ∀ g, o = Returns (g, None) → gcm g = true.
Proof.
  unfold ConsumeCapacity.
  destruct (capacityByClient (erl s) !! c) as [q|] eqn:Hc.
  - unfold consume. destruct (try_recv q (chans s)) as [h'|].
    { intros [= <- <-]. split; [done |]. by intros g [= <-]. }
    destruct (gate c (enableCM (erl s)) (erl s)) as [[] e1].
    { intros [= <- <-]. done. }
    destruct (try_recv (sharedCapacity e1) (chans s)) as [h'|]; intros [= <- <-];
      (split; [done |]); [by intros g [= <-] | done].
  - unfold openReservation. rewrite Hc.
    destruct (_ <? CapacityPerReservation (erl s)).
    { intros [= <- <-]. done. }
    destruct (make_chan (CapacityPerReservation (erl s)) (chans s)) as [[q h]|];
      intros [= <- <-]; done.
Qed.

Lemma step_guards (l : label) (s s' : state) :
  Forall (λ g, gcm g = true) (held s) → step l s = Some s' →
  Forall (λ g, gcm g = true) (held s').
Proof.
  intros Hg. destruct l as [c now | k | k | k now | c | c | | | k]; simpl.
  - destruct (ConsumeCapacity c now s) as [o s1] eqn:Hcc.
    destruct (ConsumeCapacity_guard c now s s1 o Hcc) as [Hheld Hret].
    destruct o as [[g [err|]] | | q]; intros ?; simplify_eq/=; rewrite ?Hheld; try done.
    apply Forall_app. split; [done |]. apply Forall_singleton. by apply Hret.
  - destruct (parked s !! k) as [q|]; simpl; [| done].
    unfold blockingConsume. destruct (try_recv q (chans s)); simpl; [| done].
    intros [= <-]. simpl. apply Forall_app. split; [done |]. by apply Forall_singleton.
  - destruct (held s !! k) as [g|]; simpl; [| done].
    destruct (Release g (chans s)) as [[err|] h]; intros [= <-]; [done |].
    simpl. by apply Forall_delete.
  - destruct (held s !! k) as [g|]; simpl; [| done].
    destruct (Served g now (erl s)); simpl; [| done]. by intros [= <-].
  - unfold openReservation. destruct (capacityByClient (erl s) !! c).
    { by intros [= <-]. }
    destruct (_ <? CapacityPerReservation (erl s)).
    { by intros [= <-]. }
    destruct (make_chan (CapacityPerReservation (erl s)) (chans s)) as [[q h]|];
      [| done]. by intros [= <-].
  - unfold closeReservation. destruct (capacityByClient (erl s) !! c) as [q|].
    + destruct (decide (q = sharedCapacity (erl s))); by intros [= <-].
    + by intros [= <-].
  - by intros [= <-].
  - by intros [= <-].
  - destruct (routines s !! k) as [t|]; simpl; [| done].
    destruct (transfer_step t (chans s)) as [[t' h]|]; simpl; [| done].
    by intros [= <-].
Qed.

Lemma advance_guards (cl : call) (now : Time) (s : state) :
  match advance cl now s with
  | Ends o s' => held s' = held s ∧ ∀ g, o = Returns (g, None) → gcm g = true
  | Goes _ s' => held s' = held s
  end.
Proof.
  destruct cl as [c | c q e | c e | c]; simpl.
  - unfold openReservation. destruct (capacityByClient (erl s) !! c); [done |].
    destruct (_ <? CapacityPerReservation (erl s)); [done |].
    destruct (make_chan (CapacityPerReservation (erl s)) (chans s)) as [[q h]|]; done.
  - unfold consume. destruct (try_recv q (chans s)); [| done].
    split; [done |]. by intros g [= <-].
  - destruct (gate c e (erl s)) as [[] e1]; done.
  - unfold consume. destruct (try_recv (sharedCapacity (erl s)) (chans s)); [| done].
    split; [done |]. by intros g [= <-].
Qed.

Lemma history_guards (evs : list event) (sc sc' : state * list call) :
  Forall (λ g, gcm g = true) (held sc.1) → history evs sc = Some sc' →
  Forall (λ g, gcm g = true) (held sc'.1).
Proof.
  revert sc. induction evs as [|ev evs IH]; intros [s calls] Hg; cbn [history].
  - by intros [= <-].
  - destruct (react ev (s, calls)) as [[s1 calls1]|] eqn:Hs; [| done].
    cbn [mbind option_bind]. apply IH. simpl in *.
    destruct ev as [l | c | k now]; simpl in Hs.
    + destruct (step l s) as [s2|] eqn:Hst; simplify_eq/=. by eapply step_guards.
    + by injection Hs as <- <-.
    + destruct (calls !! k) as [cl|]; simpl in Hs; [| done].
      pose proof (advance_guards cl now s) as Hadv.
      destruct (advance cl now s) as [o s2 | cl' s2].
      * destruct Hadv as [Hheld Hret].
        destruct o as [[g [err|]] | | q]; simplify_eq/=; rewrite ?Hheld; try done.
        apply Forall_app. split; [done |]. apply Forall_singleton. by apply Hret.
      * simplify_eq/=. by rewrite Hadv.
Qed.

(** X13.  [Served] never dereferences a nil pointer on a guard that was
    handed out: it passes the time on to the manager when one is attached
    and does nothing otherwise.  The channels and the rest of the limiter
    are not touched. *)
Theorem served_never_panics (M R : Z) (m : option CM) (k1 k2 : Counter)
    (evs : list event) (s0 s : state) (calls : list call) (g : ErlCapacityGuard) (now : Time) :
  NewElasticRateLimiter M R m k1 k2 = Some s0 →
  history evs (s0, []) = Some (s, calls) →
  g ∈ held s →
  Served g now (erl s) = Some (set_cm (cmServed now <$> cm (erl s)) (erl s)) ∧
  (cm (erl s) = None → Served g now (erl s) = Some (erl s)).
Proof.
  intros [_ ->]%NewElasticRateLimiter_Some Hhist Hg.
  pose proof (λ H0, history_guards evs _ (s, calls) H0 Hhist) as Hall.
  specialize (Hall (Forall_nil_2 _)). rewrite Forall_forall in Hall. specialize (Hall g Hg). simpl in Hall.
  unfold Served. rewrite Hall. split; [done |].
  intros Hcm. rewrite Hcm. simpl. f_equal. destruct (erl s); simpl in *. by subst.
Qed.

(** X14.  [openReservation] panics, in its [make], exactly when
    [reservedCapacity] is negative.  No client has a reservation then, so
    every [ConsumeCapacity] panics in its call of [openReservation],
    before it does anything else. *)
Theorem panics_iff_negative_reservation (M R : Z) (m : option CM) (k1 k2 : Counter)
    (evs : list event) (s0 s : state) (calls : list call) (c : ErlClient) (now : Time) :
  is_int M → is_int R →
  NewElasticRateLimiter M R m k1 k2 = Some s0 →
  history evs (s0, []) = Some (s, calls) →
  ((openReservation c s).1 = Panics ↔ R < 0) ∧
  (R < 0 → capacityByClient (erl s) = ∅ ∧ (ConsumeCapacity c now s).1 = Panics).
Proof.
  intros HiM HiR Hnew Hhist.
  pose proof (reachable_Inv M R m k1 k2 evs s0 s calls HiM HiR Hnew Hhist) as HInv.
  assert (R < 0 → capacityByClient (erl s) = ∅) as Hempty.
  { intros HR. destruct HInv as (_ & _ & _ & _ & _ & HI).
    apply map_size_empty_iff.
    destruct (decide (size (capacityByClient (erl s)) = 0%nat)) as [| Hn]; [done |].
    pose proof (InvC_R_nonneg _ _ _ _ _ _ HI Hn). lia. }
  assert ((openReservation c s).1 = Panics ↔ R < 0) as Hopen.
  { destruct (openReservation_cases M R c s HInv)
      as [(err & Hopen & Hwhy) | [[Hopen Hneg] | (_ & _ & Hpos & Hopen)]];
      rewrite Hopen; simpl.
    - split; [done | intros HR]. exfalso.
      rewrite (Hempty HR), lookup_empty, map_size_empty in Hwhy.
      destruct Hwhy as [[x Hx] | Hlt]; [done |].
      destruct HInv as (_ & _ & _ & _ & _ & HI).
      pose proof (InvC_M_nonneg _ _ _ _ _ _ HI). lia.
    - done.
    - split; [done | lia]. }
  split; [done |]. intros HR. split; [by apply Hempty |].
  apply Hopen in HR. unfold ConsumeCapacity.
  destruct (capacityByClient (erl s) !! c) as [q|] eqn:Hc.
  - exfalso. unfold openReservation in HR. by rewrite Hc in HR.
  - by destruct (openReservation c s) as [[[q [err|]] | | q] s1].
Qed.

(** X15.  A client whose reservation has been closed can open a new one at
    once: the room for it is there, and it gets a channel of its own, not
    the one being drained. *)
Theorem reopen_after_close (M R : Z) (m : option CM) (k1 k2 : Counter)
    (evs : list event) (s0 s : state) (calls : list call) (c : ErlClient) (q : qref) :
  is_int M → is_int R →
  NewElasticRateLimiter M R m k1 k2 = Some s0 →
  history evs (s0, []) = Some (s, calls) →
  capacityByClient (erl s) !! c = Some q →
  ∃ s', openReservation c (closeReservation c s) = (Returns (Some (length (chans s)), None), s') ∧
    length (chans s) ≠ q ∧
    capacityByClient (erl s') = <[c := length (chans s)]> (capacityByClient (erl s)) ∧
    chans s' = chans s ++ [Chan R 0] ∧
    routines s' = routines s ++
      [Transfer q (sharedCapacity (erl s)) R 0 false;
       Transfer (sharedCapacity (erl s)) (length (chans s)) R 0 false].
Proof.
  intros HiM HiR Hnew Hhist Hc.
  pose proof (reachable_Inv M R m k1 k2 evs s0 s calls HiM HiR Hnew Hhist) as HInv.
  assert (history (evs ++ [Atomic (DoClose c)]) (s0, []) = Some (closeReservation c s, calls))
    as Hhist'.
  { clear -Hhist. revert Hhist. generalize (s0, @nil call).
    induction evs as [|ev evs IH]; intros sc; cbn [history app].
    - by intros [= ->].
    - destruct (react ev sc) as [sc1|]; [| done]. cbn [mbind option_bind]. apply IH. }
  pose proof (reachable_Inv M R m k1 k2 _ s0 _ calls HiM HiR Hnew Hhist') as HInv'.
  destruct HInv as (_ & HR & Hsh & _ & _ & HI).
  pose proof (ic_map _ _ _ _ _ _ HI c q Hc) as Hq.
  assert (closeReservation c s =
    set_routines (routines s ++ [Transfer q (sharedCapacity (erl s)) R 0 false])
      (set_erl (set_capacityByClient (delete c (capacityByClient (erl s))) (erl s)) s)) as Hclose.
  { unfold closeReservation. rewrite Hc, decide_False, HR by (rewrite Hsh; lia). done. }
  destruct (openReservation_cases M R c _ HInv')
    as [(err & _ & [[x Hx] | Hlt]) | [[_ Hneg] | (_ & _ & _ & Hopen)]].
  - rewrite Hclose in Hx. simpl in Hx. by rewrite lookup_delete_eq in Hx.
  - rewrite Hclose in Hlt. simpl in Hlt.
    pose proof (ic_size _ _ _ _ _ _ HI) as Hsz.
    assert (size (capacityByClient (erl s)) ≠ 0%nat) as Hn.
    { apply (map_size_ne_0_lookup_2 _ c). by exists q. }
    rewrite map_size_delete, Hc in Hlt.
    pose proof (InvC_R_nonneg _ _ _ _ _ _ HI Hn). simpl in Hlt. nia.
  - assert (size (capacityByClient (erl s)) ≠ 0%nat) as Hn.
    { apply (map_size_ne_0_lookup_2 _ c). by exists q. }
    pose proof (InvC_R_nonneg _ _ _ _ _ _ HI Hn). lia.
  - rewrite Hopen, Hclose. simpl. eexists. split; [done |]. simpl.
    split_and!.
    + lia.
    + by rewrite insert_delete_eq.
    + done.
    + rewrite Hsh. by rewrite <- app_assoc.
Qed.

(** X16.  [NewElasticRateLimiter] panics, in [make], exactly for a
    negative [maxCapacity].  Otherwise its loop fills the shared channel
    to the brim, and the limiter starts with no reservation, no goroutine
    and congestion control off, whatever [reservedCapacity] is. *)
Theorem NewElasticRateLimiter_fills_shared (M R : Z) (m : option CM) (k1 k2 : Counter) :
  NewElasticRateLimiter M R m k1 k2 =
    if M <? 0 then None
    else Some (State (Erl M R 0%nat ∅ k1 m false k2) [Chan M M] [] [] [] []).
Proof.
  destruct (NewElasticRateLimiter M R m k1 k2) as [s|] eqn:Hnew.
  - apply NewElasticRateLimiter_Some in Hnew as [HM ->].
    destruct (M <? 0) eqn:E; [lia | done].
  - unfold NewElasticRateLimiter, make_chan in Hnew.
    destruct (M <? 0) eqn:E; [done |]. simpl in Hnew.
    rewrite (fill_spec _ M 0) in Hnew by lia. done.
Qed.

(** ** More about the congestion manager *)

Lemma kept_head (l : list Time) (cutoff t : Time) :
  head (kept l cutoff) = Some t → cutoff < t.
Proof.
  induction l as [|x l IH]; simpl; [done |].
  unfold After. destruct (cutoff <? x) eqn:E; [| done].
  simpl. intros [= <-]. lia.
Qed.

Lemma kept_idem (l : list Time) (cutoff : Time) :
  kept (kept l cutoff) cutoff = kept l cutoff.
Proof.
  induction l as [|x l IH]; simpl; [done |].
  destruct (After x cutoff) eqn:E; [| done]. simpl. by rewrite E.
Qed.

Lemma kept_nil (l : list Time) (cutoff : Time) :
  kept l cutoff = [] ↔ Forall (λ t, t <= cutoff) l.
Proof.
  induction l as [|x l IH]; simpl; [done |].
  unfold After. destruct (cutoff <? x) eqn:E.
  - split; [done |]. intros Hall. apply Forall_cons in Hall as [Hx _]. lia.
  - rewrite IH. split.
    + intros Hall. constructor; [lia | done].
    + by intros [_ Hall]%Forall_cons.
Qed.

(** X17.  [prune] on any list, sorted or not: it cuts off the longest
    prefix of timestamps not after the cutoff, so what is left is empty or
    starts with a timestamp after the cutoff, and is empty just when no
    timestamp is after the cutoff; the returned number is the length left.
    Pruning again with the same cutoff changes nothing. *)
Theorem prune_any_list (l : list Time) (cutoff : Time) :
  ∃ pre l', prune (Some l) cutoff = (Some l', Z.of_nat (length l')) ∧
    l = pre ++ l' ∧ Forall (λ t, t <= cutoff) pre ∧
    (∀ t, head l' = Some t → cutoff < t) ∧
    (l' = [] ↔ Forall (λ t, t <= cutoff) l) ∧
    prune (Some l') cutoff = (Some l', Z.of_nat (length l')).
Proof.
  destruct (kept_suffix l cutoff) as (pre & Hl & Hpre).
  exists pre, (kept l cutoff). split_and!.
  - apply prune_kept.
  - done.
  - done.
  - apply kept_head.
  - apply kept_nil.
  - by rewrite prune_kept, kept_idem.
Qed.

Lemma omap_size_le {A B : Type} (f : A → option B) (m : gmap ErlClient A) :
  (size (omap f m) ≤ size m)%nat.
Proof.
  induction m as [|i x m Hi _ IH] using map_first_key_ind.
  - by rewrite omap_empty.
  - rewrite omap_insert, map_size_insert_None by done.
    destruct (f x) as [y|].
    + rewrite map_size_insert_None by (by rewrite lookup_omap, Hi). lia.
    + rewrite delete_id by (by rewrite lookup_omap, Hi). lia.
Qed.

(** X18.  What the recomputation leaves of the clients: a client that
    stays has the rest of its list from the first timestamp after the
    cutoff on, which is not empty; a client that goes had no timestamp
    after the cutoff; no client is added.  The tick counter and [exit] are
    not touched. *)
Theorem recompute_leaves_active_clients (cm : redCongestionManager) (now : Time)
    (l : locals) (c : ErlClient) :
  tick (recompute cm now l) = tick l ∧ exit (recompute cm now l) = exit l ∧
  (size (l_consumedByClient (recompute cm now l)) ≤ size (l_consumedByClient l))%nat ∧
  match l_consumedByClient (recompute cm now l) !! c with
  | Some ts =>
    ∃ pre t ts', l_consumedByClient l !! c = Some (pre ++ ts) ∧ ts = t :: ts' ∧
      cutoff_at cm now < t ∧ Forall (λ x, x <= cutoff_at cm now) pre
  | None =>
    match l_consumedByClient l !! c with
    | Some old => Forall (λ x, x <= cutoff_at cm now) old
    | None => True
    end
  end.
Proof.
  unfold recompute. cbn [tick exit l_consumedByClient].
  rewrite prune_clients_omap. split_and!; [done | done | apply omap_size_le |].
  rewrite lookup_omap. destruct (l_consumedByClient l !! c) as [old|]; simpl; [| done].
  unfold prune_entry. destruct (kept old (cutoff_at cm now)) as [|t ts'] eqn:Hk.
  - by apply kept_nil.
  - destruct (kept_suffix old (cutoff_at cm now)) as (pre & Hold & Hpre).
    rewrite Hk in Hold. exists pre, t, ts'. split_and!; [by rewrite Hold | done | | done].
    apply (kept_head old). by rewrite Hk.
Qed.

Lemma f64_zero_eqb : f64_eqb f64_zero f64_zero = true.
Proof. done. Qed.

(** X19.  A query for a client the loop has no list of is answered false:
    no random number is drawn, and the client gets no entry in the map. *)
Theorem unseen_client_not_dropped (cm : redCongestionManager) (now now' : Time)
    (l : locals) (g : rng) (c : ErlClient) (queries : list ErlClient) :
  shouldDropQueries cm = c :: queries →
  l_consumedByClient l !! c = None →
  targetRateRefreshTicks cm ≠ 0 →
  ∃ cm' l', run_iteration cm RecvQuery now now' l g = Some (cm', l', Some false, g) ∧
    shouldDropQueries cm' = queries ∧ l_consumedByClient l' !! c = None.
Proof.
  intros Hq Hc Hn. unfold run_iteration, receive. rewrite Hq, Hc.
  cbn [prune fst]. rewrite Hc. unfold shouldDrop, arrivalRateFor. rewrite f64_zero_eqb.
  cbn [mbind option_bind]. destruct (targetRateRefreshTicks cm =? 0) eqn:E; [lia |].
  cbn [tick l_targetRate l_consumedByClient l_serves exit].
  match goal with
  | |- context [if exit ?x then _ else _] => set (l3 := x)
  end.
  assert (l_consumedByClient l3 !! c = None) as Hc3.
  { subst l3. destruct (_ || _); [| done].
    unfold recompute. cbn [l_consumedByClient]. rewrite prune_clients_omap, lookup_omap.
    by rewrite Hc. }
  destruct (exit l3); eexists _, l3; done.
Qed.

(** X20.  Cancellation: the iteration that receives from [ctx.Done()]
    recomputes whatever the tick counter is, stores the target rate, the
    map and the served list in the manager, clears [running] and sets
    [exit]; the three channels keep what they hold. *)
Theorem cancellation_stops_the_loop (cm : redCongestionManager) (now now' : Time)
    (l : locals) (g : rng) :
  targetRateRefreshTicks cm ≠ 0 →
  ∃ cm' l', run_iteration cm RecvDone now now' l g = Some (cm', l', None, g) ∧
    exit l' = true ∧ running cm' = false ∧
    l_serves l' = kept (l_serves l) (cutoff_at cm now') ∧
    l_consumedByClient l' = omap (prune_entry (cutoff_at cm now')) (l_consumedByClient l) ∧
    targetRate cm' = l_targetRate l' ∧
    consumedByClient cm' = l_consumedByClient l' ∧ serves cm' = l_serves l' ∧
    consumed cm' = consumed cm ∧ served cm' = served cm ∧
    shouldDropQueries cm' = shouldDropQueries cm.
Proof.
  intros Hn. unfold run_iteration, receive. cbn [mbind option_bind].
  destruct (targetRateRefreshTicks cm =? 0) eqn:E; [lia |].
  cbn [tick l_targetRate l_consumedByClient l_serves exit]. rewrite orb_true_r.
  unfold recompute. cbn [tick l_targetRate l_consumedByClient l_serves exit].
  rewrite prune_kept, prune_clients_omap. cbn [fst default from_option].
  eexists _, _. split_and!; done.
Qed.

(** X21.  While the loop runs the manager's own [targetRate],
    [consumedByClient] and [serves] are not written: an iteration that does
    not exit leaves them, and [running], as they were.  Such an iteration
    did not receive from [ctx.Done()], and unless its tick counter came to
    zero it leaves the target rate of the loop as it was. *)
Theorem fields_written_only_at_exit (cm cm' : redCongestionManager) (r : ready)
    (now now' : Time) (l l' : locals) (reply : option bool) (g g' : rng) :
  run_iteration cm r now now' l g = Some (cm', l', reply, g') →
  exit l' = false →
  targetRate cm' = targetRate cm ∧ consumedByClient cm' = consumedByClient cm ∧
  serves cm' = serves cm ∧ running cm' = running cm ∧
  r ≠ RecvDone ∧ exit l = false ∧
  tick l' = Z.rem (wrap_int (tick l + 1)) (targetRateRefreshTicks cm) ∧
  (tick l' ≠ 0 → l_targetRate l' = l_targetRate l).
Proof.
  unfold run_iteration. intros Hrun Hexit.
  destruct (receive cm r now l g) as [[[[cm1 l1] reply1] g1]|] eqn:Hrecv;
    cbn [mbind option_bind] in Hrun; [| done].
  destruct (targetRateRefreshTicks cm =? 0); [done |].
  assert (targetRate cm1 = targetRate cm ∧ consumedByClient cm1 = consumedByClient cm ∧
          serves cm1 = serves cm ∧ running cm1 = running cm ∧
          tick l1 = tick l ∧ l_targetRate l1 = l_targetRate l ∧
          (exit l1 = false → r ≠ RecvDone ∧ exit l = false)) as (? & ? & ? & ? & Ht & Hr & He).
  { unfold receive in Hrecv. destruct r.
    - destruct (consumed cm) as [|[c t] rest]; [done |]. by simplify_eq.
    - destruct (served cm) as [|t rest]; [done |]. by simplify_eq.
    - destruct (shouldDropQueries cm) as [|c rest]; [done |].
      destruct (shouldDrop _ _ _ _ _) as [d g2]. by simplify_eq.
    - by simplify_eq. }
  cbn [tick l_targetRate l_consumedByClient l_serves exit] in Hrun.
  set (tick1 := Z.rem (wrap_int (tick l1 + 1)) (targetRateRefreshTicks cm)) in *.
  match type of Hrun with
  | (if exit ?x then _ else _) = _ => set (l3 := x) in *
  end.
  assert (exit l3 = exit l1 ∧ tick l3 = tick1 ∧
          (tick1 ≠ 0 → exit l1 = false → l_targetRate l3 = l_targetRate l1))
    as (He3 & Ht3 & Hr3).
  { subst l3. destruct (tick1 =? 0) eqn:E; simpl.
    - split_and!; [done | done | lia].
    - destruct (exit l1); simpl; done. }
  destruct (exit l3) eqn:Hx.
  - injection Hrun as Hcm Hl Hrep Hg. rewrite <- Hl in Hexit. congruence.
  - injection Hrun as Hcm Hl Hrep Hg. rewrite <- Hl, <- Hcm.
    symmetry in He3. destruct (He He3) as [? ?].
    split_and!; try done.
    + rewrite Ht3. unfold tick1. by rewrite Ht.
    + intros Hne. rewrite Hr3; [done | by rewrite <- Ht3 | done].
Qed.

(** X22.  Events are received in the order they were sent: when the
    [consumed] channel has room, an event sent by [Consumed] goes behind
    those pending.  With the channel empty it is the next one received,
    and its time is appended to the list of its client; otherwise the
    loop receives what it would have received without it. *)
Theorem consumed_events_in_order (cm : redCongestionManager) (c : ErlClient) (t : Time)
    (now : Time) (l : locals) (g : rng) :
  Z.of_nat (length (consumed cm)) < chan_room →
  match receive cm RecvConsumed now l g with
  | Some (cm1, l1, reply, g1) =>
    receive (redConsumed c t cm) RecvConsumed now l g = Some (redConsumed c t cm1, l1, reply, g1)
  | None =>
    receive (redConsumed c t cm) RecvConsumed now l g =
      Some (cm,
            Locals (tick l) (l_targetRate l)
                   (<[c := default [] (l_consumedByClient l !! c) ++ [t]]> (l_consumedByClient l))
                   (l_serves l) (exit l),
            None, g) ∧
    consumed cm = []
  end.
Proof.
  intros Hroom. unfold receive, redConsumed.
  destruct (Z.of_nat (length (consumed cm)) <? chan_room) eqn:E; [| lia].
  destruct (consumed cm) as [|[c0 t0] pending] eqn:Hp; simpl.
  - split; [| done]. do 3 f_equal. destruct cm; simpl in *. by subst.
  - destruct (Z.of_nat (length pending) <? chan_room) eqn:E'; [done |].
    simpl in Hroom. lia.
Qed.

Lemma f64_div_zero_not_zero (x : float64) :
  f64_eqb (f64_div x f64_zero) f64_zero = false.
Proof. destruct x as [s | s | | s m e]; try done; destruct s; done. Qed.

(** X23.  A window shorter than a second: [cm.window/time.Second] is
    zero, so the arrival rate of a client with a list is a division by
    zero, which never compares equal to zero.  [shouldDrop] then takes no
    early exit for such a client, whatever its list holds, and always
    draws. *)
Theorem subsecond_window_always_draws (cm : redCongestionManager) (targetRate : float64)
    (c : ErlClient) (l : list Time) (g : rng) :
  window cm ÷ Second = 0 →
  f64_eqb (arrivalRateFor cm (Some l)) f64_zero = false ∧
  shouldDrop cm targetRate c (Some l) g =
    (f64_ltb (Float64 g).1
       (f64_div (Pow (arrivalRateFor cm (Some l)) (exp cm)) (Pow targetRate (exp cm))),
     (Float64 g).2).
Proof.
  intros Hw.
  assert (f64_eqb (arrivalRateFor cm (Some l)) f64_zero = false) as Hne.
  { unfold arrivalRateFor. rewrite Hw. apply f64_div_zero_not_zero. }
  split; [done |]. unfold shouldDrop. rewrite Hne. by destruct (Float64 g).
Qed.

(** ** Signed transactions *)

Lemma lxor_1_byte (b : Z) :
  0 <= b < 256 → 0 <= Z.lxor b 1 < 256 ∧ Z.lxor b 1 ≠ b.
Proof.
  intros Hb. assert (Z.lxor b 1 = if Z.even b then b + 1 else b - 1) as ->.
  { destruct b as [|p|p]; [done | | lia]. destruct p; done. }
  destruct (Z.even b) eqn:E; [| destruct b; [done | |]; lia].
  split; [| lia]. split; [lia |].
  assert (b ≠ 255) by (intros ->; done). lia.
Qed.

(** X24.  [MessUpSigForTesting] flips the lowest bit of the first byte of
    the signature and nothing else, so the signature is another one, and
    a second call restores it. *)
Theorem MessUpSigForTesting_flips_one_bit {A : Type} (stxn : SignedTxn A) (b : Z) (bs : list Z) :
  Sig stxn = b :: bs → 0 <= b < 256 →
  ∃ b' stxn', MessUpSigForTesting stxn = Some stxn' ∧
    Sig stxn' = (b' :: bs) ∧ rest stxn' = rest stxn ∧
    0 <= b' < 256 ∧ b' ≠ b ∧
    (∀ i, Z.testbit b' i = if i =? 0 then negb (Z.testbit b i) else Z.testbit b i) ∧
    MessUpSigForTesting stxn' = Some stxn.
Proof.
  intros Hs Hb. exists (Z.lxor b 1), (Stxn (Z.lxor b 1 :: bs) (rest stxn)).
  destruct (lxor_1_byte b Hb) as [Hr Hne].
  unfold MessUpSigForTesting. rewrite Hs. cbn [Sig rest]. split_and!; try done; try lia.
  - intros i. rewrite Z.lxor_spec. destruct (i =? 0) eqn:E.
    + apply Z.eqb_eq in E as ->. simpl. by destruct (Z.testbit b 0).
    + assert (Z.testbit 1 i = false) as -> by (by destruct i).
      by rewrite xorb_false_r.
  - rewrite Z.lxor_assoc, Z.lxor_nilpotent, Z.lxor_0_r.
    destruct stxn; simpl in *. by subst.
Qed.

End Facts.


(** * The claims at concrete inputs *)

Lemma is_int_4 : is_int 4.
Proof. unfold is_int, int_min, int_max. lia. Defined.

Lemma is_int_2 : is_int 2.
Proof. unfold is_int, int_min, int_max. lia. Defined.

Lemma demo_new : NewElasticRateLimiter (CM := list (cm_call nat)) 4 2 (Some []) (Some 0%nat) (Some 0%nat) = Some demo_s0.
Proof. reflexivity. Defined.

Lemma demo_history :
  history (CM_impl := demo_manager) demo_events (demo_s0, []) = Some (demo_s1, []).
Proof. vm_compute. reflexivity. Defined.

Lemma demo_quiesced : quiesced demo_s1.
Proof. repeat constructor. Defined.

Lemma token_conservation_witness :
  is_int 4 ∧ is_int 2 ∧
  NewElasticRateLimiter (CM := list (cm_call nat)) 4 2 (Some []) (Some 0%nat) (Some 0%nat) = Some demo_s0 ∧
  history (CM_impl := demo_manager) demo_events (demo_s0, []) = Some (demo_s1, []) ∧
  quiesced demo_s1 ∧
  (shared_tokens demo_s1 + reservation_tokens demo_s1 + outstanding demo_s1
     = MaxCapacity (erl demo_s1) ∧
   MaxCapacity (erl demo_s1) = 4 ∧
   heap_tokens (chans demo_s1) + outstanding demo_s1 = 4).
Proof.
  exact (conj is_int_4 (conj is_int_2 (conj demo_new (conj demo_history (conj demo_quiesced
    (token_conservation (CM_impl := demo_manager) 4 2 (Some []) (Some 0%nat) (Some 0%nat)
       demo_events demo_s0 demo_s1 [] is_int_4 is_int_2 demo_new demo_history demo_quiesced)))))).
Defined.

Lemma demo_history2 :
  history (CM_impl := demo_manager) (demo_events ++ [Atomic (DoConsume 8%nat 103)]) (demo_s0, [])
  = Some (demo_s2, []).
Proof. vm_compute. reflexivity. Defined.

Lemma overprovisioning_bound_witness :
  is_int 4 ∧ is_int 2 ∧
  NewElasticRateLimiter (CM := list (cm_call nat)) 4 2 (Some []) (Some 0%nat) (Some 0%nat) = Some demo_s0 ∧
  history (CM_impl := demo_manager) (demo_events ++ [Atomic (DoConsume 8%nat 103)]) (demo_s0, [])
    = Some (demo_s2, []) ∧
  (CapacityPerReservation (erl demo_s2) * Z.of_nat (size (capacityByClient (erl demo_s2)))
     <= MaxCapacity (erl demo_s2) ∧
   (MaxCapacity (erl demo_s2) -
      CapacityPerReservation (erl demo_s2) * Z.of_nat (size (capacityByClient (erl demo_s2)))
    < CapacityPerReservation (erl demo_s2) →
    ∃ err, openReservation 9%nat demo_s2 = (Returns (None, Some err), demo_s2)) ∧
   capacityByClient (erl (closeReservation 9%nat demo_s2)) ⊆ capacityByClient (erl demo_s2)).
Proof.
  exact (conj is_int_4 (conj is_int_2 (conj demo_new (conj demo_history2
    (overprovisioning_bound (CM_impl := demo_manager) 4 2 (Some []) (Some 0%nat) (Some 0%nat)
       (demo_events ++ [Atomic (DoConsume 8%nat 103)]) demo_s0 demo_s2 [] 9%nat
       is_int_4 is_int_2 demo_new demo_history2))))).
Defined.

Example third_reservation_refused :
  openReservation 9%nat demo_s2 = (Returns (None, Some (ErrNotEnoughCapacity 0 2)), demo_s2).
Proof. reflexivity. Qed.

Example close_removes_entry :
  capacityByClient (erl (closeReservation 7%nat demo_s2)) = {[8%nat := 2%nat]}.
Proof. vm_compute. reflexivity. Qed.

Lemma demo_reserved_cm : cm (erl demo_reserved) = None.
Proof. reflexivity. Defined.

Lemma demo_reserved_entry : capacityByClient (erl demo_reserved) !! 7%nat = Some 1%nat.
Proof. reflexivity. Defined.

Lemma demo_reserved_tokens : 0 < tokens 1 (chans demo_reserved).
Proof. reflexivity. Defined.

Lemma reservation_isolation_witness :
  cm (erl demo_reserved) = None ∧
  capacityByClient (erl demo_reserved) !! 7%nat = Some 1%nat ∧
  0 < tokens 1 (chans demo_reserved) ∧
  ∃ g s', ConsumeCapacity (CM_impl := demo_manager) 7%nat 100 demo_reserved = (Returns (g, None), s') ∧
    cq g = Some 1%nat ∧ tokens 1 (chans s') = tokens 1 (chans demo_reserved) - 1.
Proof.
  exact (conj demo_reserved_cm (conj demo_reserved_entry (conj demo_reserved_tokens
    (reservation_isolation (CM_impl := demo_manager) 7%nat 100 demo_reserved 1%nat
       demo_reserved_cm demo_reserved_entry demo_reserved_tokens)))).
Defined.

Lemma demo_gated_entry : capacityByClient (erl (demo_gated 0)) !! 7%nat = Some 1%nat.
Proof. reflexivity. Defined.

Lemma demo_gated_empty : tokens 1 (chans (demo_gated 0)) = 0.
Proof. reflexivity. Defined.

Lemma demo_gated_gate :
  gate (CM_impl := demo_manager) 7%nat (enableCM (erl (demo_gated 0))) (erl (demo_gated 0))
  = (false, demo_asked).
Proof. reflexivity. Defined.

Lemma shared_pool_fallback_witness :
  capacityByClient (erl (demo_gated 0)) !! 7%nat = Some 1%nat ∧
  tokens 1 (chans (demo_gated 0)) = 0 ∧
  gate (CM_impl := demo_manager) 7%nat (enableCM (erl (demo_gated 0))) (erl (demo_gated 0))
    = (false, demo_asked) ∧
  ∃ s', ConsumeCapacity (CM_impl := demo_manager) 7%nat 100 (demo_gated 0) =
          (Returns (zero_guard, Some (ErrCouldNotConsume 0%nat)), s') ∧
    chans s' = chans (demo_gated 0) ∧
    noCapacityCounter (erl s') = Some 1%nat.
Proof.
  refine (conj demo_gated_entry (conj demo_gated_empty (conj demo_gated_gate _))).
  destruct (proj1 (shared_pool_fallback (CM_impl := demo_manager) 7%nat 100 (demo_gated 0) 1%nat
                     demo_asked demo_gated_entry demo_gated_empty demo_gated_gate) eq_refl)
    as (s' & Hcall & Hchans & Hcount & _).
  exists s'. exact (conj Hcall (conj Hchans Hcount)).
Defined.

Example shared_token_taken :
  ConsumeCapacity (CM_impl := demo_manager) 7%nat 100 (demo_gated 3) =
    (Returns (Guard (Some 0%nat) true, None),
     State (Erl 4 2 0%nat {[7%nat := 1%nat]} (Some 0%nat)
              (Some [CallShouldDrop 7%nat; CallConsumed 7%nat 100]) true (Some 0%nat))
           [Chan 4 2; Chan 2 0] [Transfer 0 1 2 2 false] [7%nat] [] []).
Proof. vm_compute. reflexivity. Qed.

Lemma demo_first_entry : capacityByClient (erl demo_s0) !! 7%nat = None.
Proof. reflexivity. Defined.

Lemma demo_first_call :
  ConsumeCapacity (CM_impl := demo_manager) 7%nat 100 demo_s0 = (Blocks (Some 1%nat), demo_opened).
Proof. vm_compute. reflexivity. Defined.

Lemma first_admission_not_notified_witness :
  capacityByClient (erl demo_s0) !! 7%nat = None ∧
  ConsumeCapacity (CM_impl := demo_manager) 7%nat 100 demo_s0 = (Blocks (Some 1%nat), demo_opened) ∧
  cm (erl demo_opened) = cm (erl demo_s0).
Proof.
  exact (conj demo_first_entry (conj demo_first_call
    (proj1 (first_admission_not_notified (CM_impl := demo_manager) 7%nat 100 demo_s0 demo_opened
              (Blocks (Some 1%nat)) demo_first_entry demo_first_call)))).
Defined.

Lemma demo_open : openReservation 7%nat demo_s0 = (Returns (Some 1%nat, None), demo_open1).
Proof. vm_compute. reflexivity. Defined.

Lemma demo_run1 : exec (CM_impl := demo_manager) (DoTransfer <$> [0%nat]) demo_open1 = Some demo_open2.
Proof. vm_compute. reflexivity. Defined.

Lemma demo_run2 :
  exec (CM_impl := demo_manager) (DoTransfer <$> [0; 1; 1; 0; 0; 1; 1]%nat)
       (closeReservation 7%nat demo_open2) = Some demo_closed.
Proof. vm_compute. reflexivity. Defined.

Lemma demo_closed_quiesced : quiesced demo_closed.
Proof. repeat constructor. Defined.

Lemma open_close_round_trip_witness :
  is_int 4 ∧ is_int 2 ∧
  NewElasticRateLimiter (CM := list (cm_call nat)) 4 2 (Some []) (Some 0%nat) (Some 0%nat) = Some demo_s0 ∧
  openReservation 7%nat demo_s0 = (Returns (Some 1%nat, None), demo_open1) ∧
  exec (CM_impl := demo_manager) (DoTransfer <$> [0%nat]) demo_open1 = Some demo_open2 ∧
  exec (CM_impl := demo_manager) (DoTransfer <$> [0; 1; 1; 0; 0; 1; 1]%nat)
       (closeReservation 7%nat demo_open2) = Some demo_closed ∧
  quiesced demo_closed ∧
  shared_tokens demo_closed = 4 ∧ Forall finished (routines demo_closed).
Proof.
  refine (conj is_int_4 (conj is_int_2 (conj demo_new (conj demo_open (conj demo_run1
    (conj demo_run2 (conj demo_closed_quiesced _))))))).
  destruct (proj2 (proj2 (open_close_round_trip (CM_impl := demo_manager) 4 2 (Some [])
             (Some 0%nat) (Some 0%nat) 7%nat demo_s0 demo_open1 demo_open2 demo_closed
             (Some 1%nat, None) [0%nat] [0; 1; 1; 0; 0; 1; 1]%nat
             is_int_4 is_int_2 demo_new demo_open demo_run1 demo_run2)) demo_closed_quiesced)
    as (Hshared & Hdone & _).
  exact (conj Hshared Hdone).
Defined.

Lemma demo_rate_positive :
  f64_ltb f64_zero (arrivalRateFor demo_red (Some [1; 2; 3])) = true.
Proof. vm_compute. reflexivity. Defined.

Lemma demo_pow_zero : demo_Pow f64_zero (exp demo_red) = f64_zero.
Proof. vm_compute. reflexivity. Defined.

Lemma demo_pow_positive :
  f64_ltb f64_zero (demo_Pow (arrivalRateFor demo_red (Some [1; 2; 3])) (exp demo_red)) = true.
Proof. vm_compute. reflexivity. Defined.

Lemma demo_draw_nonneg : f64_leb f64_zero (demo_Float64 [f64_half]).1 = true.
Proof. vm_compute. reflexivity. Defined.

Lemma demo_draw_below_one : f64_ltb (demo_Float64 [f64_half]).1 f64_one = true.
Proof. vm_compute. reflexivity. Defined.

Lemma zero_target_always_drops_witness :
  f64_ltb f64_zero (arrivalRateFor demo_red (Some [1; 2; 3])) = true ∧
  demo_Pow f64_zero (exp demo_red) = f64_zero ∧
  f64_ltb f64_zero (demo_Pow (arrivalRateFor demo_red (Some [1; 2; 3])) (exp demo_red)) = true ∧
  f64_leb f64_zero (demo_Float64 [f64_half]).1 = true ∧
  f64_ltb (demo_Float64 [f64_half]).1 f64_one = true ∧
  shouldDrop demo_Float64 demo_Pow demo_red f64_zero 7%nat (Some [1; 2; 3]) [f64_half]
    = (true, (demo_Float64 [f64_half]).2).
Proof.
  exact (conj demo_rate_positive (conj demo_pow_zero (conj demo_pow_positive
    (conj demo_draw_nonneg (conj demo_draw_below_one
      (zero_target_always_drops demo_Float64 demo_Pow demo_red 7%nat (Some [1; 2; 3]) [f64_half]
         demo_rate_positive demo_pow_zero demo_pow_positive
         demo_draw_nonneg demo_draw_below_one)))))).
Defined.

(** A client that has not been seen, or whose list is empty, is not
    dropped and no number is drawn; a client at the target rate is dropped
    for a draw of one half. *)
Example never_seen_not_dropped :
  shouldDrop demo_Float64 demo_Pow demo_red (f64_of_int 1) 7%nat None [f64_half] = (false, [f64_half]) ∧
  shouldDrop demo_Float64 demo_Pow demo_red (f64_of_int 1) 7%nat (Some []) [f64_half] = (false, [f64_half]).
Proof. split; vm_compute; reflexivity. Qed.

Example at_target_dropped :
  shouldDrop demo_Float64 demo_Pow demo_red (f64_of_int 1) 7%nat
    (Some [1; 2; 3; 4; 5; 6; 7; 8; 9; 10]) [f64_half] = (true, []).
Proof. vm_compute. reflexivity. Qed.

Lemma demo_window : window demo_red ÷ Second ≠ 0.
Proof. discriminate. Defined.

Lemma drop_formula_witness :
  arrivalRateFor demo_red (Some [1; 2; 3; 4; 5; 6; 7; 8; 9; 10]) =
    f64_div (f64_of_int 10) (f64_of_int 10) ∧
  shouldDrop demo_Float64 demo_Pow demo_red (f64_of_int 1) 7%nat
    (Some [1; 2; 3; 4; 5; 6; 7; 8; 9; 10]) [f64_half] = (true, []) ∧
  window demo_red ÷ Second ≠ 0 ∧
  shouldDrop demo_Float64 demo_Pow demo_red (f64_of_int 1) 7%nat (Some []) [f64_half]
    = (false, [f64_half]).
Proof.
  destruct (drop_formula demo_Float64 demo_Pow demo_red (f64_of_int 1) 7%nat
              [1; 2; 3; 4; 5; 6; 7; 8; 9; 10] [f64_half])
    as (_ & Hrate & _ & Hdrop & Hempty).
  exact (conj Hrate (conj Hdrop (conj demo_window (Hempty demo_window)))).
Defined.

Lemma demo_sorted : Sorted Z.le [1; 2; 2; 5; 8].
Proof. repeat first [apply Sorted_cons | apply Sorted_nil | apply HdRel_cons | apply HdRel_nil | lia]. Defined.

Lemma prune_postcondition_witness :
  Sorted Z.le [1; 2; 2; 5; 8] ∧ prune (Some [1; 2; 2; 5; 8]) 2 = (Some [5; 8], 2).
Proof.
  exact (conj demo_sorted (proj1 (prune_postcondition [1; 2; 2; 5; 8] 2 demo_sorted))).
Defined.

(** Timestamps out of order: [prune] stops at the first one after the
    cutoff and keeps what follows it, old or not. *)
Example prune_unsorted : prune (Some [1; 9; 2; 8]) 5 = (Some [9; 2; 8], 3).
Proof. reflexivity. Qed.

Lemma demo_iteration :
  run_iteration demo_Float64 demo_Pow demo_running RecvServed (20 * Second) (20 * Second)
    demo_locals [f64_half] = Some (demo_running', demo_locals', None, [f64_half]).
Proof. vm_compute. reflexivity. Defined.

Lemma demo_tick : tick demo_locals' = 0 ∨ exit demo_locals' = true.
Proof. left. reflexivity. Defined.

Lemma target_rate_recomputation_witness :
  run_iteration demo_Float64 demo_Pow demo_running RecvServed (20 * Second) (20 * Second)
    demo_locals [f64_half] = Some (demo_running', demo_locals', None, [f64_half]) ∧
  (tick demo_locals' = 0 ∨ exit demo_locals' = true) ∧
  ∃ cm1 l1,
    receive demo_Float64 demo_Pow demo_running RecvServed (20 * Second) demo_locals [f64_half]
      = Some (cm1, l1, None, [f64_half]) ∧
    l_serves demo_locals' = kept (l_serves l1) (cutoff_at demo_running (20 * Second)) ∧
    l_consumedByClient demo_locals' =
      omap (prune_entry (cutoff_at demo_running (20 * Second))) (l_consumedByClient l1) ∧
    l_targetRate demo_locals' =
      if decide (size (l_consumedByClient demo_locals') = 0%nat) then f64_zero
      else f64_div
             (f64_div (f64_of_int (Z.of_nat (length (l_serves demo_locals'))))
                      (f64_of_int (window demo_running ÷ Second)))
             (f64_of_int (Z.of_nat (size (l_consumedByClient demo_locals')))).
Proof.
  exact (conj demo_iteration (conj demo_tick
    (target_rate_recomputation demo_Float64 demo_Pow demo_running demo_running' RecvServed
       (20 * Second) (20 * Second) demo_locals demo_locals' None [f64_half] [f64_half]
       demo_iteration demo_tick))).
Defined.

(** * Further properties at concrete inputs *)

Lemma tokens_accounted_witness :
  is_int 4 ∧ is_int 2 ∧
  NewElasticRateLimiter (CM := list (cm_call nat)) 4 2 (Some []) (Some 0%nat) (Some 0%nat) = Some demo_s0 ∧
  history (CM_impl := demo_manager) demo_events (demo_s0, []) = Some (demo_s1, []) ∧
  heap_tokens (chans demo_s1) + outstanding demo_s1 + carried (routines demo_s1) = 4 ∧
  0 <= heap_tokens (chans demo_s1) ∧ outstanding demo_s1 <= 4 ∧ carried (routines demo_s1) <= 4.
Proof.
  exact (conj is_int_4 (conj is_int_2 (conj demo_new (conj demo_history
    (tokens_accounted (CM_impl := demo_manager) 4 2 (Some []) (Some 0%nat) (Some 0%nat)
       demo_events demo_s0 demo_s1 [] is_int_4 is_int_2 demo_new demo_history))))).
Defined.

Lemma demo_s1_reservation : chans demo_s1 !! 1%nat = Some (Chan 2 1).
Proof. reflexivity. Defined.

Lemma channel_never_overdrawn_witness :
  is_int 4 ∧ is_int 2 ∧
  NewElasticRateLimiter (CM := list (cm_call nat)) 4 2 (Some []) (Some 0%nat) (Some 0%nat) = Some demo_s0 ∧
  history (CM_impl := demo_manager) demo_events (demo_s0, []) = Some (demo_s1, []) ∧
  chans demo_s1 !! 1%nat = Some (Chan 2 1) ∧
  0 <= qlen (Chan 2 1) ∧ qlen (Chan 2 1) + guards_on 1 (held demo_s1) <= qcap (Chan 2 1) ∧
  qcap (Chan 2 1) = (if decide (1%nat = sharedCapacity (erl demo_s1)) then 4 else 2).
Proof.
  exact (conj is_int_4 (conj is_int_2 (conj demo_new (conj demo_history (conj demo_s1_reservation
    (channel_never_overdrawn (CM_impl := demo_manager) 4 2 (Some []) (Some 0%nat) (Some 0%nat)
       demo_events demo_s0 demo_s1 [] 1%nat (Chan 2 1)
       is_int_4 is_int_2 demo_new demo_history demo_s1_reservation)))))).
Defined.

Lemma demo_s1_guard : Guard (Some 1%nat) true ∈ held demo_s1.
Proof. apply list_elem_of_here. Defined.

Lemma release_never_fails_witness :
  is_int 4 ∧ is_int 2 ∧
  NewElasticRateLimiter (CM := list (cm_call nat)) 4 2 (Some []) (Some 0%nat) (Some 0%nat) = Some demo_s0 ∧
  history (CM_impl := demo_manager) demo_events (demo_s0, []) = Some (demo_s1, []) ∧
  Guard (Some 1%nat) true ∈ held demo_s1 ∧
  ∃ q h', cq (Guard (Some 1%nat) true) = Some q ∧
    Release (Guard (Some 1%nat) true) (chans demo_s1) = (None, h') ∧
    tokens q h' = tokens q (chans demo_s1) + 1 ∧
    ∀ q', q' ≠ q → tokens q' h' = tokens q' (chans demo_s1).
Proof.
  exact (conj is_int_4 (conj is_int_2 (conj demo_new (conj demo_history (conj demo_s1_guard
    (release_never_fails (CM_impl := demo_manager) 4 2 (Some []) (Some 0%nat) (Some 0%nat)
       demo_events demo_s0 demo_s1 [] (Guard (Some 1%nat) true)
       is_int_4 is_int_2 demo_new demo_history demo_s1_guard)))))).
Defined.

Lemma consume_release_round_trip_witness :
  is_int 4 ∧ is_int 2 ∧
  NewElasticRateLimiter (CM := list (cm_call nat)) 4 2 (Some []) (Some 0%nat) (Some 0%nat) = Some demo_s0 ∧
  history (CM_impl := demo_manager) demo_events (demo_s0, []) = Some (demo_s1, []) ∧
  (∀ c now g s', ConsumeCapacity (CM_impl := demo_manager) c now demo_s1 = (Returns (g, None), s') →
     Release g (chans s') = (None, chans demo_s1)) ∧
  (∀ q g s', ConsumeCapacity_wake q demo_s1 = Some (g, s') →
     Release g (chans s') = (None, chans demo_s1)).
Proof.
  exact (conj is_int_4 (conj is_int_2 (conj demo_new (conj demo_history
    (consume_release_round_trip (CM_impl := demo_manager) 4 2 (Some []) (Some 0%nat) (Some 0%nat)
       demo_events demo_s0 demo_s1 [] is_int_4 is_int_2 demo_new demo_history))))).
Defined.

(** The guard client 7 gets from its reservation in [demo_s1], given back
    at once. *)
Example take_and_give_back :
  ∃ g s', ConsumeCapacity (CM_impl := demo_manager) 7%nat 103 demo_s1 = (Returns (g, None), s') ∧
    chans s' = [Chan 4 1; Chan 2 0] ∧ Release g (chans s') = (None, [Chan 4 1; Chan 2 1]).
Proof. eexists _, _. split; [vm_compute; reflexivity |]. split; reflexivity. Qed.

Lemma demo_history_carrying :
  history (CM_impl := demo_manager) [Enter 7%nat; Advance 0 100; Atomic (DoTransfer 0)] (demo_s0, [])
  = Some (demo_carrying, []).
Proof. vm_compute. reflexivity. Defined.

Lemma demo_carrying_routine : Transfer 0 1 2 0 true ∈ routines demo_carrying.
Proof. apply list_elem_of_here. Defined.

Lemma carrying_never_blocked_witness :
  is_int 4 ∧ is_int 2 ∧
  NewElasticRateLimiter (CM := list (cm_call nat)) 4 2 (Some []) (Some 0%nat) (Some 0%nat) = Some demo_s0 ∧
  history (CM_impl := demo_manager) [Enter 7%nat; Advance 0 100; Atomic (DoTransfer 0)] (demo_s0, [])
    = Some (demo_carrying, []) ∧
  Transfer 0 1 2 0 true ∈ routines demo_carrying ∧
  t_carry (Transfer 0 1 2 0 true) = true ∧
  ∃ t' h', transfer_step (Transfer 0 1 2 0 true) (chans demo_carrying) = Some (t', h') ∧
    t_carry t' = false ∧ t_i t' = t_i (Transfer 0 1 2 0 true) + 1 ∧ t_i t' <= t_n t' ∧
    tokens (t_to (Transfer 0 1 2 0 true)) h' =
      tokens (t_to (Transfer 0 1 2 0 true)) (chans demo_carrying) + 1.
Proof.
  exact (conj is_int_4 (conj is_int_2 (conj demo_new (conj demo_history_carrying
    (conj demo_carrying_routine (conj eq_refl
    (carrying_never_blocked (CM_impl := demo_manager) 4 2 (Some []) (Some 0%nat) (Some 0%nat)
       [Enter 7%nat; Advance 0 100; Atomic (DoTransfer 0)] demo_s0 demo_carrying []
       (Transfer 0 1 2 0 true)
       is_int_4 is_int_2 demo_new demo_history_carrying demo_carrying_routine eq_refl))))))).
Defined.

Lemma demo_refused :
  ConsumeCapacity (CM_impl := demo_manager) 9%nat 104 demo_s2
  = (Returns (zero_guard, Some (ErrNotEnoughCapacity 0 2)), demo_s2).
Proof. vm_compute. reflexivity. Defined.

Lemma failed_admission_takes_nothing_witness :
  ConsumeCapacity (CM_impl := demo_manager) 9%nat 104 demo_s2
    = (Returns (zero_guard, Some (ErrNotEnoughCapacity 0 2)), demo_s2) ∧
  zero_guard = zero_guard ∧
  chans demo_s2 = chans demo_s2 ∧ routines demo_s2 = routines demo_s2 ∧
  capacityByClient (erl demo_s2) = capacityByClient (erl demo_s2) ∧
  closers demo_s2 = closers demo_s2 ∧
  Release zero_guard (chans demo_s2) = (Some (ErrCouldNotReplace None), chans demo_s2) ∧
  Served (CM_impl := demo_manager) zero_guard 105 (erl demo_s2) = None.
Proof.
  exact (conj demo_refused
    (failed_admission_takes_nothing (CM_impl := demo_manager) 9%nat 104 105 demo_s2 demo_s2
       zero_guard (ErrNotEnoughCapacity 0 2) demo_refused)).
Defined.

(** With [ShouldDrop] answering true the call of client 7, whose
    reservation is empty, is refused although the shared channel holds
    three tokens. *)
Example dropped_before_shared :
  ConsumeCapacity (CM_impl := recorder nat true) 7%nat 100 (demo_gated 3) =
    (Returns (zero_guard, Some ErrCongestion),
     State (Erl 4 2 0%nat {[7%nat := 1%nat]} (Some 0%nat)
              (Some [CallShouldDrop 7%nat]) true (Some 1%nat))
           [Chan 4 3; Chan 2 0] [Transfer 0 1 2 2 false] [7%nat] [] []).
Proof. vm_compute. reflexivity. Qed.

Lemma demo_never_enabled : Atomic DoEnable ∉ demo_events.
Proof.
  unfold demo_events. repeat (apply not_elem_of_cons; split; [discriminate |]).
  apply not_elem_of_nil.
Defined.

Lemma congestion_control_off_by_default_witness :
  NewElasticRateLimiter (CM := list (cm_call nat)) 4 2 (Some []) (Some 0%nat) (Some 0%nat) = Some demo_s0 ∧
  history (CM_impl := demo_manager) demo_events (demo_s0, []) = Some (demo_s1, []) ∧
  (Atomic DoEnable ∉ demo_events) ∧
  enableCM (erl demo_s1) = false ∧ congestionControlCounter (erl demo_s1) = Some 0%nat.
Proof.
  refine (conj demo_new (conj demo_history (conj demo_never_enabled _))).
  destruct (congestion_control_off_by_default (CM_impl := demo_manager) 4 2 (Some [])
              (Some 0%nat) (Some 0%nat) demo_events demo_s0 demo_s1 []
              demo_new demo_history demo_never_enabled) as (Hoff & Hcount & _).
  exact (conj Hoff Hcount).
Defined.

Lemma demo_s1_entry : capacityByClient (erl demo_s1) !! 7%nat = Some 1%nat.
Proof. reflexivity. Defined.

Lemma reservations_are_private_witness :
  is_int 4 ∧ is_int 2 ∧
  NewElasticRateLimiter (CM := list (cm_call nat)) 4 2 (Some []) (Some 0%nat) (Some 0%nat) = Some demo_s0 ∧
  history (CM_impl := demo_manager) demo_events (demo_s0, []) = Some (demo_s1, []) ∧
  capacityByClient (erl demo_s1) !! 7%nat = Some 1%nat ∧
  1%nat ≠ sharedCapacity (erl demo_s1) ∧
  (∃ n, chans demo_s1 !! 1%nat = Some (Chan 2 n)) ∧
  (∀ c', capacityByClient (erl demo_s1) !! c' = Some 1%nat → c' = 7%nat) ∧
  capacityByClient (erl (closeReservation 7%nat demo_s1)) !! 7%nat = None ∧
  routines (closeReservation 7%nat demo_s1) =
    routines demo_s1 ++ [Transfer 1 (sharedCapacity (erl demo_s1)) 2 0 false].
Proof.
  exact (conj is_int_4 (conj is_int_2 (conj demo_new (conj demo_history (conj demo_s1_entry
    (reservations_are_private (CM_impl := demo_manager) 4 2 (Some []) (Some 0%nat) (Some 0%nat)
       demo_events demo_s0 demo_s1 [] 7%nat 1%nat
       is_int_4 is_int_2 demo_new demo_history demo_s1_entry)))))).
Defined.

Lemma demo_sizes : 1 <= 2 <= 4.
Proof. lia. Defined.

Lemma first_admission_completes_witness :
  is_int 4 ∧ 1 <= 2 <= 4 ∧
  NewElasticRateLimiter (CM := list (cm_call nat)) 4 2 (Some []) (Some 0%nat) (Some 0%nat) = Some demo_s0 ∧
  exec (CM_impl := demo_manager) [DoConsume 7%nat 100; DoWake 0] demo_s0 = None ∧
  exec (CM_impl := demo_manager) [DoConsume 7%nat 100; DoTransfer 0; DoWake 0] demo_s0 = None ∧
  exec (CM_impl := demo_manager) [DoConsume 7%nat 100; DoTransfer 0; DoTransfer 0; DoWake 0] demo_s0 =
    Some (State (Erl 4 2 0%nat {[7%nat := 1%nat]} (Some 0%nat) (Some []) false (Some 0%nat))
            [Chan 4 (4 - 1); Chan 2 0] [Transfer 0 1 2 1 false] [7%nat]
            [Guard (Some 1%nat) true] []).
Proof.
  exact (conj is_int_4 (conj demo_sizes (conj demo_new
    (first_admission_completes (CM_impl := demo_manager) 4 2 (Some []) (Some 0%nat) (Some 0%nat)
       7%nat 100 demo_s0 is_int_4 demo_sizes demo_new)))).
Defined.

Lemma demo_new_zero :
  NewElasticRateLimiter (CM := list (cm_call nat)) 4 0 (Some []) (Some 0%nat) (Some 0%nat) = Some demo_z0.
Proof. reflexivity. Defined.

Lemma demo_history_zero :
  history (CM_impl := demo_manager) [Atomic (DoConsume 7%nat 100)] (demo_z0, []) = Some (demo_z1, []).
Proof. vm_compute. reflexivity. Defined.

Lemma zero_reservation_never_admits_witness :
  is_int 4 ∧
  NewElasticRateLimiter (CM := list (cm_call nat)) 4 0 (Some []) (Some 0%nat) (Some 0%nat) = Some demo_z0 ∧
  history (CM_impl := demo_manager) [Atomic (DoConsume 7%nat 100)] (demo_z0, []) = Some (demo_z1, []) ∧
  ∀ q, q ≠ sharedCapacity (erl demo_z1) → ConsumeCapacity_wake (Some q) demo_z1 = None.
Proof.
  exact (conj is_int_4 (conj demo_new_zero (conj demo_history_zero
    (proj2 (zero_reservation_never_admits (CM_impl := demo_manager) 4 (Some []) (Some 0%nat)
              (Some 0%nat) [Atomic (DoConsume 7%nat 100)] demo_z0 demo_z1 []
              is_int_4 demo_new_zero demo_history_zero))))).
Defined.

Lemma demo_query_pending : shouldDropQueries demo_querying = [9%nat].
Proof. reflexivity. Defined.

Lemma demo_query_unseen : l_consumedByClient demo_locals !! 9%nat = None.
Proof. reflexivity. Defined.

Lemma demo_query_ticks : targetRateRefreshTicks demo_querying ≠ 0.
Proof. discriminate. Defined.

Lemma unseen_client_not_dropped_witness :
  shouldDropQueries demo_querying = [9%nat] ∧
  l_consumedByClient demo_locals !! 9%nat = None ∧
  targetRateRefreshTicks demo_querying ≠ 0 ∧
  ∃ cm' l', run_iteration demo_Float64 demo_Pow demo_querying RecvQuery (20 * Second) (20 * Second)
              demo_locals [f64_half] = Some (cm', l', Some false, [f64_half]) ∧
    shouldDropQueries cm' = [] ∧ l_consumedByClient l' !! 9%nat = None.
Proof.
  exact (conj demo_query_pending (conj demo_query_unseen (conj demo_query_ticks
    (unseen_client_not_dropped demo_Float64 demo_Pow demo_querying (20 * Second) (20 * Second)
       demo_locals [f64_half] 9%nat [] demo_query_pending demo_query_unseen demo_query_ticks)))).
Defined.

Lemma demo_running_ticks : targetRateRefreshTicks demo_running ≠ 0.
Proof. discriminate. Defined.

Lemma cancellation_stops_the_loop_witness :
  targetRateRefreshTicks demo_running ≠ 0 ∧
  ∃ cm' l', run_iteration demo_Float64 demo_Pow demo_running RecvDone (20 * Second) (20 * Second)
              demo_locals [f64_half] = Some (cm', l', None, [f64_half]) ∧
    exit l' = true ∧ running cm' = false.
Proof.
  refine (conj demo_running_ticks _).
  destruct (cancellation_stops_the_loop demo_Float64 demo_Pow demo_running (20 * Second)
              (20 * Second) demo_locals [f64_half] demo_running_ticks)
    as (cm' & l' & Hrun & Hexit & Hstop & _).
  exists cm', l'. exact (conj Hrun (conj Hexit Hstop)).
Defined.

Lemma demo_not_exiting : exit demo_locals' = false.
Proof. reflexivity. Defined.

Lemma fields_written_only_at_exit_witness :
  run_iteration demo_Float64 demo_Pow demo_running RecvServed (20 * Second) (20 * Second)
    demo_locals [f64_half] = Some (demo_running', demo_locals', None, [f64_half]) ∧
  exit demo_locals' = false ∧
  targetRate demo_running' = targetRate demo_running ∧
  consumedByClient demo_running' = consumedByClient demo_running ∧
  serves demo_running' = serves demo_running ∧ running demo_running' = running demo_running ∧
  RecvServed ≠ RecvDone ∧ exit demo_locals = false ∧
  tick demo_locals' = Z.rem (wrap_int (tick demo_locals + 1)) (targetRateRefreshTicks demo_running) ∧
  (tick demo_locals' ≠ 0 → l_targetRate demo_locals' = l_targetRate demo_locals).
Proof.
  exact (conj demo_iteration (conj demo_not_exiting
    (fields_written_only_at_exit demo_Float64 demo_Pow demo_running demo_running' RecvServed
       (20 * Second) (20 * Second) demo_locals demo_locals' None [f64_half] [f64_half]
       demo_iteration demo_not_exiting))).
Defined.

Lemma demo_room : Z.of_nat (length (consumed demo_running)) < chan_room.
Proof. reflexivity. Defined.

Lemma consumed_events_in_order_witness :
  Z.of_nat (length (consumed demo_running)) < chan_room ∧
  match receive demo_Float64 demo_Pow demo_running RecvConsumed (20 * Second) demo_locals [f64_half] with
  | Some (cm1, l1, reply, g1) =>
    receive demo_Float64 demo_Pow (redConsumed 7%nat (20 * Second) demo_running) RecvConsumed
      (20 * Second) demo_locals [f64_half] = Some (redConsumed 7%nat (20 * Second) cm1, l1, reply, g1)
  | None =>
    receive demo_Float64 demo_Pow (redConsumed 7%nat (20 * Second) demo_running) RecvConsumed
      (20 * Second) demo_locals [f64_half] =
      Some (demo_running,
            Locals (tick demo_locals) (l_targetRate demo_locals)
                   (<[7%nat := default [] (l_consumedByClient demo_locals !! 7%nat) ++ [20 * Second]]>
                      (l_consumedByClient demo_locals))
                   (l_serves demo_locals) (exit demo_locals),
            None, [f64_half]) ∧
    consumed demo_running = []
  end.
Proof.
  exact (conj demo_room
    (consumed_events_in_order demo_Float64 demo_Pow demo_running 7%nat (20 * Second) (20 * Second)
       demo_locals [f64_half] demo_room)).
Defined.

Lemma demo_short_window : window demo_short ÷ Second = 0.
Proof. reflexivity. Defined.

Lemma subsecond_window_always_draws_witness :
  window demo_short ÷ Second = 0 ∧
  f64_eqb (arrivalRateFor demo_short (Some [])) f64_zero = false ∧
  shouldDrop demo_Float64 demo_Pow demo_short (f64_of_int 1) 7%nat (Some []) [f64_half] =
    (f64_ltb (demo_Float64 [f64_half]).1
       (f64_div (demo_Pow (arrivalRateFor demo_short (Some [])) (exp demo_short))
                (demo_Pow (f64_of_int 1) (exp demo_short))),
     (demo_Float64 [f64_half]).2).
Proof.
  exact (conj demo_short_window
    (subsecond_window_always_draws demo_Float64 demo_Pow demo_short (f64_of_int 1) 7%nat []
       [f64_half] demo_short_window)).
Defined.

Lemma demo_sig : Sig demo_stxn = [254; 7; 9].
Proof. reflexivity. Defined.

Lemma demo_byte : 0 <= 254 < 256.
Proof. lia. Defined.

Lemma MessUpSigForTesting_flips_one_bit_witness :
  Sig demo_stxn = [254; 7; 9] ∧ (0 <= 254 < 256) ∧
  ∃ b' stxn', MessUpSigForTesting demo_stxn = Some stxn' ∧
    Sig stxn' = (b' :: [7; 9]) ∧ rest stxn' = rest demo_stxn ∧
    0 <= b' < 256 ∧ b' ≠ 254 ∧
    (∀ i, Z.testbit b' i = if i =? 0 then negb (Z.testbit 254 i) else Z.testbit 254 i) ∧
    MessUpSigForTesting stxn' = Some demo_stxn.
Proof.
  exact (conj demo_sig (conj demo_byte
    (MessUpSigForTesting_flips_one_bit demo_stxn 254 [7; 9] demo_sig demo_byte))).
Defined.

(** The signature of [demo_stxn] after the call: its first byte is 255. *)
Example demo_stxn_messed_up : MessUpSigForTesting demo_stxn = Some (Stxn [255; 7; 9] tt).
Proof. reflexivity. Qed.

Lemma served_never_panics_witness :
  NewElasticRateLimiter (CM := list (cm_call nat)) 4 2 (Some []) (Some 0%nat) (Some 0%nat) = Some demo_s0 ∧
  history (CM_impl := demo_manager) demo_events (demo_s0, []) = Some (demo_s1, []) ∧
  Guard (Some 1%nat) true ∈ held demo_s1 ∧
  Served (CM_impl := demo_manager) (Guard (Some 1%nat) true) 200 (erl demo_s1) =
    Some (set_cm (cmServed (CongestionManager := demo_manager) 200 <$> cm (erl demo_s1)) (erl demo_s1)).
Proof.
  exact (conj demo_new (conj demo_history (conj demo_s1_guard
    (proj1 (served_never_panics (CM_impl := demo_manager) 4 2 (Some []) (Some 0%nat) (Some 0%nat)
              demo_events demo_s0 demo_s1 [] (Guard (Some 1%nat) true) 200
              demo_new demo_history demo_s1_guard))))).
Defined.

Lemma panics_iff_negative_reservation_witness :
  is_int 4 ∧ is_int 2 ∧
  NewElasticRateLimiter (CM := list (cm_call nat)) 4 2 (Some []) (Some 0%nat) (Some 0%nat) = Some demo_s0 ∧
  history (CM_impl := demo_manager) demo_events (demo_s0, []) = Some (demo_s1, []) ∧
  ((openReservation 9%nat demo_s1).1 = Panics ↔ 2 < 0).
Proof.
  exact (conj is_int_4 (conj is_int_2 (conj demo_new (conj demo_history
    (proj1 (panics_iff_negative_reservation (CM_impl := demo_manager) 4 2 (Some []) (Some 0%nat)
              (Some 0%nat) demo_events demo_s0 demo_s1 [] 9%nat 104
              is_int_4 is_int_2 demo_new demo_history)))))).
Defined.

(** A limiter made with a negative [reservedCapacity] panics at the first
    call. *)
Example negative_reservation_panics :
  ∃ s0, NewElasticRateLimiter (CM := list (cm_call nat)) 4 (-1) (Some []) (Some 0%nat) (Some 0%nat)
          = Some s0 ∧
    (ConsumeCapacity (CM_impl := demo_manager) 7%nat 100 s0).1 = Panics.
Proof. eexists. split; [reflexivity |]. vm_compute. reflexivity. Qed.

Lemma reopen_after_close_witness :
  is_int 4 ∧ is_int 2 ∧
  NewElasticRateLimiter (CM := list (cm_call nat)) 4 2 (Some []) (Some 0%nat) (Some 0%nat) = Some demo_s0 ∧
  history (CM_impl := demo_manager) demo_events (demo_s0, []) = Some (demo_s1, []) ∧
  capacityByClient (erl demo_s1) !! 7%nat = Some 1%nat ∧
  ∃ s', openReservation 7%nat (closeReservation 7%nat demo_s1)
          = (Returns (Some (length (chans demo_s1)), None), s') ∧
    length (chans demo_s1) ≠ 1%nat ∧
    capacityByClient (erl s') = <[7%nat := length (chans demo_s1)]> (capacityByClient (erl demo_s1)) ∧
    chans s' = chans demo_s1 ++ [Chan 2 0] ∧
    routines s' = routines demo_s1 ++
      [Transfer 1 (sharedCapacity (erl demo_s1)) 2 0 false;
       Transfer (sharedCapacity (erl demo_s1)) (length (chans demo_s1)) 2 0 false].
Proof.
  exact (conj is_int_4 (conj is_int_2 (conj demo_new (conj demo_history (conj demo_s1_entry
    (reopen_after_close (CM_impl := demo_manager) 4 2 (Some []) (Some 0%nat) (Some 0%nat)
       demo_events demo_s0 demo_s1 [] 7%nat 1%nat
       is_int_4 is_int_2 demo_new demo_history demo_s1_entry)))))).
Defined.
